(** * kfp.components.pipeline_channel: channels, placeholders and OneOf

    A shallow embedding of [sdk/python/kfp/components/pipeline_channel.py]
    and the properties of its channel constructors, of the placeholder
    codec ([__str__] / [extract_pipeline_channels_from_string]) and of the
    [OneOf] validators.

    Conventions.
    - A Python [str] is a [string].  A character below 128 is the ASCII
      character of that code.  The characters from 128 on stand for the
      characters above U+007F that a text holds; whether such a character
      is in [\w] or in [\s] is read from the interpreter's Unicode
      tables, which are part of the environment ([unicode_word],
      [unicode_space]).  The classes [A-Z], [a-z] and [0-9] hold ASCII
      characters only, as in the interpreter.
    - A [raise] is a value [Raise k]; the kinds name the [raise] statements
      of the module (and the interpreter's own errors it can run into).
    - What the module imports and calls but does not define (the type
      classifier of [kfp.components.types.type_utils], [json], [hash],
      [str()] and [==] on values that are not strings) is the class [Env].
      The classifier and [json.loads] can raise; what they raise and the
      module does not catch comes out as [Propagated].
    - The definitions and the theorems are for an arbitrary [Env], and the
      examples that need one run in [sample_env]. *)

From Stdlib Require Import String Ascii List Bool ZArith NArith Lia Floats.
From Stdlib Require Import Permutation.
Import ListNotations.
Local Open Scope string_scope.
Local Open Scope list_scope.
Set Warnings "-register-all".

(* ================================================================== *)
(** ** Errors *)

(** The failures the module can end in.  The first eight are its own
    [raise] statements, under the names of the error taxonomy:
    - [InvalidName]: [PipelineChannel.__init__], the name does not match;
    - [ConflictingChannelSource]: 'task_name and value cannot be both set.';
    - [TypeMismatch]: the two [TypeError]s of the variants' constructors and
      'must all be the same type' of [OneOf];
    - [InvalidOperand]: 'Constants are not permitted' and 'Pipeline
      parameters are not permitted';
    - [ArityViolation]: 'Expected two or more task outputs';
    - [MissingConditionAncestor], [NonExclusiveBranches], [LoopNotAllowed]:
      the three topology checks.
    The next three are raised by the interpreter: [outputs[0]] on an empty
    tuple, a dictionary lookup of an absent key, [list.remove] of an absent
    element.  [Propagated] is an exception, by its name, that the type
    classifier or [json.loads] raised and that the module lets through. *)
Inductive ErrorKind : Set :=
| InvalidName
| ConflictingChannelSource
| TypeMismatch
| InvalidOperand
| ArityViolation
| MissingConditionAncestor
| NonExclusiveBranches
| LoopNotAllowed
| IndexError
| KeyError
| RemoveError
| Propagated (exception : string).

Inductive result (A : Type) : Type :=
| Ok (a : A)
| Raise (e : ErrorKind).
Arguments Ok {A} a.
Arguments Raise {A} e.

Definition bind {A B : Type} (r : result A) (k : A -> result B) : result B :=
  match r with
  | Ok a => k a
  | Raise e => Raise e
  end.

Notation "x <- r ;; k" := (bind r (fun x => k))
  (at level 61, r at next level, right associativity).
Notation "r ;;; k" := (bind r (fun _ => k))
  (at level 61, right associativity).

(** [if cond: raise e] *)
Definition raise_if (cond : bool) (e : ErrorKind) : result unit :=
  if cond then Raise e else Ok tt.

(** What a call into the environment ends in: a value, or an exception. *)
Inductive outcome (A : Type) : Type :=
| Returned (a : A)
| Raised (exception : string).
Arguments Returned {A} a.
Arguments Raised {A} exception.

(** A call whose exception is not caught. *)
Definition call {A : Type} (o : outcome A) : result A :=
  match o with
  | Returned a => Ok a
  | Raised exception => Raise (Propagated exception)
  end.

(* ================================================================== *)
(** ** Python values *)

(** The values a channel type or a channel value can be: [channel_type] is
    annotated [Union[str, Dict]], and [json.loads] can hand back any JSON
    value. *)
Inductive pyval : Type :=
| PNone
| PBool (b : bool)
| PInt (z : Z)
| PFloat (f : float)
| PStr (s : string)
| PList (l : list pyval)
| PDict (d : list (string * pyval)).

(** Truth value of an object, as [if x], [x or y] and [not x] use it. *)
Definition truthy (v : pyval) : bool :=
  match v with
  | PNone => false
  | PBool b => b
  | PInt z => negb (z =? 0)%Z
  | PFloat f => negb (PrimFloat.eqb f PrimFloat.zero)
  | PStr s => negb (s =? "")
  | PList l => match l with [] => false | _ => true end
  | PDict d => match d with [] => false | _ => true end
  end.

(** Truth value of an [Optional[str]]. *)
Definition truthy_opt (o : option string) : bool :=
  match o with
  | None => false
  | Some s => negb (s =? "")
  end.

Definition is_dict (v : pyval) : bool :=
  match v with PDict _ => true | _ => false end.

(** What the module calls and does not define. *)
Class Env : Type := {
  (** [type_utils.is_parameter_type] *)
  is_parameter_type : pyval -> outcome bool;
  (** [json.loads]: the value, [None] for a [json.JSONDecodeError], or
      another exception (the limit on the digits of an integer, the
      recursion limit) *)
  json_loads : string -> outcome (option pyval);
  (** [json.dumps] *)
  json_dumps : pyval -> string;
  (** [str(x)] for an [x] that is not a [str] *)
  py_str : pyval -> string;
  (** [x == y] where neither is a [str] *)
  py_eq : pyval -> pyval -> bool;
  (** [hash(s)] of a [str] *)
  str_hash : string -> Z;
  (** whether a character above U+007F is in [\w] *)
  unicode_word : ascii -> bool;
  (** whether a character above U+007F is in [\s] *)
  unicode_space : ascii -> bool
}.

(** ['%s' % x] *)
Definition format_s `{Env} (v : pyval) : string :=
  match v with
  | PStr s => s
  | _ => py_str v
  end.

(** [x != y]: a [str] differs from anything that is not a [str]. *)
Definition py_ne `{Env} (x y : pyval) : bool :=
  match x, y with
  | PStr a, PStr b => negb (a =? b)
  | PStr _, _ => true
  | _, PStr _ => true
  | _, _ => negb (py_eq x y)
  end.

(* ================================================================== *)
(** ** Character classes and the name grammar *)

Definition in_range (lo hi : N) (c : ascii) : bool :=
  ((lo <=? N_of_ascii c) && (N_of_ascii c <=? hi))%N.

Definition is_letter (c : ascii) : bool :=
  in_range 65 90 c || in_range 97 122 c.

Definition is_digit (c : ascii) : bool := in_range 48 57 c.

(** Above U+007F. *)
Definition beyond_ascii (c : ascii) : bool := (128 <=? N_of_ascii c)%N.

(** [\s]: tab, line feed, vertical tab, form feed, carriage return, the
    four separators 28..31 and the space; above U+007F, what the Unicode
    tables say. *)
Definition is_space `{Env} (c : ascii) : bool :=
  in_range 9 13 c || in_range 28 32 c
  || (beyond_ascii c && unicode_space c).

(** [\w]: the letters, the digits and [_]; above U+007F, what the Unicode
    tables say. *)
Definition is_word `{Env} (c : ascii) : bool :=
  is_letter c || is_digit c || (N_of_ascii c =? 95)%N
  || (beyond_ascii c && unicode_word c).

Definition is_dash (c : ascii) : bool := (N_of_ascii c =? 45)%N.

(** [[A-Za-z0-9\s_-]] *)
Definition name_tail_char `{Env} (c : ascii) : bool :=
  is_letter c || is_digit c || is_space c
  || (N_of_ascii c =? 95)%N || is_dash c.

Fixpoint all_chars (p : ascii -> bool) (s : string) : bool :=
  match s with
  | EmptyString => true
  | String c s' => p c && all_chars p s'
  end.

(** [re.match(r'^[A-Za-z][A-Za-z0-9\s_-]*$', name)] is not [None].  A [$]
    also matches before a final line feed, which adds no string here: the
    line feed is itself in the class of the tail. *)
Definition valid_name `{Env} (name : string) : bool :=
  match name with
  | EmptyString => false
  | String c rest => is_letter c && all_chars name_tail_char rest
  end.

(* ================================================================== *)
(** ** Channels *)

(** A channel as its constructor leaves it: the variant and the attributes
    [name], [channel_type], [task_name] and, for a parameter channel,
    [value] ([PNone] when no value was given). *)
Inductive PipelineChannel : Type :=
| ParameterChannel (name : string) (channel_type : pyval)
    (task_name : option string) (value : pyval)
| ArtifactChannel (name : string) (channel_type : pyval)
    (task_name : option string).

Definition name (c : PipelineChannel) : string :=
  match c with
  | ParameterChannel n _ _ _ => n
  | ArtifactChannel n _ _ => n
  end.

Definition channel_type (c : PipelineChannel) : pyval :=
  match c with
  | ParameterChannel _ t _ _ => t
  | ArtifactChannel _ t _ => t
  end.

Definition task_name (c : PipelineChannel) : option string :=
  match c with
  | ParameterChannel _ _ t _ => t
  | ArtifactChannel _ _ t => t
  end.

Definition is_parameter_channel (c : PipelineChannel) : bool :=
  match c with
  | ParameterChannel _ _ _ _ => true
  | ArtifactChannel _ _ _ => false
  end.

(** [task_name or None] *)
Definition or_None (task : option string) : option string :=
  if truthy_opt task then task else None.

(** [PipelineChannel.__init__]: the check of the name and the attributes it
    sets.  Only [name] is matched against the grammar. *)
Definition PipelineChannel_init `{Env} (name : string) (task : option string)
  : result (option string) :=
  raise_if (negb (valid_name name)) InvalidName ;;;
  Ok (or_None task).

(** [PipelineParameterChannel.__init__] *)
Definition PipelineParameterChannel_init `{Env} (name : string)
    (channel_type : pyval) (task : option string) (value : pyval)
  : result PipelineChannel :=
  raise_if (truthy_opt task && truthy value) ConflictingChannelSource ;;;
  parameter <- call (is_parameter_type channel_type) ;;
  raise_if (negb parameter) TypeMismatch ;;;
  stored_task <- PipelineChannel_init name task ;;
  Ok (ParameterChannel name channel_type stored_task value).

(** [PipelineArtifactChannel.__init__] *)
Definition PipelineArtifactChannel_init `{Env} (name : string)
    (channel_type : pyval) (task : option string)
  : result PipelineChannel :=
  parameter <- call (is_parameter_type channel_type) ;;
  raise_if parameter TypeMismatch ;;;
  stored_task <- PipelineChannel_init name task ;;
  Ok (ArtifactChannel name channel_type stored_task).

(** [create_pipeline_channel]; [value] is not passed on to the artifact
    variant. *)
Definition create_pipeline_channel `{Env} (name : string)
    (channel_type : pyval) (task : option string) (value : pyval)
  : result PipelineChannel :=
  parameter <- call (is_parameter_type channel_type) ;;
  if parameter
  then PipelineParameterChannel_init name channel_type task value
  else PipelineArtifactChannel_init name channel_type task.

(** [full_name] *)
Definition full_name (c : PipelineChannel) : string :=
  match task_name c with
  | Some t => if negb (t =? "") then t ++ "-" ++ name c else name c
  | None => name c
  end.

(** The type field of the placeholder: [channel_type or ''], through
    [json.dumps] when it is a dictionary, then ['%s']. *)
Definition type_field `{Env} (t : pyval) : string :=
  let t := if truthy t then t else PStr "" in
  let t := if is_dict t then PStr (json_dumps t) else t in
  format_s t.

(** [task_name or ''] *)
Definition task_field (task : option string) : string :=
  match task with
  | Some t => t
  | None => ""
  end.

(** [_PIPELINE_CHANNEL_PLACEHOLDER_TEMPLATE % (task_name, name, channel_type)] *)
Definition placeholder (task name type : string) : string :=
  "{{channel:task=" ++ task ++ ";name=" ++ name ++ ";type=" ++ type ++ ";}}".

(** [__str__] *)
Definition str `{Env} (c : PipelineChannel) : string :=
  placeholder (task_field (task_name c)) (name c) (type_field (channel_type c)).

(** [pattern] *)
Definition pattern `{Env} (c : PipelineChannel) : string := str c.

(** [__hash__] *)
Definition hash `{Env} (c : PipelineChannel) : Z := str_hash (pattern c).

(* ================================================================== *)
(** ** Comparison operators *)

(** An operand of a condition: a channel or a plain value. *)
Inductive operand : Type :=
| OperandChannel (c : PipelineChannel)
| OperandValue (v : pyval).

(** The dataclass [ConditionOperator]. *)
Record ConditionOperator : Type := {
  operator : string;
  left_operand : operand;
  right_operand : operand
}.

(** [PipelineChannel.__eq__]: no comparison is made. *)
Definition channel_eq (self : PipelineChannel) (other : operand)
  : ConditionOperator :=
  {| operator := "=="; left_operand := OperandChannel self;
     right_operand := other |}.

(** [PipelineChannel.__ne__] *)
Definition channel_ne (self : PipelineChannel) (other : operand)
  : ConditionOperator :=
  {| operator := "!="; left_operand := OperandChannel self;
     right_operand := other |}.

(** Truth value of a [ConditionOperator]: the dataclass defines neither
    [__bool__] nor [__len__], so every instance is true. *)
Definition condition_truthy (_ : ConditionOperator) : bool := true.

(* ================================================================== *)
(** ** Sets of channels *)

(** Whether a set takes [c] for an element [d] it already holds: the
    hashes agree and [d == c] is true. *)
Definition same_element `{Env} (c d : PipelineChannel) : bool :=
  (hash d =? hash c)%Z && condition_truthy (channel_eq d (OperandChannel c)).

(** [s.add(c)] *)
Definition set_add `{Env} (s : list PipelineChannel) (c : PipelineChannel)
  : list PipelineChannel :=
  if existsb (same_element c) s then s else s ++ [c].

(** [list(set(l))].  The elements come in the order of their first
    insertion; Python leaves the order of a set open, and nothing below
    depends on it. *)
Definition list_set `{Env} (l : list PipelineChannel) : list PipelineChannel :=
  fold_left set_add l [].

(** A list of channels with pairwise different hashes, as a set holds
    them. *)
Definition distinct_hashes `{Env} (s : list PipelineChannel) : Prop :=
  NoDup (map hash s).

(* ================================================================== *)
(** ** The placeholder regular expression *)

(** [[\w\s_-]], the class of the task and name fields *)
Definition field_char `{Env} (c : ascii) : bool :=
  is_word c || is_space c || is_dash c.

(** The class of the type field: [\w], [\s], the two braces, the double
    quote, the colon, [_] and [-]. *)
Definition type_char `{Env} (c : ascii) : bool :=
  is_word c || is_space c
  || (N_of_ascii c =? 123)%N || (N_of_ascii c =? 125)%N
  || (N_of_ascii c =? 34)%N || (N_of_ascii c =? 58)%N || is_dash c.

(** [s] without the prefix [p], if it starts with it. *)
Fixpoint strip_prefix (p s : string) : option string :=
  match p, s with
  | EmptyString, _ => Some s
  | String a p', String b s' => if Ascii.eqb a b then strip_prefix p' s' else None
  | String _ _, EmptyString => None
  end.

(** The longest prefix of [s] in the class [p], and what follows it. *)
Fixpoint span (p : ascii -> bool) (s : string) : string * string :=
  match s with
  | EmptyString => (EmptyString, EmptyString)
  | String c s' =>
      if p c then let (run, rest) := span p s' in (String c run, rest)
      else (EmptyString, s)
  end.

(** The text after a run: empty, or starting outside the class. *)
Definition stops (p : ascii -> bool) (rest : string) : Prop :=
  match rest with
  | EmptyString => True
  | String c _ => p c = false
  end.

(** One match of [_PIPELINE_CHANNEL_PLACEHOLDER_REGEX] at the start of [s]:
    the three groups and the text after the match.  No class holds [;] and
    each class is followed by a literal that starts with [;], so a greedy
    repetition can only be followed by its literal after the longest run:
    the match, when there is one, is the one computed here. *)
Definition match_placeholder `{Env} (s : string)
  : option ((string * string * string) * string) :=
  match strip_prefix "{{channel:task=" s with
  | None => None
  | Some s1 =>
      let (task, s2) := span field_char s1 in
      match strip_prefix ";name=" s2 with
      | None => None
      | Some s3 =>
          let (name, s4) := span field_char s3 in
          match name with
          | EmptyString => None
          | _ =>
              match strip_prefix ";type=" s4 with
              | None => None
              | Some s5 =>
                  let (type, s6) := span type_char s5 in
                  match strip_prefix ";}}" s6 with
                  | None => None
                  | Some rest => Some ((task, name, type), rest)
                  end
              end
          end
      end
  end.

(** [re.findall]: the groups of the matches, leftmost first, not
    overlapping.  A match is never empty, so every step shortens the text
    and [fuel] above its length is never used up. *)
Fixpoint findall_from `{Env} (fuel : nat) (s : string)
  : list (string * string * string) :=
  match fuel with
  | O => []
  | S fuel' =>
      match match_placeholder s with
      | Some (groups, rest) => groups :: findall_from fuel' rest
      | None =>
          match s with
          | EmptyString => []
          | String _ s' => findall_from fuel' s'
          end
      end
  end.

Definition findall `{Env} (s : string) : list (string * string * string) :=
  findall_from (S (String.length s)) s.

(* ================================================================== *)
(** ** Extraction of channels *)

(** [try: channel_type = json.loads(channel_type)
     except json.JSONDecodeError: pass]; any other exception of
    [json.loads] is not caught. *)
Definition loaded_type `{Env} (type : string) : result pyval :=
  read <- call (json_loads type) ;;
  match read with
  | Some v => Ok v
  | None => Ok (PStr type)
  end.

(** The body of the loop of [extract_pipeline_channels_from_string] up to
    the [add]: the channel of one match. *)
Definition channel_of_match `{Env} (m : string * string * string)
  : result PipelineChannel :=
  let '(task, name, type) := m in
  channel_type <- loaded_type type ;;
  parameter <- call (is_parameter_type channel_type) ;;
  if parameter
  then PipelineParameterChannel_init name channel_type (Some task) PNone
  else PipelineArtifactChannel_init name channel_type (Some task).

(** The loop over the matches, with the set it fills. *)
Fixpoint add_matches `{Env} (matches : list (string * string * string))
    (unique_channels : list PipelineChannel) : result (list PipelineChannel) :=
  match matches with
  | [] => Ok unique_channels
  | m :: matches' =>
      pipeline_channel <- channel_of_match m ;;
      add_matches matches' (set_add unique_channels pipeline_channel)
  end.

(** [extract_pipeline_channels_from_string] *)
Definition extract_pipeline_channels_from_string `{Env} (payload : string)
  : result (list PipelineChannel) :=
  add_matches (findall payload) [].

(** A payload of [extract_pipeline_channels_from_any]: a channel, a string,
    a list or tuple, a dictionary, or anything else. *)
Inductive payload : Type :=
| PayChannel (c : PipelineChannel)
| PayStr (s : string)
| PaySeq (items : list payload)
| PayDict (items : list (payload * payload))
| PayOther (v : pyval).

(** [not payload] *)
Definition payload_falsy (p : payload) : bool :=
  match p with
  | PayChannel _ => false
  | PayStr s => s =? ""
  | PaySeq items => match items with [] => true | _ => false end
  | PayDict items => match items with [] => true | _ => false end
  | PayOther v => negb (truthy v)
  end.

(** [extract_pipeline_channels_from_any] *)
Fixpoint extract_pipeline_channels_from_any `{Env} (p : payload)
  : result (list PipelineChannel) :=
  if payload_falsy p then Ok [] else
  match p with
  | PayChannel c => Ok [c]
  | PayStr s =>
      l <- extract_pipeline_channels_from_string s ;;
      Ok (list_set l)
  | PaySeq items =>
      pipeline_channels <-
        (fix over (items : list payload) (acc : list PipelineChannel) :=
           match items with
           | [] => Ok acc
           | item :: items' =>
               l <- extract_pipeline_channels_from_any item ;;
               over items' (acc ++ l)
           end) items [] ;;
      Ok (list_set pipeline_channels)
  | PayDict items =>
      pipeline_channels <-
        (fix over (items : list (payload * payload))
             (acc : list PipelineChannel) :=
           match items with
           | [] => Ok acc
           | (key, value) :: items' =>
               lk <- extract_pipeline_channels_from_any key ;;
               lv <- extract_pipeline_channels_from_any value ;;
               over items' ((acc ++ lk) ++ lv)
           end) items [] ;;
      Ok (list_set pipeline_channels)
  | PayOther _ => Ok []
  end.

(* ================================================================== *)
(** ** Task groups and the resolver's indices *)

(** Modelled from the spec: the kind of a group.  [kfp.components.tasks_group]
    is not among the sources; the validators name its [CONDITION] and
    [FOR_LOOP], and the data model lists Root, Condition, ParallelFor and
    ExitHandler. *)
Inductive TasksGroupType : Set :=
| PIPELINE
| CONDITION
| FOR_LOOP
| EXIT_HANDLER.

Definition TasksGroupType_eqb (a b : TasksGroupType) : bool :=
  match a, b with
  | PIPELINE, PIPELINE | CONDITION, CONDITION
  | FOR_LOOP, FOR_LOOP | EXIT_HANDLER, EXIT_HANDLER => true
  | _, _ => false
  end.

(** What the validators read of a [TasksGroup]. *)
Record TasksGroup : Type := {
  group_name : string;
  group_type : TasksGroupType
}.

(** A [dict] with [str] keys, as the list of its items in insertion order. *)
Definition dict (V : Type) : Type := list (string * V).

(** [d[k]] *)
Fixpoint dict_get {V : Type} (d : dict V) (k : string) : result V :=
  match d with
  | [] => Raise KeyError
  | (k', v) :: d' => if k' =? k then Ok v else dict_get d' k
  end.

(** [d[k] = v]: a key already there keeps its place. *)
Fixpoint dict_set {V : Type} (d : dict V) (k : string) (v : V) : dict V :=
  match d with
  | [] => [(k, v)]
  | (k', v') :: d' =>
      if k' =? k then (k', v) :: d' else (k', v') :: dict_set d' k v
  end.

(** [l.remove(x)]: the first occurrence goes. *)
Fixpoint list_remove (x : string) (l : list string) : result (list string) :=
  match l with
  | [] => Raise RemoveError
  | y :: l' =>
      if y =? x then Ok l'
      else (l'' <- list_remove x l' ;; Ok (y :: l''))
  end.

(** [for x in l: body(x)], stopping at the first exception. *)
Fixpoint for_each {A : Type} (body : A -> result unit) (l : list A)
  : result unit :=
  match l with
  | [] => Ok tt
  | x :: l' => body x ;;; for_each body l'
  end.

(** [{group.name: group for group in all_groups}] *)
Definition group_index (all_groups : list TasksGroup) : dict TasksGroup :=
  fold_left (fun d g => dict_set d (group_name g) g) all_groups [].

(* ================================================================== *)
(** ** OneOf *)

Record OneOf : Type := { outputs : list operand }.

(** [[val for val in outputs if not isinstance(val, PipelineChannel)]] *)
Definition constants (outputs : list operand) : list operand :=
  filter (fun val => match val with
                     | OperandChannel _ => false
                     | OperandValue _ => true
                     end) outputs.

(** The outputs that are channels; past the first check these are all of
    them. *)
Fixpoint channels (outputs : list operand) : list PipelineChannel :=
  match outputs with
  | [] => []
  | OperandChannel c :: outputs' => c :: channels outputs'
  | OperandValue _ :: outputs' => channels outputs'
  end.

(** [[val.name for val in outputs if val.task_name is None]] *)
Definition pipeline_parameters (outputs : list PipelineChannel) : list string :=
  map name
    (filter (fun val => match task_name val with
                        | None => true
                        | Some _ => false
                        end) outputs).

Definition nonempty {A : Type} (l : list A) : bool :=
  match l with [] => false | _ => true end.

(** [OneOf._validate_tuple] *)
Definition _validate_tuple `{Env} (outputs : list operand) : result unit :=
  raise_if (nonempty (constants outputs)) InvalidOperand ;;;
  let outputs' := channels outputs in
  raise_if (nonempty (pipeline_parameters outputs')) InvalidOperand ;;;
  argument_type <-
    match outputs' with
    | [] => Raise IndexError
    | first :: _ => Ok (channel_type first)
    end ;;
  let all_types := map channel_type outputs' in
  raise_if (existsb (fun t => py_ne t argument_type) all_types) TypeMismatch ;;;
  raise_if (List.length outputs <? 2)%nat ArityViolation.

(** [OneOf.__init__]: the outputs and their check.  The default pipeline,
    which it records afterwards, is the source of the two indices that
    [_validate_topology] takes as arguments here. *)
Definition OneOf_init `{Env} (outputs : list operand) : result OneOf :=
  _validate_tuple outputs ;;;
  Ok {| outputs := outputs |}.

(** [OneOf._branch_tasks] *)
Definition _branch_tasks (self : OneOf) : list (option string) :=
  map task_name (channels (outputs self)).

(** [task_name in self._branch_tasks] *)
Definition in_branch_tasks (self : OneOf) (task : string) : bool :=
  existsb (fun t => match t with
                    | Some t' => t' =? task
                    | None => false
                    end) (_branch_tasks self).

(** [OneOf._validate_no_parallel_for_parents] *)
Definition _validate_no_parallel_for_parents
    (task_name_to_parent_groups_no_self : dict (list string))
    (group_name_to_group : dict TasksGroup) : result unit :=
  for_each (fun '(task_name, parents) =>
    for_each (fun parent =>
      group <- dict_get group_name_to_group parent ;;
      raise_if (TasksGroupType_eqb (group_type group) FOR_LOOP) LoopNotAllowed)
      parents)
    task_name_to_parent_groups_no_self.

(** [parent_condition_to_task[parent].append(task_name)] on a
    [defaultdict(list)] *)
Definition dict_append (d : dict (list string)) (k task : string)
  : dict (list string) :=
  match dict_get d k with
  | Ok tasks => dict_set d k (tasks ++ [task])
  | Raise _ => dict_set d k [task]
  end.

(** The first loop of [_validate_no_shared_condition_parents], over the
    parents of one task. *)
Fixpoint collect_conditions (group_name_to_group : dict TasksGroup)
    (task_name : string) (parents : list string)
    (parent_condition_to_task : dict (list string))
  : result (dict (list string)) :=
  match parents with
  | [] => Ok parent_condition_to_task
  | parent :: parents' =>
      group <- dict_get group_name_to_group parent ;;
      collect_conditions group_name_to_group task_name parents'
        (if TasksGroupType_eqb (group_type group) CONDITION
         then dict_append parent_condition_to_task parent task_name
         else parent_condition_to_task)
  end.

(** The first loop of [_validate_no_shared_condition_parents], over the
    tasks. *)
Fixpoint collect_all_conditions (group_name_to_group : dict TasksGroup)
    (tasks : dict (list string))
    (parent_condition_to_task : dict (list string))
  : result (dict (list string)) :=
  match tasks with
  | [] => Ok parent_condition_to_task
  | (task_name, parents) :: tasks' =>
      d <- collect_conditions group_name_to_group task_name parents
             parent_condition_to_task ;;
      collect_all_conditions group_name_to_group tasks' d
  end.

(** [OneOf._validate_no_shared_condition_parents] *)
Definition _validate_no_shared_condition_parents
    (task_name_to_parent_groups_no_self : dict (list string))
    (group_name_to_group : dict TasksGroup) : result unit :=
  parent_condition_to_task <-
    collect_all_conditions group_name_to_group
      task_name_to_parent_groups_no_self [] ;;
  for_each (fun '(condition_name, inner_tasks) =>
    raise_if (1 <? List.length inner_tasks)%nat NonExclusiveBranches)
    parent_condition_to_task.

(** [[g[p] for p in parents]], the inner [for] of the comprehension *)
Fixpoint lookup_all (group_name_to_group : dict TasksGroup)
    (parents : list string) : result (list TasksGroup) :=
  match parents with
  | [] => Ok []
  | parent :: parents' =>
      g <- dict_get group_name_to_group parent ;;
      gs <- lookup_all group_name_to_group parents' ;;
      Ok (g :: gs)
  end.

(** The comprehension of [_validate_all_tasks_have_condition_parents]:
    [[g[parent] for parent in parents if g[parent].group_type == CONDITION
      for parent in parents]].  The outer [for] runs over [outer], the inner
    one over all of [parents] again. *)
Fixpoint condition_parents (group_name_to_group : dict TasksGroup)
    (parents outer : list string) : result (list TasksGroup) :=
  match outer with
  | [] => Ok []
  | parent :: outer' =>
      g <- dict_get group_name_to_group parent ;;
      inner <- (if TasksGroupType_eqb (group_type g) CONDITION
                then lookup_all group_name_to_group parents
                else Ok []) ;;
      rest <- condition_parents group_name_to_group parents outer' ;;
      Ok (inner ++ rest)
  end.

(** [OneOf._validate_all_tasks_have_condition_parents] *)
Definition _validate_all_tasks_have_condition_parents
    (task_name_to_parent_groups_no_self : dict (list string))
    (group_name_to_group : dict TasksGroup) : result unit :=
  for_each (fun '(task_name, parents) =>
    found <- condition_parents group_name_to_group parents parents ;;
    raise_if (negb (nonempty found)) MissingConditionAncestor)
    task_name_to_parent_groups_no_self.

(** The loop of [_validate_topology] that strips each task from its own
    chain and keeps the chains of the branch tasks. *)
Fixpoint parents_no_self (self : OneOf)
    (task_name_to_parent_groups : dict (list string))
    (oneof_task_names_to_parents_no_self : dict (list string))
  : result (dict (list string)) :=
  match task_name_to_parent_groups with
  | [] => Ok oneof_task_names_to_parents_no_self
  | (task_name, parents) :: rest =>
      parents' <- list_remove task_name parents ;;
      parents_no_self self rest
        (if in_branch_tasks self task_name
         then dict_set oneof_task_names_to_parents_no_self task_name parents'
         else oneof_task_names_to_parents_no_self)
  end.

(** [OneOf._validate_topology], from the two indices of
    [compiler_utils]: [task_name_to_parent_groups] is the first component
    of [get_parent_groups(root_group)], [all_groups] is
    [get_all_groups(root_group)]. *)
Definition _validate_topology (self : OneOf)
    (task_name_to_parent_groups : dict (list string))
    (all_groups : list TasksGroup) : result unit :=
  let group_name_to_group := group_index all_groups in
  oneof_task_names_to_parents_no_self <-
    parents_no_self self task_name_to_parent_groups [] ;;
  _validate_no_parallel_for_parents
    oneof_task_names_to_parents_no_self group_name_to_group ;;;
  _validate_no_shared_condition_parents
    oneof_task_names_to_parents_no_self group_name_to_group ;;;
  _validate_all_tasks_have_condition_parents
    oneof_task_names_to_parents_no_self group_name_to_group.

(** A [OneOf] from its construction to the end of the topology pass. *)
Definition construct_and_validate `{Env} (outputs : list operand)
    (task_name_to_parent_groups : dict (list string))
    (all_groups : list TasksGroup) : result unit :=
  self <- OneOf_init outputs ;;
  _validate_topology self task_name_to_parent_groups all_groups.

(* ================================================================== *)
(** ** The rules of OneOf, stated on the data *)

(** The statements below say what each check decides, without the loops;
    the theorems relate the validators to them. *)

(** The kind of the group of that name, if there is one. *)
Definition kind_of (group_name_to_group : dict TasksGroup) (parent : string)
  : option TasksGroupType :=
  match dict_get group_name_to_group parent with
  | Ok g => Some (group_type g)
  | Raise _ => None
  end.

Definition is_condition (group_name_to_group : dict TasksGroup)
    (parent : string) : bool :=
  match kind_of group_name_to_group parent with
  | Some CONDITION => true
  | _ => false
  end.

Definition is_for_loop (group_name_to_group : dict TasksGroup)
    (parent : string) : bool :=
  match kind_of group_name_to_group parent with
  | Some FOR_LOOP => true
  | _ => false
  end.

(** Every name in every chain is the name of a group. *)
Definition resolvable (group_name_to_group : dict TasksGroup)
    (tasks : dict (list string)) : bool :=
  forallb (fun '(_, parents) =>
    forallb (fun parent =>
      match kind_of group_name_to_group parent with
      | Some _ => true
      | None => false
      end) parents) tasks.

(** Some output is a constant or a channel that no task produces. *)
Definition some_invalid_operand (outputs : list operand) : bool :=
  existsb (fun val =>
    match val with
    | OperandValue _ => true
    | OperandChannel c =>
        match task_name c with
        | None => true
        | Some _ => false
        end
    end) outputs.

(** The type of some output differs from the type of the first. *)
Definition some_type_differs `{Env} (outputs : list operand) : bool :=
  match channels outputs with
  | [] => false
  | first :: _ =>
      existsb (fun c => py_ne (channel_type c) (channel_type first))
        (channels outputs)
  end.

(** Fewer than two outputs. *)
Definition too_few (outputs : list operand) : bool :=
  (List.length outputs <? 2)%nat.

(** Some task has a ParallelFor group in its chain. *)
Definition some_loop_ancestor (tasks : dict (list string))
    (group_name_to_group : dict TasksGroup) : bool :=
  existsb (fun '(_, parents) =>
    existsb (is_for_loop group_name_to_group) parents) tasks.

(** How often [group] occurs in the chains, all tasks together. *)
Definition times_ancestor (group : string) (tasks : dict (list string)) : nat :=
  List.length (filter (String.eqb group) (flat_map snd tasks)).

(** Some Condition group occurs more than once in the chains: in those of
    two tasks, or twice in one. *)
Definition some_shared_condition (tasks : dict (list string))
    (group_name_to_group : dict TasksGroup) : bool :=
  existsb (fun group =>
    is_condition group_name_to_group group
    && (1 <? times_ancestor group tasks)%nat) (flat_map snd tasks).

(** Some task has no Condition group in its chain. *)
Definition some_task_without_condition (tasks : dict (list string))
    (group_name_to_group : dict TasksGroup) : bool :=
  existsb (fun '(_, parents) =>
    negb (existsb (is_condition group_name_to_group) parents)) tasks.

(** How often a Condition group [group] occurs in the chain entries
    [seen]; other names count for nothing. *)
Definition condition_count (group_name_to_group : dict TasksGroup)
    (group : string) (seen : list string) : nat :=
  if is_condition group_name_to_group group
  then List.length (filter (String.eqb group) seen)
  else 0.

(** The invariant of the first loop of [_validate_no_shared_condition_parents]:
    after the chain entries [seen], the dictionary has one key for each
    Condition group among them, with one task per occurrence. *)
Definition counts_conditions (group_name_to_group : dict TasksGroup)
    (parent_condition_to_task : dict (list string)) (seen : list string)
  : Prop :=
  NoDup (map fst parent_condition_to_task) /\
  forall group,
    match dict_get parent_condition_to_task group with
    | Ok inner_tasks =>
        List.length inner_tasks
          = condition_count group_name_to_group group seen /\
        0 < List.length inner_tasks
    | Raise _ => condition_count group_name_to_group group seen = 0
    end.

(* ================================================================== *)
(** ** The loops of the extraction, by name *)

(** The channel that the loop of [extract_pipeline_channels_from_string]
    builds from the task and name groups of a match, the type read back
    from its type group and the answer of the classifier for that type,
    when the constructor accepts the name: no value. *)
Definition matched_channel (task n : string) (type : pyval) (parameter : bool)
  : PipelineChannel :=
  if parameter
  then ParameterChannel n type (or_None (Some task)) PNone
  else ArtifactChannel n type (or_None (Some task)).

(** The loop of [extract_pipeline_channels_from_any] over a list or tuple:
    [for item in payload: pipeline_channels += ...(item)]. *)
Definition extract_from_items `{Env}
  : list payload -> list PipelineChannel -> result (list PipelineChannel) :=
  fix over (items : list payload) (acc : list PipelineChannel) :=
    match items with
    | [] => Ok acc
    | item :: items' =>
        l <- extract_pipeline_channels_from_any item ;;
        over items' (acc ++ l)
    end.

(** The loop of [extract_pipeline_channels_from_any] over the items of a
    dictionary: the key, then the value. *)
Definition extract_from_dict_items `{Env}
  : list (payload * payload) -> list PipelineChannel ->
    result (list PipelineChannel) :=
  fix over (items : list (payload * payload)) (acc : list PipelineChannel) :=
    match items with
    | [] => Ok acc
    | (key, value) :: items' =>
        lk <- extract_pipeline_channels_from_any key ;;
        lv <- extract_pipeline_channels_from_any value ;;
        over items' ((acc ++ lk) ++ lv)
    end.

(** Induction on a payload, with the elements of a sequence and the keys
    and values of a dictionary as smaller payloads. *)
Fixpoint payload_nested_ind (P : payload -> Prop)
    (Hchannel : forall c, P (PayChannel c))
    (Hstr : forall s, P (PayStr s))
    (Hseq : forall items, Forall P items -> P (PaySeq items))
    (Hdict : forall items,
        Forall (fun kv => P (fst kv) /\ P (snd kv)) items ->
        P (PayDict items))
    (Hother : forall v, P (PayOther v))
    (p : payload) {struct p} : P p :=
  match p with
  | PayChannel c => Hchannel c
  | PayStr s => Hstr s
  | PaySeq items =>
      Hseq items
        ((fix all (l : list payload) : Forall P l :=
            match l with
            | [] => Forall_nil P
            | x :: l' =>
                Forall_cons x
                  (payload_nested_ind P Hchannel Hstr Hseq Hdict Hother x)
                  (all l')
            end) items)
  | PayDict items =>
      Hdict items
        ((fix all (l : list (payload * payload))
            : Forall (fun kv => P (fst kv) /\ P (snd kv)) l :=
            match l with
            | [] => Forall_nil _
            | kv :: l' =>
                Forall_cons kv
                  (conj
                     (payload_nested_ind P Hchannel Hstr Hseq Hdict Hother
                        (fst kv))
                     (payload_nested_ind P Hchannel Hstr Hseq Hdict Hother
                        (snd kv)))
                  (all l')
            end) items)
  | PayOther v => Hother v
  end.

(** The keys and values of a dictionary, in the order the loop meets
    them. *)
Definition keys_and_values (items : list (payload * payload)) : list payload :=
  flat_map (fun kv => [fst kv; snd kv]) items.

(** Two dictionaries of chains with the same tasks in the same order,
    each chain with the same names as often, in any order. *)
Definition chains_alike (tasks tasks' : dict (list string)) : Prop :=
  Forall2 (fun x y => fst x = fst y /\ Permutation (snd x) (snd y))
    tasks tasks'.

(** [s.replace(old, new)] for a non-empty [old]: the occurrences of [old],
    leftmost first and not overlapping, give way to [new].  Every step
    shortens the text, so [fuel] above its length is never used up. *)
Fixpoint replace_from (fuel : nat) (old new s : string) : string :=
  match fuel with
  | O => s
  | S fuel' =>
      match strip_prefix old s with
      | Some rest => (new ++ replace_from fuel' old new rest)%string
      | None =>
          match s with
          | EmptyString => EmptyString
          | String c s' => String c (replace_from fuel' old new s')
          end
      end
  end.

(** [s.replace(old, new)]; for an empty [old], [new] goes in front of every
    character and at the end. *)
Definition str_replace (old new s : string) : string :=
  match old with
  | EmptyString =>
      (fix between (s : string) : string :=
         match s with
         | EmptyString => new
         | String c s' => (new ++ String c (between s'))%string
         end) s
  | _ => replace_from (S (String.length s)) old new s
  end.

(** [samples/core/exit_handler/exit_handler.py]:
    [ir_file = __file__.replace('.py', '.yaml')] *)
Definition ir_file (file : string) : string :=
  str_replace ".py" ".yaml" file.

(** No dot. *)
Definition no_dot (c : ascii) : bool := negb (Ascii.eqb c "."%char).

(** No opening brace. *)
Definition no_brace (c : ascii) : bool := negb (Ascii.eqb c "{"%char).

(* ================================================================== *)
(** ** An environment to run the definitions *)

(** A hash without collisions: the text read as a number in base 256. *)
Fixpoint base256 (acc : Z) (s : string) : Z :=
  match s with
  | EmptyString => acc
  | String c s' => base256 (acc * 256 + Z.of_N (N_of_ascii c)) s'
  end.

(** One environment, for the examples: the classifier takes the primitive
    tags of the data model for parameter types and everything else for an
    artifact type; [json.loads] rejects its text, as it does for a bare
    tag such as [String]; the other functions are only called on
    dictionaries and numbers, which the examples do not use; the
    characters from 128 on are those of U+0080 to U+00FF, with their
    classes. *)
Definition sample_env : Env := {|
  is_parameter_type := fun t =>
    Returned
      match t with
      | PStr s =>
          existsb (String.eqb s)
            ["String"; "Integer"; "Float"; "Boolean"; "List"; "Dict"]
      | _ => false
      end;
  json_loads := fun _ => Returned None;
  json_dumps := fun _ => "{}";
  py_str := fun _ => "None";
  py_eq := fun _ _ => false;
  str_hash := base256 1;
  unicode_word := fun c =>
    existsb (fun n => (N_of_ascii c =? n)%N) [170; 178; 179; 181; 185; 186]%N
    || in_range 188 190 c || in_range 192 214 c
    || in_range 216 246 c || in_range 248 255 c;
  unicode_space := fun c =>
    existsb (fun n => (N_of_ascii c =? n)%N) [133; 160]%N
|}.

(* ================================================================== *)
(** * Properties *)

(** ** The constructors *)

Lemma PipelineChannel_init_valid `{Env} (name : string) (task : option string) :
  valid_name name = true -> PipelineChannel_init name task = Ok (or_None task).
Proof.
  intros Hv. unfold PipelineChannel_init. rewrite Hv. reflexivity.
Qed.

Lemma PipelineChannel_init_invalid `{Env} (name : string) (task : option string) :
  valid_name name = false -> PipelineChannel_init name task = Raise InvalidName.
Proof.
  intros Hv. unfold PipelineChannel_init. rewrite Hv. reflexivity.
Qed.

(** The stored task name is never the empty string. *)
Lemma or_None_not_empty (task : option string) : or_None task <> Some "".
Proof.
  destruct task as [t|]; unfold or_None; simpl; [|discriminate].
  destruct (t =? "") eqn:Ht; simpl; [discriminate|].
  intros Heq. injection Heq as ->. discriminate.
Qed.

Lemma or_None_empty : or_None (Some "") = None.
Proof. reflexivity. Qed.

Lemma task_field_or_None (task : string) :
  task_field (or_None (Some task)) = task.
Proof.
  unfold or_None. simpl. destruct (task =? "") eqn:Ht; simpl; [|reflexivity].
  apply String.eqb_eq in Ht. now subst.
Qed.

(** What the parameter constructor does, check by check. *)
Lemma PipelineParameterChannel_init_cases `{Env} (name : string)
    (ct : pyval) (task : option string) (value : pyval) :
  PipelineParameterChannel_init name ct task value =
  if truthy_opt task && truthy value then Raise ConflictingChannelSource
  else match is_parameter_type ct with
       | Raised exception => Raise (Propagated exception)
       | Returned false => Raise TypeMismatch
       | Returned true =>
           if valid_name name
           then Ok (ParameterChannel name ct (or_None task) value)
           else Raise InvalidName
       end.
Proof.
  unfold PipelineParameterChannel_init, PipelineChannel_init.
  destruct (truthy_opt task && truthy value); simpl; [reflexivity|].
  destruct (is_parameter_type ct) as [[|]|x]; simpl; try reflexivity.
  destruct (valid_name name); reflexivity.
Qed.

Lemma PipelineArtifactChannel_init_cases `{Env} (name : string)
    (ct : pyval) (task : option string) :
  PipelineArtifactChannel_init name ct task =
  match is_parameter_type ct with
  | Raised exception => Raise (Propagated exception)
  | Returned true => Raise TypeMismatch
  | Returned false =>
      if valid_name name
      then Ok (ArtifactChannel name ct (or_None task))
      else Raise InvalidName
  end.
Proof.
  unfold PipelineArtifactChannel_init, PipelineChannel_init.
  destruct (is_parameter_type ct) as [[|]|x]; simpl; try reflexivity.
  destruct (valid_name name); reflexivity.
Qed.

(** What the factory does: the classifier is called first, and once more
    by the constructor it picks. *)
Lemma create_pipeline_channel_cases `{Env} (name : string)
    (ct : pyval) (task : option string) (value : pyval) :
  create_pipeline_channel name ct task value =
  match is_parameter_type ct with
  | Raised exception => Raise (Propagated exception)
  | Returned true =>
      if truthy_opt task && truthy value then Raise ConflictingChannelSource
      else if valid_name name
           then Ok (ParameterChannel name ct (or_None task) value)
           else Raise InvalidName
  | Returned false =>
      if valid_name name
      then Ok (ArtifactChannel name ct (or_None task))
      else Raise InvalidName
  end.
Proof.
  unfold create_pipeline_channel.
  rewrite PipelineParameterChannel_init_cases, PipelineArtifactChannel_init_cases.
  destruct (is_parameter_type ct) as [[|]|x]; reflexivity.
Qed.

(** The examples of the naming grammar. *)
Example naming_grammar_examples (E : Env) :
  valid_name "a-b_c 1" = true /\ valid_name "Task1" = true /\
  valid_name "1task" = false /\ valid_name "task!" = false /\
  valid_name "" = false.
Proof. repeat split; reflexivity. Qed.

(** C3, at the failing input.  A task name that starts with a digit or
    holds a [!] fails the grammar, and the constructors and the factory
    build the channel all the same, with that task name stored: only [name]
    is matched.  (The factory fails only where the classifier itself
    raises.) *)
Theorem invalid_task_name_is_accepted (E : Env) :
  valid_name "1task" = false /\ valid_name "task!" = false /\
  PipelineChannel_init "x" (Some "1task") = Ok (Some "1task") /\
  PipelineChannel_init "x" (Some "task!") = Ok (Some "task!") /\
  forall ct : pyval,
    create_pipeline_channel "x" ct (Some "task!") PNone =
    (parameter <- call (is_parameter_type ct) ;;
     Ok (if parameter
         then ParameterChannel "x" ct (Some "task!") PNone
         else ArtifactChannel "x" ct (Some "task!"))).
Proof.
  repeat split; try reflexivity.
  intros ct. rewrite create_pipeline_channel_cases.
  destruct (is_parameter_type ct) as [[|]|x]; reflexivity.
Qed.

(** C4, counterexample.  With a type the classifier takes for an artifact
    type, a literal value does not make the factory fail: it returns the
    artifact channel. *)
Lemma create_artifact_with_literal_succeeds :
  exists c : PipelineChannel,
    is_parameter_channel c = false /\
    forall E : Env,
      is_parameter_type (PStr "Model") = Returned false ->
      create_pipeline_channel "y" (PStr "Model") None (PInt 1) = Ok c.
Proof.
  exists (ArtifactChannel "y" (PStr "Model") None). split; [reflexivity|].
  intros E Hm. rewrite create_pipeline_channel_cases, Hm. reflexivity.
Qed.

(** C4, as amended.  The factory dispatches on the classifier: a parameter
    type gives a parameter channel that carries the value, any other type
    an artifact channel, for which the value is dropped; an exception of
    the classifier is let through; otherwise the factory fails only on a
    task name together with a value (parameter types) or on the name, by
    the grammar with the interpreter's [\s], and never with
    [TypeMismatch]. *)
Theorem create_pipeline_channel_dispatch (E : Env) (name : string)
    (ct : pyval) (task : option string) (value : pyval) :
  create_pipeline_channel name ct task value =
  match is_parameter_type ct with
  | Raised exception => Raise (Propagated exception)
  | Returned true =>
      if truthy_opt task && truthy value then Raise ConflictingChannelSource
      else if valid_name name
           then Ok (ParameterChannel name ct (or_None task) value)
           else Raise InvalidName
  | Returned false =>
      if valid_name name
      then Ok (ArtifactChannel name ct (or_None task))
      else Raise InvalidName
  end
  /\ create_pipeline_channel name ct task value <> Raise TypeMismatch
  /\ (forall answer : bool,
        is_parameter_type ct = Returned answer ->
        forall exception,
          create_pipeline_channel name ct task value
            <> Raise (Propagated exception))
  /\ (is_parameter_type ct = Returned false ->
      create_pipeline_channel name ct task value =
      create_pipeline_channel name ct task PNone).
Proof.
  rewrite !create_pipeline_channel_cases.
  destruct (is_parameter_type ct) as [[|]|x] eqn:Hp.
  - split; [reflexivity|]. split; [|split; [|discriminate]].
    + destruct (truthy_opt task && truthy value); [discriminate|].
      destruct (valid_name name); discriminate.
    + intros answer _ exception.
      destruct (truthy_opt task && truthy value); [discriminate|].
      destruct (valid_name name); discriminate.
  - split; [reflexivity|]. split; [|split; [|reflexivity]].
    + destruct (valid_name name); discriminate.
    + intros answer _ exception. destruct (valid_name name); discriminate.
  - split; [reflexivity|]. split; [discriminate|]. split; [|discriminate].
    intros answer Habs; discriminate.
Qed.

(** C5, at the failing inputs.  With a task name and a value that is set
    but false ([0], the empty string, [False]) the parameter constructor
    raises no [ConflictingChannelSource]: for a parameter type and a valid
    name it returns a channel that holds both. *)
Theorem falsy_value_with_task_is_accepted (E : Env) (ct : pyval) :
  let built v :=
    match is_parameter_type ct with
    | Returned true => Ok (ParameterChannel "x" ct (Some "t") v)
    | Returned false => Raise TypeMismatch
    | Raised exception => Raise (Propagated exception)
    end in
  PipelineParameterChannel_init "x" ct (Some "t") (PInt 0) = built (PInt 0) /\
  PipelineParameterChannel_init "x" ct (Some "t") (PStr "") = built (PStr "") /\
  PipelineParameterChannel_init "x" ct (Some "t") (PBool false)
    = built (PBool false).
Proof.
  simpl. rewrite !PipelineParameterChannel_init_cases. simpl.
  destruct (is_parameter_type ct) as [[|]|x]; repeat split; reflexivity.
Qed.

(** A task name and a value that is true do conflict, whatever the type
    and the name. *)
Lemma truthy_value_with_task_conflicts `{Env} (name : string) (ct : pyval)
    (task : string) (value : pyval) :
  task <> "" -> truthy value = true ->
  PipelineParameterChannel_init name ct (Some task) value
    = Raise ConflictingChannelSource.
Proof.
  intros Ht Hv. rewrite PipelineParameterChannel_init_cases. simpl.
  destruct (task =? "") eqn:He; [apply String.eqb_eq in He; contradiction|].
  simpl. rewrite Hv. reflexivity.
Qed.

(** An empty task name and no task name are the same argument to each
    constructor. *)
Lemma empty_task_name_as_None `{Env} (name : string) (ct value : pyval) :
  PipelineParameterChannel_init name ct (Some "") value
    = PipelineParameterChannel_init name ct None value /\
  PipelineArtifactChannel_init name ct (Some "")
    = PipelineArtifactChannel_init name ct None /\
  create_pipeline_channel name ct (Some "") value
    = create_pipeline_channel name ct None value.
Proof.
  rewrite !create_pipeline_channel_cases.
  rewrite !PipelineParameterChannel_init_cases, !PipelineArtifactChannel_init_cases.
  repeat split; reflexivity.
Qed.

Lemma built_channel_fields `{Env} (n : string) (ct : pyval)
    (task : option string) (value : pyval) (c : PipelineChannel) :
  PipelineParameterChannel_init n ct task value = Ok c \/
  PipelineArtifactChannel_init n ct task = Ok c \/
  create_pipeline_channel n ct task value = Ok c ->
  name c = n /\ channel_type c = ct /\ task_name c = or_None task.
Proof.
  rewrite create_pipeline_channel_cases.
  rewrite !PipelineParameterChannel_init_cases, !PipelineArtifactChannel_init_cases.
  intros Hb.
  destruct (is_parameter_type ct) as [[|]|x],
    (truthy_opt task && truthy value), (valid_name n); simpl in Hb;
    repeat match goal with
           | H : _ \/ _ |- _ => destruct H
           | H : Raise _ = Ok _ |- _ => discriminate H
           | H : Ok _ = Ok _ |- _ => injection H as <-
           end; repeat split; reflexivity.
Qed.

(** C10.  A channel built by either constructor or by the factory never
    holds the empty string as its task name; built with the empty string
    for a task name, it holds none: its full name is its name, its
    placeholder has an empty task field, and the same call without a task
    name returns the same channel. *)
Theorem empty_task_name_is_absent (E : Env) (name : string) (ct : pyval)
    (task : option string) (value : pyval) (c : PipelineChannel) :
  PipelineParameterChannel_init name ct task value = Ok c \/
  PipelineArtifactChannel_init name ct task = Ok c \/
  create_pipeline_channel name ct task value = Ok c ->
  task_name c <> Some "" /\
  (task = Some "" ->
   task_name c = None /\
   full_name c = name /\
   str c = placeholder "" name (type_field ct) /\
   (PipelineParameterChannel_init name ct None value = Ok c \/
    PipelineArtifactChannel_init name ct None = Ok c \/
    create_pipeline_channel name ct None value = Ok c)).
Proof.
  intros Hb. destruct (built_channel_fields _ _ _ _ _ Hb) as (Hn & Ht & Hk).
  split; [rewrite Hk; apply or_None_not_empty|].
  intros ->. rewrite or_None_empty in Hk.
  repeat split.
  - exact Hk.
  - unfold full_name. rewrite Hk. exact Hn.
  - unfold str. rewrite Hk, Hn, Ht. reflexivity.
  - destruct (empty_task_name_as_None name ct value) as (Hp & Ha & Hc).
    rewrite <- Hp, <- Ha, <- Hc. exact Hb.
Qed.

Lemma empty_task_name_is_absent_witness :
  task_name (ParameterChannel "x" (PStr "String") None PNone) <> Some "" /\
  (Some "" = Some "" ->
   task_name (ParameterChannel "x" (PStr "String") None PNone) = None /\
   full_name (ParameterChannel "x" (PStr "String") None PNone) = "x" /\
   @str sample_env (ParameterChannel "x" (PStr "String") None PNone)
     = placeholder "" "x" (@type_field sample_env (PStr "String")) /\
   (@PipelineParameterChannel_init sample_env "x" (PStr "String") None PNone
      = Ok (ParameterChannel "x" (PStr "String") None PNone) \/
    @PipelineArtifactChannel_init sample_env "x" (PStr "String") None
      = Ok (ParameterChannel "x" (PStr "String") None PNone) \/
    @create_pipeline_channel sample_env "x" (PStr "String") None PNone
      = Ok (ParameterChannel "x" (PStr "String") None PNone))).
Proof.
  apply (empty_task_name_is_absent sample_env "x" (PStr "String") (Some "")
           PNone (ParameterChannel "x" (PStr "String") None PNone)).
  right. right. reflexivity.
Defined.

(** ** Equality and hashing *)

(** C2, counterexample.  Two channels with different placeholders, and
    [c1 == c2] is true all the same: the operator builds a condition and
    compares nothing. *)
Lemma eq_of_different_channels_is_true :
  exists c1 c2 : PipelineChannel,
    (forall E : Env, str c1 <> str c2) /\
    condition_truthy (channel_eq c1 (OperandChannel c2)) = true.
Proof.
  exists (ParameterChannel "a" (PStr "String") None PNone),
         (ParameterChannel "b" (PStr "String") None PNone).
  split; [intros E; discriminate | reflexivity].
Qed.

(** C2, as amended.  [c1 == c2] is the condition ['=='] of the two
    channels, whatever they are, and is true as an object; the hash of a
    channel is the hash of its placeholder, so equal placeholders give
    equal hashes, and a set takes two channels for the same element
    exactly when the hashes of their placeholders agree. *)
Theorem channel_identity_is_placeholder_hash (E : Env)
    (c1 c2 : PipelineChannel) :
  channel_eq c1 (OperandChannel c2)
    = {| operator := "=="; left_operand := OperandChannel c1;
         right_operand := OperandChannel c2 |} /\
  condition_truthy (channel_eq c1 (OperandChannel c2)) = true /\
  hash c1 = str_hash (str c1) /\
  (str c1 = str c2 -> hash c1 = hash c2) /\
  (same_element c1 c2 = true <-> str_hash (str c1) = str_hash (str c2)) /\
  (str c1 = str c2 -> set_add [c1] c2 = [c1]).
Proof.
  assert (Hs : same_element c1 c2 = true <->
               str_hash (str c1) = str_hash (str c2)).
  { unfold same_element, hash, pattern, condition_truthy.
    rewrite andb_true_r, Z.eqb_eq. split; intros Heq; symmetry; exact Heq. }
  repeat split; try reflexivity; try apply Hs.
  - unfold hash, pattern. now intros ->.
  - intros Heq. unfold set_add. simpl.
    assert (Hse : same_element c2 c1 = true).
    { unfold same_element, hash, pattern, condition_truthy.
      rewrite Heq, Z.eqb_refl. reflexivity. }
    rewrite Hse. reflexivity.
Qed.

(** ** Strings *)

Lemma append_empty_r (s : string) : (s ++ "")%string = s.
Proof. induction s as [|c s IH]; simpl; [reflexivity | now rewrite IH]. Qed.

Lemma append_assoc (a b c : string) :
  ((a ++ b) ++ c = a ++ b ++ c)%string.
Proof. induction a as [|x a IH]; simpl; [reflexivity | now rewrite IH]. Qed.

Lemma length_append (a b : string) :
  String.length (a ++ b)%string = String.length a + String.length b.
Proof. induction a as [|x a IH]; simpl; [reflexivity | now rewrite IH]. Qed.

Lemma append_inv_head (p x y : string) :
  (p ++ x = p ++ y)%string -> x = y.
Proof.
  induction p as [|c p IH]; simpl; intros Heq; [exact Heq|].
  injection Heq as Heq. now apply IH.
Qed.

Lemma append_inv_tail (x y s : string) :
  (x ++ s = y ++ s)%string -> x = y.
Proof.
  revert y. induction x as [|c x IH]; intros [|d y] Heq; simpl in Heq.
  - reflexivity.
  - apply (f_equal String.length) in Heq. simpl in Heq.
    rewrite length_append in Heq. lia.
  - apply (f_equal String.length) in Heq. simpl in Heq.
    rewrite length_append in Heq. lia.
  - injection Heq as -> Heq. f_equal. now apply IH.
Qed.

(** ** Character classes *)

(** The classes are built from tests on the character; a statement on how
    they include one another is settled by the cases of these tests. *)
Ltac by_cases_on_tests c :=
  unfold name_tail_char, field_char, type_char, is_word;
  destruct (is_letter c), (is_digit c), (is_space c),
    (N_of_ascii c =? 95)%N, (is_dash c), (beyond_ascii c && unicode_word c);
  simpl; intros; rewrite ?orb_true_r;
  try reflexivity; try discriminate; auto.

Lemma name_tail_is_field_char `{Env} (c : ascii) :
  name_tail_char c = true -> field_char c = true.
Proof. by_cases_on_tests c. Qed.

Lemma letter_is_field_char `{Env} (c : ascii) :
  is_letter c = true -> field_char c = true.
Proof. by_cases_on_tests c. Qed.

Lemma field_char_is_type_char `{Env} (c : ascii) :
  field_char c = true -> type_char c = true.
Proof. by_cases_on_tests c. Qed.

(** Whatever the Unicode tables, no class holds the [;], the [=] or the
    brace that a field is closed by: they are below 128. *)
Lemma field_char_not_semicolon `{Env} (c : ascii) :
  field_char c = true -> c <> ";"%char.
Proof. intros Hc ->. vm_compute in Hc. discriminate. Qed.

Lemma type_char_not_semicolon `{Env} (c : ascii) :
  type_char c = true -> c <> ";"%char.
Proof. intros Hc ->. vm_compute in Hc. discriminate. Qed.

Lemma all_chars_weaken (p q : ascii -> bool) (s : string) :
  (forall c, p c = true -> q c = true) ->
  all_chars p s = true -> all_chars q s = true.
Proof.
  intros Hpq. induction s as [|c s IH]; simpl; [reflexivity|].
  rewrite !andb_true_iff. intros [Hc Hs]. split; auto.
Qed.

Lemma all_chars_app (p : ascii -> bool) (a b : string) :
  all_chars p (a ++ b) = all_chars p a && all_chars p b.
Proof.
  induction a as [|c a IH]; simpl; [reflexivity|].
  now rewrite IH, andb_assoc.
Qed.

(** A name of the grammar is a non-empty run of the field class. *)
Lemma valid_name_field `{Env} (n : string) :
  valid_name n = true -> all_chars field_char n = true /\ n <> "".
Proof.
  destruct n as [|c rest]; simpl; [discriminate|].
  rewrite andb_true_iff. intros [Hc Hr]. split; [|discriminate].
  rewrite (letter_is_field_char _ Hc). simpl.
  exact (all_chars_weaken _ _ _ name_tail_is_field_char Hr).
Qed.

(** ** The matcher *)

Lemma strip_prefix_app (p s : string) : strip_prefix p (p ++ s) = Some s.
Proof.
  induction p as [|c p IH]; simpl; [now destruct s|].
  now rewrite Ascii.eqb_refl.
Qed.

Lemma strip_prefix_sound (p s r : string) :
  strip_prefix p s = Some r -> s = (p ++ r)%string.
Proof.
  revert s. induction p as [|c p IH]; intros s; simpl.
  - destruct s; intros Heq; now injection Heq as <-.
  - destruct s as [|d s]; [discriminate|].
    destruct (Ascii.eqb c d) eqn:Hcd; [|discriminate].
    apply Ascii.eqb_eq in Hcd. subst d. intros Heq. f_equal. now apply IH.
Qed.

Lemma span_app (p : ascii -> bool) (run rest : string) :
  all_chars p run = true -> stops p rest ->
  span p (run ++ rest) = (run, rest).
Proof.
  intros Hrun Hrest. induction run as [|c run IH]; simpl in *.
  - destruct rest as [|d rest]; [reflexivity|]. simpl in Hrest. simpl.
    now rewrite Hrest.
  - apply andb_true_iff in Hrun as [Hc Hrun]. rewrite Hc, (IH Hrun).
    reflexivity.
Qed.

Lemma span_sound (p : ascii -> bool) (s run rest : string) :
  span p s = (run, rest) ->
  s = (run ++ rest)%string /\ all_chars p run = true /\ stops p rest.
Proof.
  revert run rest. induction s as [|c s IH]; intros run rest; simpl.
  - intros Heq. injection Heq as <- <-. repeat split.
  - destruct (p c) eqn:Hc.
    + destruct (span p s) as [run' rest'] eqn:Hs.
      intros Heq. injection Heq as <- <-.
      destruct (IH _ _ eq_refl) as (-> & Hrun & Hrest).
      simpl. rewrite Hc. repeat split; assumption.
    + intros Heq. injection Heq as <- <-. repeat split. exact Hc.
Qed.

(** A placeholder whose fields are in their classes is matched, with its
    fields for groups. *)
Lemma match_placeholder_placeholder `{Env} (task n type rest : string) :
  all_chars field_char task = true ->
  all_chars field_char n = true -> n <> "" ->
  all_chars type_char type = true ->
  match_placeholder (placeholder task n type ++ rest)
    = Some ((task, n, type), rest).
Proof.
  intros Htask Hn Hne Htype. unfold match_placeholder, placeholder.
  rewrite !append_assoc, strip_prefix_app.
  rewrite (span_app field_char task _ Htask) by reflexivity.
  rewrite strip_prefix_app.
  rewrite (span_app field_char n _ Hn) by reflexivity.
  destruct n as [|c n']; [contradiction|].
  rewrite strip_prefix_app.
  rewrite (span_app type_char type _ Htype) by reflexivity.
  rewrite strip_prefix_app. reflexivity.
Qed.

(** What a match says of the text: it starts with the placeholder of the
    three groups, which are in their classes. *)
Lemma match_placeholder_sound `{Env} (s task n type rest : string) :
  match_placeholder s = Some ((task, n, type), rest) ->
  s = (placeholder task n type ++ rest)%string /\
  all_chars field_char task = true /\
  all_chars field_char n = true /\ n <> "" /\
  all_chars type_char type = true.
Proof.
  unfold match_placeholder, placeholder.
  destruct (strip_prefix _ s) as [s1|] eqn:H1; [|discriminate].
  destruct (span field_char s1) as [task' s2] eqn:H2.
  destruct (strip_prefix _ s2) as [s3|] eqn:H3; [|discriminate].
  destruct (span field_char s3) as [n' s4] eqn:H4.
  destruct n' as [|c n']; [discriminate|].
  destruct (strip_prefix _ s4) as [s5|] eqn:H5; [|discriminate].
  destruct (span type_char s5) as [type' s6] eqn:H6.
  destruct (strip_prefix _ s6) as [rest'|] eqn:H7; [|discriminate].
  intros Heq. injection Heq as <- <- <- <-.
  apply strip_prefix_sound in H1, H3, H5, H7.
  apply span_sound in H2 as (E2 & A2 & _), H4 as (E4 & A4 & _),
    H6 as (E6 & A6 & _).
  subst. rewrite !append_assoc. repeat split; try assumption. discriminate.
Qed.

(** The matcher finds the one way, if there is one, to read a placeholder
    at the start of the text. *)
Lemma match_placeholder_spec `{Env} (s task n type rest : string) :
  match_placeholder s = Some ((task, n, type), rest) <->
  s = (placeholder task n type ++ rest)%string /\
  all_chars field_char task = true /\
  all_chars field_char n = true /\ n <> "" /\
  all_chars type_char type = true.
Proof.
  split; [apply match_placeholder_sound|].
  intros (-> & Ht & Hn & Hne & Hty). now apply match_placeholder_placeholder.
Qed.

(** A match uses up at least one character. *)
Lemma match_placeholder_shorter `{Env} (s rest : string)
    (groups : string * string * string) :
  match_placeholder s = Some (groups, rest) ->
  String.length rest < String.length s.
Proof.
  destruct groups as [[task n] type]. intros Hm.
  apply match_placeholder_sound in Hm as (-> & _).
  unfold placeholder. rewrite !length_append. simpl. lia.
Qed.

(** [findall] does not depend on its fuel once it is above the length of
    the text: the scan always runs to the end. *)
Lemma findall_from_fuel `{Env} (f1 f2 : nat) (s : string) :
  String.length s < f1 -> String.length s < f2 ->
  findall_from f1 s = findall_from f2 s.
Proof.
  revert f2 s. induction f1 as [|f1 IH]; intros f2 s H1 H2; [lia|].
  destruct f2 as [|f2]; [lia|]. simpl.
  destruct (match_placeholder s) as [[groups rest]|] eqn:Hm.
  - apply match_placeholder_shorter in Hm. f_equal. apply IH; lia.
  - destruct s as [|c s]; [reflexivity|]. simpl in H1, H2. apply IH; lia.
Qed.

Lemma findall_from_S `{Env} (fuel : nat) (s : string) :
  findall_from (S fuel) s =
  match match_placeholder s with
  | Some (groups, rest) => groups :: findall_from fuel rest
  | None =>
      match s with
      | EmptyString => []
      | String _ s' => findall_from fuel s'
      end
  end.
Proof. reflexivity. Qed.

Lemma findall_match `{Env} (s rest : string) (groups : string * string * string) :
  match_placeholder s = Some (groups, rest) ->
  findall s = groups :: findall rest.
Proof.
  intros Hm. pose proof (match_placeholder_shorter _ _ _ Hm) as Hlt.
  unfold findall. rewrite findall_from_S, Hm. f_equal.
  apply findall_from_fuel; lia.
Qed.

Lemma findall_no_match `{Env} (c : ascii) (s : string) :
  match_placeholder (String c s) = None ->
  findall (String c s) = findall s.
Proof.
  intros Hm. unfold findall. rewrite findall_from_S, Hm.
  apply findall_from_fuel; simpl; lia.
Qed.

Lemma findall_empty `{Env} : findall "" = [].
Proof. reflexivity. Qed.

(** [findall] of one placeholder is its three fields. *)
Lemma findall_placeholder `{Env} (task n type : string) :
  all_chars field_char task = true ->
  all_chars field_char n = true -> n <> "" ->
  all_chars type_char type = true ->
  findall (placeholder task n type) = [(task, n, type)].
Proof.
  intros Htask Hn Hne Htype.
  rewrite <- (append_empty_r (placeholder task n type)).
  rewrite (findall_match _ "" (task, n, type)); [reflexivity|].
  now apply match_placeholder_placeholder.
Qed.

(** ** The codec *)

(** Two texts that split at a [;] after a run of the field class split at
    the same place. *)
Lemma field_split `{Env} (a a' r r' : string) :
  all_chars field_char a = true -> all_chars field_char a' = true ->
  (a ++ String ";" r = a' ++ String ";" r')%string -> a = a' /\ r = r'.
Proof.
  revert a'. induction a as [|c a IH]; intros [|c' a'] Ha Ha' Heq;
    simpl in *.
  - injection Heq as ->. split; reflexivity.
  - injection Heq as <- _. apply andb_true_iff in Ha' as [Hc _].
    now apply field_char_not_semicolon in Hc.
  - injection Heq as -> _. apply andb_true_iff in Ha as [Hc _].
    now apply field_char_not_semicolon in Hc.
  - injection Heq as -> Heq.
    apply andb_true_iff in Ha as [_ Ha], Ha' as [_ Ha'].
    destruct (IH a' Ha Ha' Heq) as [-> ->]. split; reflexivity.
Qed.

(** The placeholder is injective on fields that are in the field class. *)
Lemma placeholder_inj `{Env} (task n type task' n' type' : string) :
  all_chars field_char task = true -> all_chars field_char n = true ->
  all_chars field_char task' = true -> all_chars field_char n' = true ->
  placeholder task n type = placeholder task' n' type' ->
  task = task' /\ n = n' /\ type = type'.
Proof.
  intros Ht Hn Ht' Hn' Heq. unfold placeholder in Heq.
  apply append_inv_head in Heq.
  apply (field_split task task') in Heq as [-> Heq]; try assumption.
  apply (append_inv_head "name=") in Heq.
  apply (field_split n n') in Heq as [-> Heq]; try assumption.
  apply (append_inv_head "type=") in Heq.
  apply append_inv_tail in Heq. subst. repeat split.
Qed.

Lemma task_field_chars `{Env} (task : option string) :
  (forall t, task = Some t -> valid_name t = true) ->
  all_chars field_char (task_field task) = true.
Proof.
  destruct task as [t|]; simpl; intros Hv; [|reflexivity].
  now apply valid_name_field, Hv.
Qed.

Lemma task_field_inj `{Env} (task task' : option string) :
  (forall t, task = Some t -> valid_name t = true) ->
  (forall t, task' = Some t -> valid_name t = true) ->
  task_field task = task_field task' -> task = task'.
Proof.
  destruct task as [t|], task' as [t'|]; simpl; intros Hv Hv' Heq.
  - now subst.
  - subst t. now specialize (Hv "" eq_refl).
  - subst t'. now specialize (Hv' "" eq_refl).
  - reflexivity.
Qed.

(** The type field of a string is the string. *)
Lemma type_field_PStr `{Env} (s : string) : type_field (PStr s) = s.
Proof.
  unfold type_field. simpl. destruct (s =? "") eqn:Hs; simpl; [|reflexivity].
  apply String.eqb_eq in Hs. now subst.
Qed.

(** A type field that [json.loads] rejects is read back as itself. *)
Lemma loaded_type_rejected `{Env} (type : string) :
  json_loads type = Returned None -> loaded_type type = Ok (PStr type).
Proof.
  intros Hl. unfold loaded_type. rewrite Hl. reflexivity.
Qed.

(** What [loaded_type] ends in, by what [json.loads] ends in. *)
Lemma loaded_type_cases `{Env} (type : string) :
  loaded_type type =
  match json_loads type with
  | Returned (Some v) => Ok v
  | Returned None => Ok (PStr type)
  | Raised exception => Raise (Propagated exception)
  end.
Proof.
  unfold loaded_type. destruct (json_loads type) as [[v|]|x]; reflexivity.
Qed.

(** The channel of a match: [json.loads] on the type group, the classifier
    on the type read back, then the constructor, which here can fail on
    the name only. *)
Lemma channel_of_match_cases `{Env} (task n type : string) :
  channel_of_match (task, n, type) =
  (channel_type <- loaded_type type ;;
   parameter <- call (is_parameter_type channel_type) ;;
   if valid_name n
   then Ok (matched_channel task n channel_type parameter)
   else Raise InvalidName).
Proof.
  unfold channel_of_match, matched_channel.
  destruct (loaded_type type) as [read|e]; cbn [bind]; [|reflexivity].
  rewrite PipelineParameterChannel_init_cases, PipelineArtifactChannel_init_cases.
  destruct (is_parameter_type read) as [[|]|x]; cbn [call bind];
    rewrite ?andb_false_r; try reflexivity.
Qed.

(** The task name of a channel of the grammar is the one stored for its
    task field. *)
Lemma or_None_task_field `{Env} (task : option string) :
  (forall t, task = Some t -> valid_name t = true) ->
  or_None (Some (task_field task)) = task.
Proof.
  intros Hv. destruct task as [t|]; [|reflexivity].
  unfold or_None. simpl.
  destruct (valid_name_field t (Hv t eq_refl)) as [_ Hte].
  destruct (t =? "") eqn:He; [|reflexivity].
  apply String.eqb_eq in He. contradiction.
Qed.

(** Extraction from the placeholder of a channel of the grammar whose type
    field is in the class of the type field. *)
Lemma extract_from_placeholder `{Env} (c : PipelineChannel) :
  valid_name (name c) = true ->
  (forall t, task_name c = Some t -> valid_name t = true) ->
  all_chars type_char (type_field (channel_type c)) = true ->
  extract_pipeline_channels_from_string (str c) =
  (read <- loaded_type (type_field (channel_type c)) ;;
   parameter <- call (is_parameter_type read) ;;
   Ok [if parameter
       then ParameterChannel (name c) read (task_name c) PNone
       else ArtifactChannel (name c) read (task_name c)]).
Proof.
  intros Hn Ht Hty.
  destruct (valid_name_field _ Hn) as [Hnf Hne].
  pose proof (task_field_chars _ Ht) as Htf.
  unfold extract_pipeline_channels_from_string, str.
  rewrite findall_placeholder by assumption.
  cbn [add_matches]. rewrite channel_of_match_cases, Hn.
  unfold matched_channel. rewrite (or_None_task_field _ Ht).
  destruct (loaded_type (type_field (channel_type c))) as [read|e];
    cbn [bind]; [|reflexivity].
  destruct (is_parameter_type read) as [[|]|x]; reflexivity.
Qed.

(** C1, counterexample.  An artifact channel of a task, as the factory
    builds it, with a type tag that holds a dot and an [@]: neither is in
    the class of the type field, the placeholder is not matched, and
    nothing is extracted from it. *)
Lemma round_trip_fails_outside_type_class :
  exists c : PipelineChannel,
    forall E : Env,
      valid_name (name c) = true /\
      (forall t, task_name c = Some t -> valid_name t = true) /\
      (is_parameter_type (channel_type c) = Returned false ->
       create_pipeline_channel (name c) (channel_type c) (task_name c) PNone
       = Ok c) /\
      str c = "{{channel:task=train;name=model;type=system.Model@0.0.1;}}" /\
      extract_pipeline_channels_from_string (str c) = Ok [].
Proof.
  exists (ArtifactChannel "model" (PStr "system.Model@0.0.1") (Some "train")).
  intros E. split; [reflexivity|]. split; [|split; [|split]].
  - intros t Ht. injection Ht as <-. reflexivity.
  - intros Hp. rewrite create_pipeline_channel_cases. simpl in Hp |- *.
    rewrite Hp. reflexivity.
  - reflexivity.
  - reflexivity.
Qed.

(** C1, as amended.  Take a channel whose name, and task name if it has
    one, are in the naming grammar and whose type field is made of
    characters of the placeholder's type class.  Extraction from its
    placeholder calls [json.loads] on the type field (the field itself, as
    a string, is kept where that fails with a [JSONDecodeError]) and the
    classifier on the type read back; another exception of [json.loads],
    or one of the classifier, is let through; otherwise extraction returns
    exactly one channel, with the same name and task name and with the type
    read back, a parameter channel or an artifact channel by the
    classifier.  The placeholder of that channel is the one it was
    extracted from exactly when the type read back has the same type field
    again, as it has whenever [json.loads] rejects the field.  And a
    channel of the grammar with the same placeholder has the same task
    name, name and type field. *)
Theorem placeholder_round_trip (E : Env) (c : PipelineChannel) :
  valid_name (name c) = true ->
  (forall t, task_name c = Some t -> valid_name t = true) ->
  all_chars type_char (type_field (channel_type c)) = true ->
  extract_pipeline_channels_from_string (str c) =
    (read <- loaded_type (type_field (channel_type c)) ;;
     parameter <- call (is_parameter_type read) ;;
     Ok [if parameter
         then ParameterChannel (name c) read (task_name c) PNone
         else ArtifactChannel (name c) read (task_name c)]) /\
  (forall l,
     extract_pipeline_channels_from_string (str c) = Ok l ->
     exists c' read,
       l = [c'] /\
       loaded_type (type_field (channel_type c)) = Ok read /\
       is_parameter_type read = Returned (is_parameter_channel c') /\
       name c' = name c /\ task_name c' = task_name c /\
       channel_type c' = read /\
       (str c' = str c <->
        type_field read = type_field (channel_type c))) /\
  (forall parameter,
     json_loads (type_field (channel_type c)) = Returned None ->
     is_parameter_type (PStr (type_field (channel_type c)))
       = Returned parameter ->
     exists c',
       extract_pipeline_channels_from_string (str c) = Ok [c'] /\
       str c' = str c) /\
  (forall d,
     valid_name (name d) = true ->
     (forall t, task_name d = Some t -> valid_name t = true) ->
     str d = str c ->
     task_name d = task_name c /\ name d = name c /\
     type_field (channel_type d) = type_field (channel_type c)).
Proof.
  intros Hn Ht Hty.
  destruct (valid_name_field _ Hn) as [Hnf Hne].
  pose proof (task_field_chars _ Ht) as Htf.
  pose proof (extract_from_placeholder c Hn Ht Hty) as Hex.
  split; [exact Hex|]. split; [|split].
  - intros l Hl. rewrite Hex in Hl.
    destruct (loaded_type (type_field (channel_type c))) as [read|e];
      cbn [bind] in Hl; [|discriminate].
    destruct (is_parameter_type read) as [p|x] eqn:Hp; cbn [call bind] in Hl;
      [|discriminate].
    injection Hl as <-.
    exists (if p then ParameterChannel (name c) read (task_name c) PNone
            else ArtifactChannel (name c) read (task_name c)), read.
    assert (Hiff : forall c', name c' = name c -> task_name c' = task_name c ->
                   channel_type c' = read ->
                   (str c' = str c <->
                    type_field read = type_field (channel_type c))).
    { intros c' Hn' Hk' Hty'. unfold str. rewrite Hn', Hk', Hty'. split.
      - intros Heq. now apply placeholder_inj in Heq as (_ & _ & Heq).
      - now intros ->. }
    destruct p; repeat split; try reflexivity; try exact Hp;
      try apply Hiff; try reflexivity.
  - intros parameter Hrej Hp. rewrite Hex, (loaded_type_rejected _ Hrej).
    cbn [bind]. rewrite Hp. cbn [call bind].
    eexists. split; [reflexivity|].
    unfold str. destruct parameter; cbn [name task_name channel_type];
      rewrite type_field_PStr; reflexivity.
  - intros d Hdn Hdt Heq.
    destruct (valid_name_field _ Hdn) as [Hdnf _].
    pose proof (task_field_chars _ Hdt) as Hdtf.
    unfold str in Heq.
    apply placeholder_inj in Heq as (Ha & Hb & Hc); try assumption.
    repeat split; try assumption.
    now apply task_field_inj.
Qed.

Lemma placeholder_round_trip_witness :
  exists c',
    @extract_pipeline_channels_from_string sample_env
      (@str sample_env
         (ParameterChannel "msg" (PStr "String") (Some "producer") PNone))
      = Ok [c'] /\
    @str sample_env c'
      = @str sample_env
          (ParameterChannel "msg" (PStr "String") (Some "producer") PNone).
Proof.
  destruct (placeholder_round_trip sample_env
              (ParameterChannel "msg" (PStr "String") (Some "producer") PNone))
    as (_ & _ & Hback & _).
  - reflexivity.
  - intros t Ht. injection Ht as <-. reflexivity.
  - reflexivity.
  - apply (Hback true); reflexivity.
Defined.

(** ** Sets and extraction *)

Lemma set_add_distinct `{Env} (s : list PipelineChannel) (c : PipelineChannel) :
  distinct_hashes s -> distinct_hashes (set_add s c).
Proof.
  unfold distinct_hashes, set_add. intros Hs.
  destruct (existsb (same_element c) s) eqn:Hex; [exact Hs|].
  rewrite map_app. simpl.
  apply NoDup_app; [exact Hs | constructor; [intros [] | constructor] |].
  intros h Hin [Hh | []]. subst h.
  apply in_map_iff in Hin as (d & Hd & Hin).
  assert (Hse : same_element c d = true).
  { unfold same_element, condition_truthy. rewrite Hd, Z.eqb_refl.
    reflexivity. }
  assert (Htrue : existsb (same_element c) s = true).
  { apply existsb_exists. exists d. split; assumption. }
  congruence.
Qed.

Lemma fold_set_add_distinct `{Env} (l s : list PipelineChannel) :
  distinct_hashes s -> distinct_hashes (fold_left set_add l s).
Proof.
  revert s. induction l as [|c l IH]; intros s Hs; simpl; [exact Hs|].
  apply IH, set_add_distinct, Hs.
Qed.

Lemma list_set_distinct `{Env} (l : list PipelineChannel) :
  distinct_hashes (list_set l).
Proof. apply fold_set_add_distinct. constructor. Qed.

Lemma add_matches_distinct `{Env} (matches : list (string * string * string))
    (s l : list PipelineChannel) :
  distinct_hashes s -> add_matches matches s = Ok l -> distinct_hashes l.
Proof.
  revert s. induction matches as [|m matches IH]; intros s Hs; simpl.
  - intros Heq. injection Heq as <-. exact Hs.
  - destruct (channel_of_match m) as [c|e]; simpl; [|discriminate].
    apply IH, set_add_distinct, Hs.
Qed.

(** Different hashes, different placeholders. *)
Lemma distinct_hashes_placeholders `{Env} (l : list PipelineChannel) :
  distinct_hashes l -> NoDup (map str l).
Proof.
  unfold distinct_hashes, hash, pattern. intros Hl.
  rewrite <- (map_map str str_hash) in Hl.
  exact (NoDup_map_inv _ _ Hl).
Qed.

Lemma extract_from_any_distinct `{Env} (p : payload) (l : list PipelineChannel) :
  extract_pipeline_channels_from_any p = Ok l -> distinct_hashes l.
Proof.
  destruct p as [c|s|items|items|v]; simpl.
  - intros Heq. injection Heq as <-. repeat constructor. intros [].
  - destruct (s =? ""); [intros Heq; injection Heq as <-; constructor|].
    destruct (extract_pipeline_channels_from_string s) as [l'|e]; simpl;
      [|discriminate].
    intros Heq. injection Heq as <-. apply list_set_distinct.
  - destruct items as [|item items];
      [intros Heq; injection Heq as <-; constructor|].
    match goal with
    | |- bind ?r _ = _ -> _ => destruct r as [l'|e]; simpl; [|discriminate]
    end.
    intros Heq. injection Heq as <-. apply list_set_distinct.
  - destruct items as [|item items];
      [intros Heq; injection Heq as <-; constructor|].
    match goal with
    | |- bind ?r _ = _ -> _ => destruct r as [l'|e]; simpl; [|discriminate]
    end.
    intros Heq. injection Heq as <-. apply list_set_distinct.
  - destruct (negb (truthy v)); intros Heq; injection Heq as <-; constructor.
Qed.

(** C9.  The channels that extraction returns, from a string or from any
    payload, have pairwise different placeholders. *)
Theorem extraction_has_no_duplicates (E : Env) (l : list PipelineChannel) :
  (exists s, extract_pipeline_channels_from_string s = Ok l) \/
  (exists p, extract_pipeline_channels_from_any p = Ok l) ->
  NoDup (map str l).
Proof.
  intros [[s Hs] | [p Hp]]; apply distinct_hashes_placeholders.
  - unfold extract_pipeline_channels_from_string in Hs.
    apply (add_matches_distinct (findall s) [] l); [constructor | exact Hs].
  - exact (extract_from_any_distinct p l Hp).
Qed.

Lemma extraction_has_no_duplicates_witness :
  NoDup (map (@str sample_env)
           [ParameterChannel "msg" (PStr "String") (Some "producer") PNone]).
Proof.
  apply (extraction_has_no_duplicates sample_env).
  right.
  exists (PaySeq
            [PayStr "echo {{channel:task=producer;name=msg;type=String;}}";
             PayChannel
               (ParameterChannel "msg" (PStr "String") (Some "producer") PNone);
             PayDict
               [(PayStr "{{channel:task=producer;name=msg;type=String;}}",
                 PayStr "{{channel:task=producer;name=msg;type=String;}}")]]).
  vm_compute. reflexivity.
Defined.

(** ** OneOf: the checks of the constructor *)

Lemma py_ne_str_refl `{Env} (s : string) : py_ne (PStr s) (PStr s) = false.
Proof. simpl. now rewrite String.eqb_refl. Qed.

(** No output at all: the first output is asked for before the outputs are
    counted. *)
Example OneOf_of_nothing (E : Env) : OneOf_init [] = Raise IndexError.
Proof. reflexivity. Qed.

(** C7, counterexample.  One output, a channel, that no task produces: the
    constructor fails on the operand, before it counts the outputs. *)
Lemma single_pipeline_parameter_is_invalid_operand :
  exists outputs : list operand,
    List.length outputs < 2 /\ constants outputs = [] /\
    forall E : Env, OneOf_init outputs = Raise InvalidOperand.
Proof.
  exists [OperandChannel (ParameterChannel "x" (PStr "String") None PNone)].
  repeat split. simpl. lia.
Qed.

(** C7, as amended.  One output, a channel that a task produces (and whose
    type is equal to itself): the constructor fails with
    [ArityViolation]. *)
Theorem single_task_output_is_arity_violation (E : Env) (c : PipelineChannel) :
  task_name c <> None ->
  py_ne (channel_type c) (channel_type c) = false ->
  OneOf_init [OperandChannel c] = Raise ArityViolation.
Proof.
  intros Ht Hne. unfold OneOf_init, _validate_tuple. simpl.
  unfold pipeline_parameters. simpl.
  destruct (task_name c) as [t|]; [|contradiction]. simpl.
  rewrite Hne. reflexivity.
Qed.

Lemma single_task_output_is_arity_violation_witness :
  @OneOf_init sample_env
    [OperandChannel (ParameterChannel "out" (PStr "String") (Some "t1") PNone)]
  = Raise ArityViolation.
Proof.
  apply (single_task_output_is_arity_violation sample_env
           (ParameterChannel "out" (PStr "String") (Some "t1") PNone)).
  - discriminate.
  - reflexivity.
Defined.

(** ** OneOf: the topology checks *)

(** A loop whose body fails in one way only, on the elements [bad]. *)
Lemma for_each_decide {A : Type} (body : A -> result unit) (bad : A -> bool)
    (e : ErrorKind) (l : list A) :
  (forall x, In x l -> body x = if bad x then Raise e else Ok tt) ->
  for_each body l = if existsb bad l then Raise e else Ok tt.
Proof.
  induction l as [|x l IH]; intros Hbody; simpl; [reflexivity|].
  rewrite (Hbody x (or_introl eq_refl)).
  destruct (bad x); simpl; [reflexivity|].
  apply IH. intros y Hy. apply Hbody. now right.
Qed.

Lemma resolvable_In (G : dict TasksGroup) (tasks : dict (list string))
    (task : string) (parents : list string) (parent : string) :
  resolvable G tasks = true ->
  In (task, parents) tasks -> In parent parents ->
  exists k, kind_of G parent = Some k.
Proof.
  unfold resolvable. rewrite forallb_forall. intros Hr Ht Hp.
  specialize (Hr _ Ht). simpl in Hr. rewrite forallb_forall in Hr.
  specialize (Hr _ Hp). destruct (kind_of G parent) as [k|]; [|discriminate].
  now exists k.
Qed.

(** The lookup of a group and the test of its kind. *)
Lemma lookup_and_test (G : dict TasksGroup) (parent : string)
    (kind : TasksGroupType) (e : ErrorKind) (k : TasksGroupType) :
  kind_of G parent = Some k ->
  (group <- dict_get G parent ;;
   raise_if (TasksGroupType_eqb (group_type group) kind) e)
  = if TasksGroupType_eqb k kind then Raise e else Ok tt.
Proof.
  unfold kind_of. destruct (dict_get G parent) as [g|]; [|discriminate].
  intros Hk. injection Hk as <-. reflexivity.
Qed.

(** The check for loops fails exactly when some chain holds a ParallelFor
    group. *)
Lemma validate_no_parallel_for_parents_decides (tasks : dict (list string))
    (G : dict TasksGroup) :
  resolvable G tasks = true ->
  _validate_no_parallel_for_parents tasks G
  = if some_loop_ancestor tasks G then Raise LoopNotAllowed else Ok tt.
Proof.
  intros Hr. unfold _validate_no_parallel_for_parents, some_loop_ancestor.
  apply for_each_decide. intros [task parents] Ht.
  apply for_each_decide. intros parent Hp.
  destruct (resolvable_In _ _ _ _ _ Hr Ht Hp) as [k Hk].
  rewrite (lookup_and_test _ _ _ _ _ Hk). unfold is_for_loop. rewrite Hk.
  now destruct k.
Qed.

Lemma lookup_all_resolved (G : dict TasksGroup) (parents : list string) :
  (forall p, In p parents -> exists k, kind_of G p = Some k) ->
  exists gs, lookup_all G parents = Ok gs /\
             List.length gs = List.length parents.
Proof.
  induction parents as [|p parents IH]; intros Hr; simpl.
  - now exists [].
  - destruct (Hr p (or_introl eq_refl)) as [k Hk]. unfold kind_of in Hk.
    destruct (dict_get G p) as [g|]; [|discriminate]. simpl.
    destruct IH as (gs & -> & Hlen); [intros q Hq; apply Hr; now right|].
    simpl. exists (g :: gs). split; [reflexivity | simpl; now rewrite Hlen].
Qed.

(** The comprehension finds something exactly when a Condition group is in
    the chain. *)
Lemma condition_parents_resolved (G : dict TasksGroup)
    (parents outer : list string) :
  (forall p, In p parents -> exists k, kind_of G p = Some k) ->
  incl outer parents ->
  exists found, condition_parents G parents outer = Ok found /\
                nonempty found = existsb (is_condition G) outer.
Proof.
  intros Hr. induction outer as [|p outer IH]; intros Hincl; simpl.
  - now exists [].
  - assert (Hp : In p parents) by (apply Hincl; now left).
    destruct (Hr p Hp) as [k Hk].
    destruct IH as (rest & Hrest & Hne);
      [intros q Hq; apply Hincl; now right|].
    unfold is_condition. unfold kind_of in Hk |- *.
    destruct (dict_get G p) as [g|]; [|discriminate]. simpl.
    injection Hk as Hk. rewrite Hk.
    destruct k; simpl; rewrite ?Hrest; simpl;
      try (exists rest; split; [reflexivity | exact Hne]).
    destruct (lookup_all_resolved G parents Hr) as (gs & -> & Hlen). simpl.
    exists (gs ++ rest). split; [reflexivity|].
    destruct gs as [|g' gs]; [|reflexivity].
    destruct parents; [contradiction | discriminate].
Qed.

(** The check for Condition ancestors fails exactly when some chain holds
    no Condition group. *)
Lemma validate_all_tasks_have_condition_parents_decides
    (tasks : dict (list string)) (G : dict TasksGroup) :
  resolvable G tasks = true ->
  _validate_all_tasks_have_condition_parents tasks G
  = if some_task_without_condition tasks G
    then Raise MissingConditionAncestor else Ok tt.
Proof.
  intros Hr.
  unfold _validate_all_tasks_have_condition_parents, some_task_without_condition.
  apply for_each_decide. intros [task parents] Ht.
  destruct (condition_parents_resolved G parents parents) as (found & -> & Hne).
  - intros p Hp. exact (resolvable_In _ _ _ _ _ Hr Ht Hp).
  - apply incl_refl.
  - simpl. rewrite Hne. reflexivity.
Qed.

Lemma some_task_without_condition_iff (tasks : dict (list string))
    (G : dict TasksGroup) :
  some_task_without_condition tasks G = true <->
  exists task parents,
    In (task, parents) tasks /\
    forall parent, In parent parents -> is_condition G parent = false.
Proof.
  unfold some_task_without_condition. rewrite existsb_exists. split.
  - intros ([task parents] & Hin & Hno). exists task, parents.
    split; [exact Hin|]. intros parent Hp.
    apply negb_true_iff in Hno.
    destruct (is_condition G parent) eqn:Hc; [|reflexivity].
    assert (existsb (is_condition G) parents = true)
      by (apply existsb_exists; now exists parent).
    congruence.
  - intros (task & parents & Hin & Hno). exists (task, parents).
    split; [exact Hin|]. apply negb_true_iff.
    destruct (existsb (is_condition G) parents) eqn:He; [|reflexivity].
    apply existsb_exists in He as (parent & Hp & Hc).
    rewrite (Hno _ Hp) in Hc. discriminate.
Qed.

Lemma no_task_without_condition_iff (tasks : dict (list string))
    (G : dict TasksGroup) :
  some_task_without_condition tasks G = false <->
  forall task parents,
    In (task, parents) tasks ->
    exists parent, In parent parents /\ is_condition G parent = true.
Proof.
  split.
  - intros Hno task parents Hin.
    destruct (existsb (is_condition G) parents) eqn:He.
    + apply existsb_exists in He. exact He.
    + assert (some_task_without_condition tasks G = true).
      { apply existsb_exists. exists (task, parents).
        split; [exact Hin | now rewrite He]. }
      congruence.
  - intros Hall.
    destruct (some_task_without_condition tasks G) eqn:Hs; [|reflexivity].
    apply some_task_without_condition_iff in Hs
      as (task & parents & Hin & Hno).
    destruct (Hall _ _ Hin) as (parent & Hp & Hc).
    rewrite (Hno _ Hp) in Hc. discriminate.
Qed.

(** *** Dictionaries *)

Lemma dict_get_In {V : Type} (d : dict V) (k : string) (v : V) :
  dict_get d k = Ok v -> In (k, v) d.
Proof.
  induction d as [|[k' v'] d IH]; simpl; [discriminate|].
  destruct (k' =? k) eqn:Hk.
  - apply String.eqb_eq in Hk. subst k'. intros Heq. injection Heq as ->.
    now left.
  - intros Heq. right. now apply IH.
Qed.

Lemma In_dict_get {V : Type} (d : dict V) (k : string) (v : V) :
  NoDup (map fst d) -> In (k, v) d -> dict_get d k = Ok v.
Proof.
  induction d as [|[k' v'] d IH]; simpl; intros Hnd Hin; [contradiction|].
  inversion Hnd as [|? ? Hnotin Hnd']; subst.
  destruct Hin as [Heq | Hin].
  - injection Heq as -> ->. now rewrite String.eqb_refl.
  - destruct (k' =? k) eqn:Hk; [|now apply IH].
    apply String.eqb_eq in Hk. subst k'. exfalso. apply Hnotin.
    apply in_map_iff. now exists (k, v).
Qed.

Lemma dict_get_set_eq {V : Type} (d : dict V) (k : string) (v : V) :
  dict_get (dict_set d k v) k = Ok v.
Proof.
  induction d as [|[k' v'] d IH]; simpl.
  - now rewrite String.eqb_refl.
  - destruct (k' =? k) eqn:Hk; simpl; rewrite Hk; [reflexivity | exact IH].
Qed.

Lemma dict_get_set_neq {V : Type} (d : dict V) (k k' : string) (v : V) :
  k' <> k -> dict_get (dict_set d k v) k' = dict_get d k'.
Proof.
  intros Hne. induction d as [|[k0 v0] d IH]; simpl.
  - destruct (k =? k') eqn:Hk; [|reflexivity].
    apply String.eqb_eq in Hk. now subst.
  - destruct (k0 =? k) eqn:Hk; simpl.
    + apply String.eqb_eq in Hk. subst k0.
      destruct (k =? k') eqn:Hk'; [|reflexivity].
      apply String.eqb_eq in Hk'. now subst.
    + now rewrite IH.
Qed.

Lemma dict_set_keys {V : Type} (d : dict V) (k k' : string) (v : V) :
  In k' (map fst (dict_set d k v)) -> k' = k \/ In k' (map fst d).
Proof.
  induction d as [|[k0 v0] d IH]; simpl.
  - intros [<- | []]. now left.
  - destruct (k0 =? k) eqn:Hk; simpl.
    + intros [<- | Hin]; right; [now left | now right].
    + intros [<- | Hin]; [right; now left|].
      destruct (IH Hin) as [-> | Hin']; [now left | right; now right].
Qed.

Lemma dict_set_NoDup {V : Type} (d : dict V) (k : string) (v : V) :
  NoDup (map fst d) -> NoDup (map fst (dict_set d k v)).
Proof.
  induction d as [|[k0 v0] d IH]; simpl; intros Hnd.
  - constructor; [intros [] | constructor].
  - inversion Hnd as [|? ? Hnotin Hnd']; subst.
    destruct (k0 =? k) eqn:Hk; simpl; [exact Hnd|].
    constructor; [|now apply IH].
    intros Hin. apply dict_set_keys in Hin as [-> | Hin].
    + now rewrite String.eqb_refl in Hk.
    + contradiction.
Qed.

(** *** The loop that collects the Condition groups *)

Lemma condition_count_app (G : dict TasksGroup) (group : string)
    (seen : list string) (parent : string) :
  condition_count G group (seen ++ [parent])
  = condition_count G group seen
    + (if is_condition G group && (group =? parent) then 1 else 0).
Proof.
  unfold condition_count. destruct (is_condition G group); simpl; [|reflexivity].
  rewrite filter_app, length_app. simpl.
  destruct (group =? parent); reflexivity.
Qed.

(** One step of the loop keeps the invariant. *)
Lemma counts_conditions_step (G : dict TasksGroup) (d : dict (list string))
    (seen : list string) (parent task : string) :
  counts_conditions G d seen ->
  counts_conditions G
    (if is_condition G parent then dict_append d parent task else d)
    (seen ++ [parent]).
Proof.
  intros [Hnd Hcount]. destruct (is_condition G parent) eqn:Hc.
  - split.
    + unfold dict_append. destruct (dict_get d parent); now apply dict_set_NoDup.
    + intros group. rewrite condition_count_app.
      destruct (String.eqb_spec group parent) as [-> | Hne].
      * rewrite Hc. simpl. specialize (Hcount parent). unfold dict_append.
        destruct (dict_get d parent) as [inner|e]; rewrite dict_get_set_eq.
        -- destruct Hcount as [Hlen Hpos]. rewrite length_app. simpl. lia.
        -- simpl. lia.
      * rewrite andb_false_r, Nat.add_0_r. specialize (Hcount group).
        unfold dict_append.
        destruct (dict_get d parent); rewrite dict_get_set_neq by exact Hne;
          exact Hcount.
  - split; [exact Hnd|]. intros group. rewrite condition_count_app.
    destruct (String.eqb_spec group parent) as [-> | Hne].
    + rewrite Hc. simpl. rewrite Nat.add_0_r. apply Hcount.
    + rewrite andb_false_r, Nat.add_0_r. apply Hcount.
Qed.

Lemma collect_conditions_counts (G : dict TasksGroup) (task : string)
    (parents : list string) (d : dict (list string)) (seen : list string) :
  (forall p, In p parents -> exists k, kind_of G p = Some k) ->
  counts_conditions G d seen ->
  exists d', collect_conditions G task parents d = Ok d' /\
             counts_conditions G d' (seen ++ parents).
Proof.
  revert d seen. induction parents as [|p parents IH]; intros d seen Hr Hd.
  - exists d. rewrite app_nil_r. now split.
  - destruct (Hr p (or_introl eq_refl)) as [k Hk].
    cbn [collect_conditions].
    assert (Htest : forall g, dict_get G p = Ok g ->
              TasksGroupType_eqb (group_type g) CONDITION = is_condition G p).
    { intros g Hg. unfold is_condition, kind_of. rewrite Hg.
      now destruct (group_type g). }
    unfold kind_of in Hk. destruct (dict_get G p) as [g|] eqn:Hg;
      [|discriminate].
    cbn [bind]. rewrite (Htest g eq_refl).
    destruct (IH (if is_condition G p then dict_append d p task else d)
                (seen ++ [p])) as (d' & Hd' & Hinv).
    + intros q Hq. apply Hr. now right.
    + now apply counts_conditions_step.
    + exists d'. split; [exact Hd'|].
      now rewrite <- app_assoc in Hinv.
Qed.

Lemma collect_all_conditions_counts (G : dict TasksGroup)
    (tasks : dict (list string)) (d : dict (list string))
    (seen : list string) :
  resolvable G tasks = true ->
  counts_conditions G d seen ->
  exists d', collect_all_conditions G tasks d = Ok d' /\
             counts_conditions G d' (seen ++ flat_map snd tasks).
Proof.
  revert d seen. induction tasks as [|[task parents] tasks IH];
    intros d seen Hr Hd.
  - exists d. simpl. rewrite app_nil_r. now split.
  - cbn [collect_all_conditions].
    destruct (collect_conditions_counts G task parents d seen)
      as (d1 & -> & Hd1); [|exact Hd|].
    { intros p Hp.
      exact (resolvable_In G _ task parents p Hr (or_introl eq_refl) Hp). }
    cbn [bind].
    destruct (IH d1 (seen ++ parents)) as (d' & Hd' & Hinv).
    + unfold resolvable in Hr |- *. simpl in Hr.
      now apply andb_true_iff in Hr as [_ Hr].
    + exact Hd1.
    + exists d'. split; [exact Hd'|]. simpl.
      now rewrite app_assoc.
Qed.

(** The check for shared Condition groups fails exactly when some
    Condition group occurs more than once in the chains. *)
Lemma validate_no_shared_condition_parents_decides
    (tasks : dict (list string)) (G : dict TasksGroup) :
  resolvable G tasks = true ->
  _validate_no_shared_condition_parents tasks G
  = if some_shared_condition tasks G
    then Raise NonExclusiveBranches else Ok tt.
Proof.
  intros Hr. unfold _validate_no_shared_condition_parents.
  destruct (collect_all_conditions_counts G tasks [] [] Hr)
    as (d & -> & [Hnd Hcount]).
  { split; [constructor|]. intros group. simpl. unfold condition_count.
    now destruct (is_condition G group). }
  cbn [bind app].
  rewrite (for_each_decide _
             (fun '(_, inner_tasks) => (1 <? List.length inner_tasks)%nat)
             NonExclusiveBranches)
    by (intros [condition_name inner_tasks] _; reflexivity).
  replace (existsb (fun '(_, inner_tasks) => (1 <? List.length inner_tasks)%nat)
             d)
    with (some_shared_condition tasks G); [reflexivity|].
  apply eq_true_iff_eq. unfold some_shared_condition.
  rewrite !existsb_exists. split.
  - intros (group & Hin & Hshared).
    apply andb_true_iff in Hshared as [Hc Hmany].
    specialize (Hcount group). unfold condition_count in Hcount.
    rewrite Hc in Hcount. unfold times_ancestor in Hmany.
    apply Nat.ltb_lt in Hmany.
    destruct (dict_get d group) as [inner|e] eqn:Hg; [|simpl in Hcount; lia].
    exists (group, inner). split; [now apply dict_get_In|].
    apply Nat.ltb_lt. simpl in Hcount. lia.
  - intros ([group inner] & Hin & Hmany). apply Nat.ltb_lt in Hmany.
    specialize (Hcount group). rewrite (In_dict_get _ _ _ Hnd Hin) in Hcount.
    destruct Hcount as [Hlen _]. unfold condition_count in Hlen. simpl in Hlen.
    destruct (is_condition G group) eqn:Hc; [|lia].
    exists group. split.
    + destruct (filter (String.eqb group) (flat_map snd tasks)) as [|x l] eqn:Hf;
        [simpl in Hlen; lia|].
      assert (Hx : In x (filter (String.eqb group) (flat_map snd tasks)))
        by (rewrite Hf; now left).
      apply filter_In in Hx as [Hx Heq]. apply String.eqb_eq in Heq.
      now subst x.
    + rewrite Hc. simpl. apply Nat.ltb_lt. unfold times_ancestor. lia.
Qed.

(** *** The chains of the branch tasks *)

Lemma list_remove_spec (x : string) (l l' : list string) :
  list_remove x l = Ok l' ->
  exists a b, l = a ++ x :: b /\ ~ In x a /\ l' = a ++ b.
Proof.
  revert l'. induction l as [|y l IH]; intros l'; simpl; [discriminate|].
  destruct (String.eqb_spec y x) as [-> | Hne].
  - intros Heq. injection Heq as <-. exists [], l. repeat split. intros [].
  - destruct (list_remove x l) as [l''|e]; simpl; [|discriminate].
    intros Heq. injection Heq as <-.
    destruct (IH l'' eq_refl) as (a & b & -> & Hnotin & ->).
    exists (y :: a), b. repeat split. intros [Heq | Hin]; [|contradiction].
    now apply Hne.
Qed.

Lemma dict_set_In {V : Type} (d : dict V) (k k' : string) (v v' : V) :
  In (k', v') (dict_set d k v) -> (k' = k /\ v' = v) \/ In (k', v') d.
Proof.
  induction d as [|[k0 v0] d IH]; simpl.
  - intros [Heq | []]. injection Heq as <- <-. now left.
  - destruct (String.eqb_spec k0 k) as [-> | Hne]; simpl.
    + intros [Heq | Hin]; [injection Heq as <- <-; now left|].
      right. now right.
    + intros [Heq | Hin]; [right; now left|].
      destruct (IH Hin) as [Hnew | Hold]; [now left | right; now right].
Qed.

(** Every chain that the topology checks see is the chain of a branch
    task, without the first entry that is the task's own name. *)
Lemma parents_no_self_sound (self : OneOf) (chains acc tasks : dict (list string)) :
  parents_no_self self chains acc = Ok tasks ->
  forall task parents,
    In (task, parents) tasks ->
    In (task, parents) acc \/
    (in_branch_tasks self task = true /\
     exists chain, In (task, chain) chains /\
                   list_remove task chain = Ok parents).
Proof.
  revert acc. induction chains as [|[t chain] chains IH]; intros acc; simpl.
  - intros Heq. injection Heq as <-. intros task parents Hin. now left.
  - destruct (list_remove t chain) as [chain'|e] eqn:Hrm; simpl; [|discriminate].
    intros Hrest task parents Hin.
    destruct (IH _ Hrest task parents Hin) as [Hacc | (Hb & c & Hc & Hr)].
    + destruct (in_branch_tasks self t) eqn:Hb; [|now left].
      apply dict_set_In in Hacc as [[-> ->] | Hacc]; [|now left].
      right. split; [exact Hb|]. exists chain. split; [now left | exact Hrm].
    + right. split; [exact Hb|]. exists c. split; [now right | exact Hr].
Qed.

(** *** The checks of the constructor, decided *)

Lemma some_invalid_operand_split (outputs : list operand) :
  some_invalid_operand outputs
  = nonempty (constants outputs)
    || nonempty (pipeline_parameters (channels outputs)).
Proof.
  induction outputs as [|[c|v] outputs IH]; simpl; [reflexivity| |reflexivity].
  unfold pipeline_parameters in *. simpl.
  destruct (task_name c); simpl; [exact IH | now rewrite orb_true_r].
Qed.

Lemma existsb_map_compose {A B : Type} (f : B -> bool) (g : A -> B)
    (l : list A) :
  existsb f (map g l) = existsb (fun x => f (g x)) l.
Proof.
  induction l as [|x l IH]; simpl; [reflexivity | now rewrite IH].
Qed.

(** The constructor's checks, for at least one output, in the order they
    are made. *)
Lemma validate_tuple_decides `{Env} (outputs : list operand) :
  outputs <> [] ->
  _validate_tuple outputs
  = if some_invalid_operand outputs then Raise InvalidOperand
    else if some_type_differs outputs then Raise TypeMismatch
    else if too_few outputs then Raise ArityViolation
    else Ok tt.
Proof.
  intros Hne. unfold _validate_tuple. rewrite some_invalid_operand_split.
  destruct (nonempty (constants outputs)) eqn:Hc; simpl; [reflexivity|].
  destruct (nonempty (pipeline_parameters (channels outputs))); simpl;
    [reflexivity|].
  unfold some_type_differs, too_few.
  destruct (channels outputs) as [|first rest] eqn:Hch.
  - destruct outputs as [|[c|v] outputs]; [contradiction | | ];
      simpl in Hc, Hch; discriminate.
  - cbn [bind]. rewrite existsb_map_compose.
    destruct (existsb _ (first :: rest)); reflexivity.
Qed.

(** C6, counterexample.  [t1] sits in a ParallelFor group under the root,
    with no Condition group above it, and [t2] in a Condition group.  The
    check for Condition ancestors fails on these chains, and the topology
    validation reports the loop: the loop check runs first. *)
Lemma loop_is_reported_before_missing_condition :
  let t1_out := ParameterChannel "out" (PStr "String") (Some "t1") PNone in
  let t2_out := ParameterChannel "out" (PStr "String") (Some "t2") PNone in
  let self := {| outputs := [OperandChannel t1_out; OperandChannel t2_out] |} in
  let chains := [("t1", ["root"; "loop"; "t1"]); ("t2", ["root"; "c2"; "t2"])] in
  let all_groups :=
    [{| group_name := "root"; group_type := PIPELINE |};
     {| group_name := "loop"; group_type := FOR_LOOP |};
     {| group_name := "c2"; group_type := CONDITION |}] in
  parents_no_self self chains []
    = Ok [("t1", ["root"; "loop"]); ("t2", ["root"; "c2"])] /\
  _validate_all_tasks_have_condition_parents
    [("t1", ["root"; "loop"]); ("t2", ["root"; "c2"])] (group_index all_groups)
    = Raise MissingConditionAncestor /\
  _validate_topology self chains all_groups = Raise LoopNotAllowed /\
  (forall E : Env,
     construct_and_validate (outputs self) chains all_groups
     = Raise LoopNotAllowed).
Proof. repeat split. Qed.

(** C6, as amended.  For at least one output, chains from which every
    task's own name can be removed and in which every other name is a
    group: construction and topology validation end in the first failure
    of this list, and succeed when there is none: an operand that is a
    constant or is produced by no task; a type that differs from the
    first; fewer than two outputs; a ParallelFor ancestor; a Condition
    group shared in the chains; a task without a Condition ancestor. *)
Theorem oneof_validation_order (E : Env) (outputs : list operand)
    (chains : dict (list string)) (all_groups : list TasksGroup)
    (tasks : dict (list string)) :
  outputs <> [] ->
  parents_no_self {| outputs := outputs |} chains [] = Ok tasks ->
  resolvable (group_index all_groups) tasks = true ->
  construct_and_validate outputs chains all_groups
  = if some_invalid_operand outputs then Raise InvalidOperand
    else if some_type_differs outputs then Raise TypeMismatch
    else if too_few outputs then Raise ArityViolation
    else if some_loop_ancestor tasks (group_index all_groups)
         then Raise LoopNotAllowed
    else if some_shared_condition tasks (group_index all_groups)
         then Raise NonExclusiveBranches
    else if some_task_without_condition tasks (group_index all_groups)
         then Raise MissingConditionAncestor
    else Ok tt.
Proof.
  intros Hne Hchains Hr. unfold construct_and_validate, OneOf_init.
  rewrite (validate_tuple_decides outputs Hne).
  destruct (some_invalid_operand outputs); [reflexivity|].
  destruct (some_type_differs outputs); [reflexivity|].
  destruct (too_few outputs); [reflexivity|].
  cbn [bind]. unfold _validate_topology. rewrite Hchains. cbn [bind].
  rewrite (validate_no_parallel_for_parents_decides _ _ Hr).
  destruct (some_loop_ancestor tasks (group_index all_groups)); [reflexivity|].
  cbn [bind].
  rewrite (validate_no_shared_condition_parents_decides _ _ Hr).
  destruct (some_shared_condition tasks (group_index all_groups));
    [reflexivity|].
  cbn [bind].
  apply (validate_all_tasks_have_condition_parents_decides _ _ Hr).
Qed.

Lemma oneof_validation_order_witness :
  @construct_and_validate sample_env
    [OperandChannel (ParameterChannel "out" (PStr "String") (Some "t1") PNone);
     OperandChannel (ParameterChannel "out" (PStr "String") (Some "t2") PNone)]
    [("t1", ["root"; "c1"; "loop"; "t1"]); ("t2", ["root"; "c1"; "t2"]);
     ("t3", ["root"; "t3"])]
    [{| group_name := "root"; group_type := PIPELINE |};
     {| group_name := "c1"; group_type := CONDITION |};
     {| group_name := "loop"; group_type := FOR_LOOP |}]
  = Raise LoopNotAllowed.
Proof.
  apply (oneof_validation_order sample_env
           [OperandChannel
              (ParameterChannel "out" (PStr "String") (Some "t1") PNone);
            OperandChannel
              (ParameterChannel "out" (PStr "String") (Some "t2") PNone)]
           [("t1", ["root"; "c1"; "loop"; "t1"]); ("t2", ["root"; "c1"; "t2"]);
            ("t3", ["root"; "t3"])]
           [{| group_name := "root"; group_type := PIPELINE |};
            {| group_name := "c1"; group_type := CONDITION |};
            {| group_name := "loop"; group_type := FOR_LOOP |}]
           [("t1", ["root"; "c1"; "loop"]); ("t2", ["root"; "c1"])]).
  - discriminate.
  - reflexivity.
  - reflexivity.
Defined.

(** C8, counterexample.  Three producing tasks: [t1] directly under the
    root, with no Condition group in its chain, [t2] and [t3] both in the
    Condition group [c1].  The check for Condition ancestors, alone, fails
    on these chains with [MissingConditionAncestor]; topology validation
    does not: the shared Condition group is found first, and the failure
    is [NonExclusiveBranches]. *)
Lemma missing_condition_is_hidden_by_shared_condition :
  let self :=
    {| outputs :=
         [OperandChannel (ParameterChannel "out" (PStr "String") (Some "t1") PNone);
          OperandChannel (ParameterChannel "out" (PStr "String") (Some "t2") PNone);
          OperandChannel (ParameterChannel "out" (PStr "String") (Some "t3") PNone)]
    |} in
  let chains :=
    [("t1", ["root"; "t1"]); ("t2", ["root"; "c1"; "t2"]);
     ("t3", ["root"; "c1"; "t3"])] in
  let all_groups :=
    [{| group_name := "root"; group_type := PIPELINE |};
     {| group_name := "c1"; group_type := CONDITION |}] in
  let tasks :=
    [("t1", ["root"]); ("t2", ["root"; "c1"]); ("t3", ["root"; "c1"])] in
  parents_no_self self chains [] = Ok tasks /\
  resolvable (group_index all_groups) tasks = true /\
  In ("t1", ["root"]) tasks /\
  is_condition (group_index all_groups) "root" = false /\
  _validate_all_tasks_have_condition_parents tasks (group_index all_groups)
    = Raise MissingConditionAncestor /\
  _validate_topology self chains all_groups = Raise NonExclusiveBranches /\
  _validate_topology self chains all_groups <> Raise MissingConditionAncestor.
Proof.
  cbv zeta. repeat split; try reflexivity; [now left | discriminate].
Qed.

(** C8, as amended.  The chains that topology validation checks are those
    of the producing tasks that the resolver's index holds, each without
    the task's own name.  On chains whose names are all groups, the check
    for Condition ancestors fails with [MissingConditionAncestor] exactly
    when some chain holds no Condition group, anywhere, and passes exactly
    when every chain holds one.  This check runs last: topology validation
    fails with [MissingConditionAncestor] exactly when no chain holds a
    ParallelFor group, no Condition group is shared, and some chain holds
    no Condition group; and it passes exactly when no chain holds a
    ParallelFor group, no Condition group is shared, and every chain holds
    a Condition group. *)
Theorem condition_ancestor_required (self : OneOf)
    (chains : dict (list string)) (all_groups : list TasksGroup)
    (tasks : dict (list string)) :
  parents_no_self self chains [] = Ok tasks ->
  resolvable (group_index all_groups) tasks = true ->
  (forall task parents,
     In (task, parents) tasks ->
     in_branch_tasks self task = true /\
     exists chain, In (task, chain) chains /\
                   list_remove task chain = Ok parents) /\
  (_validate_all_tasks_have_condition_parents tasks (group_index all_groups)
     = Raise MissingConditionAncestor <->
   exists task parents,
     In (task, parents) tasks /\
     forall parent, In parent parents ->
                    is_condition (group_index all_groups) parent = false) /\
  (_validate_all_tasks_have_condition_parents tasks (group_index all_groups)
     = Ok tt <->
   forall task parents,
     In (task, parents) tasks ->
     exists parent, In parent parents /\
                    is_condition (group_index all_groups) parent = true) /\
  (_validate_topology self chains all_groups = Raise MissingConditionAncestor <->
   some_loop_ancestor tasks (group_index all_groups) = false /\
   some_shared_condition tasks (group_index all_groups) = false /\
   exists task parents,
     In (task, parents) tasks /\
     forall parent, In parent parents ->
                    is_condition (group_index all_groups) parent = false) /\
  (_validate_topology self chains all_groups = Ok tt <->
   some_loop_ancestor tasks (group_index all_groups) = false /\
   some_shared_condition tasks (group_index all_groups) = false /\
   forall task parents,
     In (task, parents) tasks ->
     exists parent, In parent parents /\
                    is_condition (group_index all_groups) parent = true).
Proof.
  intros Hchains Hr.
  pose proof (validate_all_tasks_have_condition_parents_decides _ _ Hr) as Hd.
  assert (Hmissing :
            _validate_all_tasks_have_condition_parents tasks
              (group_index all_groups) = Raise MissingConditionAncestor <->
            exists task parents,
              In (task, parents) tasks /\
              forall parent, In parent parents ->
                is_condition (group_index all_groups) parent = false).
  { rewrite Hd, <- some_task_without_condition_iff.
    destruct (some_task_without_condition tasks (group_index all_groups));
      split; intros Heq; try reflexivity; discriminate. }
  assert (Hpass :
            _validate_all_tasks_have_condition_parents tasks
              (group_index all_groups) = Ok tt <->
            forall task parents,
              In (task, parents) tasks ->
              exists parent, In parent parents /\
                is_condition (group_index all_groups) parent = true).
  { rewrite Hd, <- no_task_without_condition_iff.
    destruct (some_task_without_condition tasks (group_index all_groups));
      split; intros Heq; try reflexivity; discriminate. }
  assert (Htopology :
            _validate_topology self chains all_groups =
            if some_loop_ancestor tasks (group_index all_groups)
            then Raise LoopNotAllowed
            else if some_shared_condition tasks (group_index all_groups)
                 then Raise NonExclusiveBranches
                 else _validate_all_tasks_have_condition_parents tasks
                        (group_index all_groups)).
  { unfold _validate_topology. rewrite Hchains. cbn [bind].
    rewrite (validate_no_parallel_for_parents_decides _ _ Hr).
    destruct (some_loop_ancestor tasks (group_index all_groups));
      [reflexivity|].
    cbn [bind].
    rewrite (validate_no_shared_condition_parents_decides _ _ Hr).
    destruct (some_shared_condition tasks (group_index all_groups));
      reflexivity. }
  split; [|split; [exact Hmissing|split; [exact Hpass|split]]].
  - intros task parents Hin.
    destruct (parents_no_self_sound _ _ _ _ Hchains _ _ Hin) as [[] | Hs].
    exact Hs.
  - rewrite Htopology, <- Hmissing.
    destruct (some_loop_ancestor tasks (group_index all_groups)).
    { split; [discriminate | intros (Habs & _); discriminate]. }
    destruct (some_shared_condition tasks (group_index all_groups)).
    { split; [discriminate | intros (_ & Habs & _); discriminate]. }
    split; [intros Heq; repeat split; exact Heq | intros (_ & _ & Heq); exact Heq].
  - rewrite Htopology, <- Hpass.
    destruct (some_loop_ancestor tasks (group_index all_groups)).
    { split; [discriminate | intros (Habs & _); discriminate]. }
    destruct (some_shared_condition tasks (group_index all_groups)).
    { split; [discriminate | intros (_ & Habs & _); discriminate]. }
    split; [intros Heq; repeat split; exact Heq | intros (_ & _ & Heq); exact Heq].
Qed.

Lemma condition_ancestor_required_witness :
  _validate_topology
    {| outputs :=
         [OperandChannel
            (ParameterChannel "out" (PStr "String") (Some "t1") PNone);
          OperandChannel
            (ParameterChannel "out" (PStr "String") (Some "t2") PNone)] |}
    [("t1", ["root"; "c1"; "c11"; "t1"]);
     ("t2", ["root"; "handler"; "t2"])]
    [{| group_name := "root"; group_type := PIPELINE |};
     {| group_name := "c1"; group_type := CONDITION |};
     {| group_name := "c11"; group_type := CONDITION |};
     {| group_name := "handler"; group_type := EXIT_HANDLER |}]
    = Raise MissingConditionAncestor <->
  some_loop_ancestor
    [("t1", ["root"; "c1"; "c11"]); ("t2", ["root"; "handler"])]
    (group_index
       [{| group_name := "root"; group_type := PIPELINE |};
        {| group_name := "c1"; group_type := CONDITION |};
        {| group_name := "c11"; group_type := CONDITION |};
        {| group_name := "handler"; group_type := EXIT_HANDLER |}]) = false /\
  some_shared_condition
    [("t1", ["root"; "c1"; "c11"]); ("t2", ["root"; "handler"])]
    (group_index
       [{| group_name := "root"; group_type := PIPELINE |};
        {| group_name := "c1"; group_type := CONDITION |};
        {| group_name := "c11"; group_type := CONDITION |};
        {| group_name := "handler"; group_type := EXIT_HANDLER |}]) = false /\
  exists task parents,
    In (task, parents)
      [("t1", ["root"; "c1"; "c11"]); ("t2", ["root"; "handler"])] /\
    forall parent,
      In parent parents ->
      is_condition
        (group_index
           [{| group_name := "root"; group_type := PIPELINE |};
            {| group_name := "c1"; group_type := CONDITION |};
            {| group_name := "c11"; group_type := CONDITION |};
            {| group_name := "handler"; group_type := EXIT_HANDLER |}])
        parent = false.
Proof.
  apply (condition_ancestor_required
           {| outputs :=
                [OperandChannel
                   (ParameterChannel "out" (PStr "String") (Some "t1") PNone);
                 OperandChannel
                   (ParameterChannel "out" (PStr "String") (Some "t2") PNone)] |}
           [("t1", ["root"; "c1"; "c11"; "t1"]);
            ("t2", ["root"; "handler"; "t2"])]
           [{| group_name := "root"; group_type := PIPELINE |};
            {| group_name := "c1"; group_type := CONDITION |};
            {| group_name := "c11"; group_type := CONDITION |};
            {| group_name := "handler"; group_type := EXIT_HANDLER |}]
           [("t1", ["root"; "c1"; "c11"]); ("t2", ["root"; "handler"])]).
  - reflexivity.
  - reflexivity.
Defined.

(** A producing task that the resolver's index does not hold is not
    checked: [t2] has no chain, and validation passes. *)
Example producing_task_without_chain_is_not_checked :
  _validate_topology
    {| outputs :=
         [OperandChannel
            (ParameterChannel "out" (PStr "String") (Some "t1") PNone);
          OperandChannel
            (ParameterChannel "out" (PStr "String") (Some "t2") PNone)] |}
    [("t1", ["root"; "c1"; "t1"])]
    [{| group_name := "root"; group_type := PIPELINE |};
     {| group_name := "c1"; group_type := CONDITION |}]
  = Ok tt.
Proof. reflexivity. Qed.

(** ** The worked cases of OneOf *)

(** Two tasks in two Condition groups under the root, both producing a
    String: the OneOf is valid. *)
Example oneof_valid_case (E : Env) :
  construct_and_validate
    [OperandChannel (ParameterChannel "out" (PStr "String") (Some "t1") PNone);
     OperandChannel (ParameterChannel "out" (PStr "String") (Some "t2") PNone)]
    [("t1", ["root"; "c1"; "t1"]); ("t2", ["root"; "c2"; "t2"])]
    [{| group_name := "root"; group_type := PIPELINE |};
     {| group_name := "c1"; group_type := CONDITION |};
     {| group_name := "c2"; group_type := CONDITION |}]
  = Ok tt.
Proof. reflexivity. Qed.

(** Both tasks in the same Condition group. *)
Example oneof_same_condition (E : Env) :
  construct_and_validate
    [OperandChannel (ParameterChannel "out" (PStr "String") (Some "t1") PNone);
     OperandChannel (ParameterChannel "out" (PStr "String") (Some "t2") PNone)]
    [("t1", ["root"; "c1"; "t1"]); ("t2", ["root"; "c1"; "t2"])]
    [{| group_name := "root"; group_type := PIPELINE |};
     {| group_name := "c1"; group_type := CONDITION |}]
  = Raise NonExclusiveBranches.
Proof. reflexivity. Qed.

(** [t1] in a ParallelFor group inside a Condition group. *)
Example oneof_in_loop (E : Env) :
  construct_and_validate
    [OperandChannel (ParameterChannel "out" (PStr "String") (Some "t1") PNone);
     OperandChannel (ParameterChannel "out" (PStr "String") (Some "t2") PNone)]
    [("t1", ["root"; "c1"; "loop"; "t1"]); ("t2", ["root"; "c2"; "t2"])]
    [{| group_name := "root"; group_type := PIPELINE |};
     {| group_name := "c1"; group_type := CONDITION |};
     {| group_name := "loop"; group_type := FOR_LOOP |};
     {| group_name := "c2"; group_type := CONDITION |}]
  = Raise LoopNotAllowed.
Proof. reflexivity. Qed.

(** A String and an Integer: the constructor fails, whatever the chains. *)
Example oneof_type_mismatch (E : Env) (chains : dict (list string))
    (all_groups : list TasksGroup) :
  construct_and_validate
    [OperandChannel (ParameterChannel "out" (PStr "String") (Some "t1") PNone);
     OperandChannel (ParameterChannel "out" (PStr "Integer") (Some "t2") PNone)]
    chains all_groups
  = Raise TypeMismatch.
Proof. reflexivity. Qed.

(** ** The worked cases of the codec *)

(** The same placeholder twice in a text is extracted once. *)
Example extract_twice_the_same :
  @extract_pipeline_channels_from_string sample_env
    "{{channel:task=t;name=x;type=String;}} {{channel:task=t;name=x;type=String;}}"
  = Ok [ParameterChannel "x" (PStr "String") (Some "t") PNone].
Proof. vm_compute. reflexivity. Qed.

(** A placeholder whose name field does not start with a letter is
    matched, and the constructor rejects the name. *)
Example extract_invalid_name (E : Env) :
  extract_pipeline_channels_from_string "{{channel:task=;name=1x;type=String;}}"
  = (read <- loaded_type "String" ;;
     call (is_parameter_type read) ;;;
     Raise InvalidName).
Proof.
  unfold extract_pipeline_channels_from_string.
  change (findall "{{channel:task=;name=1x;type=String;}}")
    with [("", "1x", "String")].
  cbn [add_matches]. rewrite channel_of_match_cases.
  destruct (loaded_type "String") as [read|e]; cbn [bind]; [|reflexivity].
  destruct (is_parameter_type read) as [p|x]; reflexivity.
Qed.

(** The exceptions that extraction lets through.  An empty dictionary for
    a type, on which the classifier raises an [IndexError]: extraction
    raises it, before the name is looked at. *)
Example extract_empty_dictionary_type (E : Env) (n : string) :
  all_chars field_char n = true -> n <> "" ->
  json_loads "{}" = Returned (Some (PDict [])) ->
  is_parameter_type (PDict []) = Raised "IndexError" ->
  extract_pipeline_channels_from_string
    (placeholder "" n "{}")
  = Raise (Propagated "IndexError").
Proof.
  intros Hn Hne Hloads Hclass.
  unfold extract_pipeline_channels_from_string.
  rewrite findall_placeholder; [|reflexivity|exact Hn|exact Hne|reflexivity].
  cbn [add_matches]. rewrite channel_of_match_cases, loaded_type_cases, Hloads.
  cbn [bind]. rewrite Hclass. reflexivity.
Qed.

(** A type field on which [json.loads] raises something else than a
    [JSONDecodeError], as it does on an integer of too many digits. *)
Example extract_type_of_too_many_digits (E : Env) (digits : string) :
  all_chars type_char digits = true ->
  json_loads digits = Raised "ValueError" ->
  extract_pipeline_channels_from_string (placeholder "t" "x" digits)
  = Raise (Propagated "ValueError").
Proof.
  intros Hd Hloads.
  unfold extract_pipeline_channels_from_string.
  rewrite findall_placeholder;
    [|reflexivity|reflexivity|discriminate|exact Hd].
  cbn [add_matches]. rewrite channel_of_match_cases, loaded_type_cases, Hloads.
  reflexivity.
Qed.

(** Characters above U+007F, in the environment of the examples: a no-break
    space is white space and may stand in a name; an accented letter is a
    word character and may stand in the task field of a placeholder, though
    not in a name. *)
Example name_with_no_break_space :
  @valid_name sample_env (String "a" (String (ascii_of_N 160) "b")) = true /\
  @valid_name sample_env (String "a" (String (ascii_of_N 226) "b")) = false.
Proof. split; reflexivity. Qed.

Example extract_task_with_accented_letter :
  @extract_pipeline_channels_from_string sample_env
    (placeholder (String "t" (String (ascii_of_N 226) "che")) "x" "String")
  = Ok [ParameterChannel "x" (PStr "String")
          (Some (String "t" (String (ascii_of_N 226) "che"))) PNone].
Proof. vm_compute. reflexivity. Qed.

(* ================================================================== *)
(** * Further properties of the module *)

(** ** What a built channel is *)

(** X1.  A channel that a constructor or the factory returns has a name of the
    grammar (a letter of [A-Za-z], then letters, digits, [_], [-] and what
    the interpreter takes for white space), the variant that the
    classifier, which returned, gives for its type, and the attributes it
    was called with, the task name normalised. *)
Theorem built_channel_invariant (E : Env) (n : string) (ct : pyval)
    (task : option string) (value : pyval) (c : PipelineChannel) :
  PipelineParameterChannel_init n ct task value = Ok c \/
  PipelineArtifactChannel_init n ct task = Ok c \/
  create_pipeline_channel n ct task value = Ok c ->
  valid_name (name c) = true /\
  is_parameter_type (channel_type c) = Returned (is_parameter_channel c) /\
  name c = n /\ channel_type c = ct /\ task_name c = or_None task.
Proof.
  rewrite create_pipeline_channel_cases.
  rewrite !PipelineParameterChannel_init_cases, !PipelineArtifactChannel_init_cases.
  intros Hb.
  destruct (is_parameter_type ct) as [[|]|x] eqn:Hp,
    (truthy_opt task && truthy value), (valid_name n) eqn:Hv; simpl in Hb;
    repeat match goal with
           | H : _ \/ _ |- _ => destruct H
           | H : Raise _ = Ok _ |- _ => discriminate H
           | H : Ok _ = Ok _ |- _ => injection H as <-
           end; simpl; rewrite ?Hp, ?Hv; repeat split; reflexivity.
Qed.

Lemma built_channel_invariant_witness :
  @valid_name sample_env
    (name (ArtifactChannel "model" (PStr "Model") (Some "train"))) = true /\
  @is_parameter_type sample_env
    (channel_type (ArtifactChannel "model" (PStr "Model") (Some "train")))
    = Returned
        (is_parameter_channel
           (ArtifactChannel "model" (PStr "Model") (Some "train"))) /\
  name (ArtifactChannel "model" (PStr "Model") (Some "train")) = "model" /\
  channel_type (ArtifactChannel "model" (PStr "Model") (Some "train"))
    = PStr "Model" /\
  task_name (ArtifactChannel "model" (PStr "Model") (Some "train"))
    = or_None (Some "train").
Proof.
  apply (built_channel_invariant sample_env "model" (PStr "Model")
           (Some "train") (PInt 7)
           (ArtifactChannel "model" (PStr "Model") (Some "train"))).
  right. right. reflexivity.
Defined.

(** X2.  A parameter channel that the constructor or the factory returns holds
    the value it was given, and never a task name together with a value
    that is true. *)
Theorem built_parameter_channel_source (E : Env) (n : string) (ct : pyval)
    (task : option string) (value : pyval) (c : PipelineChannel) :
  PipelineParameterChannel_init n ct task value = Ok c \/
  (is_parameter_type ct = Returned true /\
   create_pipeline_channel n ct task value = Ok c) ->
  c = ParameterChannel n ct (or_None task) value /\
  truthy_opt (task_name c) && truthy value = false.
Proof.
  unfold create_pipeline_channel. intros Hb.
  assert (Hp : PipelineParameterChannel_init n ct task value = Ok c).
  { destruct Hb as [Hb | [Hp Hb]]; [exact Hb | now rewrite Hp in Hb]. }
  clear Hb. rewrite PipelineParameterChannel_init_cases in Hp.
  destruct (truthy_opt task && truthy value) eqn:Hc; [discriminate|].
  destruct (is_parameter_type ct) as [[|]|x]; try discriminate.
  destruct (valid_name n); [|discriminate].
  injection Hp as <-. split; [reflexivity|]. simpl.
  destruct task as [t|]; [|reflexivity]. unfold or_None. simpl in *.
  destruct (negb (t =? "")) eqn:Ht; simpl; [now rewrite Ht | reflexivity].
Qed.

Lemma built_parameter_channel_source_witness :
  ParameterChannel "n" (PStr "Integer") None (PInt 3)
    = ParameterChannel "n" (PStr "Integer") (or_None (Some "")) (PInt 3) /\
  truthy_opt (task_name (ParameterChannel "n" (PStr "Integer") None (PInt 3)))
    && truthy (PInt 3) = false.
Proof.
  apply (built_parameter_channel_source sample_env "n" (PStr "Integer")
           (Some "") (PInt 3)
           (ParameterChannel "n" (PStr "Integer") None (PInt 3))).
  left. reflexivity.
Defined.

(** ** Names and placeholders as identities *)

Lemma valid_name_tail `{Env} (n : string) :
  valid_name n = true -> all_chars name_tail_char n = true.
Proof.
  destruct n as [|c rest]; simpl; [discriminate|].
  rewrite !andb_true_iff. intros [Hc Hr]. split; [|exact Hr].
  revert Hc. by_cases_on_tests c.
Qed.

Lemma valid_name_append `{Env} (a b : string) :
  valid_name a = true -> all_chars name_tail_char b = true ->
  valid_name (a ++ b) = true.
Proof.
  destruct a as [|c a]; simpl; [discriminate|].
  rewrite !andb_true_iff, all_chars_app, andb_true_iff.
  intros [Hc Ha] Hb. repeat split; assumption.
Qed.

(** X3.  [full_name] does not tell channels apart: a dash in the name and a
    dash in the task name give the same full name to two channels, both
    with names and task names of the grammar, that the placeholder tells
    apart. *)
Theorem full_name_is_not_unique (E : Env) (t b n : string) (ct : pyval) :
  valid_name t = true -> valid_name b = true -> valid_name n = true ->
  valid_name (b ++ "-" ++ n) = true /\
  valid_name (t ++ "-" ++ b) = true /\
  full_name (ArtifactChannel (b ++ "-" ++ n)%string ct (Some t))
    = full_name (ArtifactChannel n ct (Some (t ++ "-" ++ b)%string)) /\
  str (ArtifactChannel (b ++ "-" ++ n)%string ct (Some t))
    <> str (ArtifactChannel n ct (Some (t ++ "-" ++ b)%string)).
Proof.
  intros Ht Hb Hn.
  assert (Hbn : valid_name (b ++ "-" ++ n) = true).
  { apply valid_name_append; [exact Hb|]. simpl.
    now apply valid_name_tail. }
  assert (Htb : valid_name (t ++ "-" ++ b) = true).
  { apply valid_name_append; [exact Ht|]. simpl.
    now apply valid_name_tail. }
  repeat split; try assumption.
  - unfold full_name. cbn [task_name name].
    destruct (valid_name_field _ Ht) as [_ Hte].
    destruct (valid_name_field _ Htb) as [_ Htbe].
    destruct (t =? "") eqn:H1; [apply String.eqb_eq in H1; contradiction|].
    destruct ((t ++ "-" ++ b)%string =? "") eqn:H2;
      [apply String.eqb_eq in H2; contradiction|].
    cbn [negb]. rewrite !append_assoc. reflexivity.
  - intros Heq. unfold str in Heq. simpl in Heq.
    apply placeholder_inj in Heq as (Htask & _);
      try (now apply valid_name_field).
    apply (f_equal String.length) in Htask.
    rewrite length_append in Htask. simpl in Htask. lia.
Qed.

Lemma full_name_is_not_unique_witness :
  @valid_name sample_env ("a" ++ "-" ++ "b") = true /\
  @valid_name sample_env ("t" ++ "-" ++ "a") = true /\
  full_name (ArtifactChannel ("a" ++ "-" ++ "b")%string (PStr "Model") (Some "t"))
    = full_name (ArtifactChannel "b" (PStr "Model") (Some ("t" ++ "-" ++ "a")%string)) /\
  @str sample_env
    (ArtifactChannel ("a" ++ "-" ++ "b")%string (PStr "Model") (Some "t"))
    <> @str sample_env
         (ArtifactChannel "b" (PStr "Model") (Some ("t" ++ "-" ++ "a")%string)).
Proof.
  apply (full_name_is_not_unique sample_env "t" "a" "b" (PStr "Model"));
    reflexivity.
Defined.

Lemma same_element_str `{Env} (c d : PipelineChannel) :
  str c = str d -> same_element c d = true.
Proof.
  intros Heq. unfold same_element, hash, pattern, condition_truthy.
  now rewrite Heq, Z.eqb_refl.
Qed.

(** Adding a channel whose placeholder is already in the set changes
    nothing. *)
Lemma set_add_known `{Env} (s : list PipelineChannel) (c d : PipelineChannel) :
  In d s -> str c = str d -> set_add s c = s.
Proof.
  intros Hin Heq. unfold set_add.
  assert (Hex : existsb (same_element c) s = true).
  { apply existsb_exists. exists d. split; [exact Hin|].
    now apply same_element_str. }
  now rewrite Hex.
Qed.

(** X4.  The placeholder, and so the hash and the place in a set, does not
    depend on the variant or on the value of a channel, and does not tell
    a type from the string of its type field (a dictionary from its JSON
    text). *)
Theorem placeholder_ignores_value_and_variant (E : Env) (n : string)
    (ct : pyval) (task : option string) (v1 v2 : pyval) :
  str (ParameterChannel n ct task v1) = str (ParameterChannel n ct task v2) /\
  str (ParameterChannel n ct task v1) = str (ArtifactChannel n ct task) /\
  hash (ParameterChannel n ct task v1) = hash (ArtifactChannel n ct task) /\
  list_set [ParameterChannel n ct task v1; ParameterChannel n ct task v2;
            ArtifactChannel n ct task]
    = [ParameterChannel n ct task v1] /\
  str (ArtifactChannel n ct task)
  = str (ArtifactChannel n (PStr (type_field ct)) task).
Proof.
  repeat split.
  - unfold list_set. cbn [fold_left].
    change (set_add [] (ParameterChannel n ct task v1))
      with [ParameterChannel n ct task v1].
    rewrite (set_add_known [ParameterChannel n ct task v1]
               (ParameterChannel n ct task v2)
               (ParameterChannel n ct task v1));
      [|apply in_eq | reflexivity].
    apply (set_add_known _ _ (ParameterChannel n ct task v1));
      [apply in_eq | reflexivity].
  - unfold str. simpl. now rewrite type_field_PStr.
Qed.

(** ** Extraction from a string *)

Lemma add_matches_incl `{Env} (ms : list (string * string * string))
    (s l : list PipelineChannel) :
  add_matches ms s = Ok l -> incl s l.
Proof.
  revert s. induction ms as [|m ms IH]; intros s; simpl.
  - intros Heq. injection Heq as <-. apply incl_refl.
  - destruct (channel_of_match m) as [c|e]; simpl; [|discriminate].
    intros Hl c' Hc'. apply (IH _ Hl). unfold set_add.
    destruct (existsb (same_element c) s); [exact Hc'|].
    apply in_or_app. now left.
Qed.

Lemma add_matches_origin `{Env} (ms : list (string * string * string))
    (s l : list PipelineChannel) :
  add_matches ms s = Ok l ->
  forall c, In c l -> In c s \/ exists m, In m ms /\ channel_of_match m = Ok c.
Proof.
  revert s. induction ms as [|m ms IH]; intros s; simpl.
  - intros Heq. injection Heq as <-. intros c Hc. now left.
  - destruct (channel_of_match m) as [c0|e] eqn:Hm; simpl; [|discriminate].
    intros Hl c Hc. destruct (IH _ Hl c Hc) as [Hin | (m' & Hm' & Hc')].
    + unfold set_add in Hin.
      destruct (existsb (same_element c0) s); [now left|].
      apply in_app_or in Hin as [Hin | [<- | []]]; [now left|].
      right. exists m. split; [now left | exact Hm].
    + right. exists m'. split; [now right | exact Hc'].
Qed.

(** How the channel of a match fails: on what [json.loads] raises, on
    what the classifier raises for the type read back, or, when both
    return, on a name outside the grammar. *)
Lemma channel_of_match_Raise `{Env} (task n type : string) (e : ErrorKind) :
  channel_of_match (task, n, type) = Raise e <->
  (exists x, json_loads type = Raised x /\ e = Propagated x) \/
  (exists read,
     loaded_type type = Ok read /\
     ((exists x, is_parameter_type read = Raised x /\ e = Propagated x) \/
      (exists parameter,
         is_parameter_type read = Returned parameter /\
         valid_name n = false /\ e = InvalidName))).
Proof.
  rewrite channel_of_match_cases, loaded_type_cases.
  destruct (json_loads type) as [[v|]|x]; cbn [bind].
  - destruct (is_parameter_type v) as [p|x] eqn:Hp; cbn [call bind].
    + destruct (valid_name n) eqn:Hv; split.
      * discriminate.
      * intros [(x & Habs & _) | (read & Hr & [(x & Habs & _) | (q & _ & Habs & _)])];
          [discriminate | | discriminate].
        injection Hr as <-. congruence.
      * intros Heq. injection Heq as <-. right. exists v.
        split; [reflexivity|]. right. now exists p.
      * intros [(x & Habs & _) | (read & Hr & [(x & Habs & _) | (q & _ & _ & ->)])];
          [discriminate | | reflexivity].
        injection Hr as <-. congruence.
    + split.
      * intros Heq. injection Heq as <-. right. exists v.
        split; [reflexivity|]. left. now exists x.
      * intros [(y & Habs & _) | (read & Hr & [(y & Hy & ->) | (q & Habs & _)])];
          [discriminate | |]; injection Hr as <-; congruence.
  - destruct (is_parameter_type (PStr type)) as [p|x] eqn:Hp; cbn [call bind].
    + destruct (valid_name n) eqn:Hv; split.
      * discriminate.
      * intros [(x & Habs & _) | (read & Hr & [(x & Habs & _) | (q & _ & Habs & _)])];
          [discriminate | | discriminate].
        injection Hr as <-. congruence.
      * intros Heq. injection Heq as <-. right. exists (PStr type).
        split; [reflexivity|]. right. now exists p.
      * intros [(x & Habs & _) | (read & Hr & [(x & Habs & _) | (q & _ & _ & ->)])];
          [discriminate | | reflexivity].
        injection Hr as <-. congruence.
    + split.
      * intros Heq. injection Heq as <-. right. exists (PStr type).
        split; [reflexivity|]. left. now exists x.
      * intros [(y & Habs & _) | (read & Hr & [(y & Hy & ->) | (q & Habs & _)])];
          [discriminate | |]; injection Hr as <-; congruence.
  - split.
    + intros Heq. injection Heq as <-. left. now exists x.
    + intros [(y & Hy & ->) | (read & Habs & _)]; [|discriminate].
      now injection Hy as <-.
Qed.

(** When the channel of a match is built. *)
Lemma channel_of_match_Ok `{Env} (task n type : string) (c : PipelineChannel) :
  channel_of_match (task, n, type) = Ok c <->
  exists read parameter,
    loaded_type type = Ok read /\
    is_parameter_type read = Returned parameter /\
    valid_name n = true /\
    c = matched_channel task n read parameter.
Proof.
  rewrite channel_of_match_cases.
  destruct (loaded_type type) as [read|e]; cbn [bind].
  - destruct (is_parameter_type read) as [p|x] eqn:Hp; cbn [call bind].
    + destruct (valid_name n) eqn:Hv; split.
      * intros Heq. injection Heq as <-. now exists read, p.
      * intros (r & q & Hr & Hq & _ & ->). injection Hr as <-.
        rewrite Hp in Hq. now injection Hq as <-.
      * discriminate.
      * intros (r & q & _ & _ & Habs & _). discriminate.
    + split; [discriminate|].
      intros (r & q & Hr & Hq & _). injection Hr as <-. congruence.
  - split; [discriminate|]. intros (r & q & Habs & _). discriminate.
Qed.

(** The loop fails exactly when the channel of some match fails, and then
    as the first such match does. *)
Lemma add_matches_fails `{Env} (ms : list (string * string * string))
    (s : list PipelineChannel) (e : ErrorKind) :
  add_matches ms s = Raise e <->
  exists before m after,
    ms = before ++ m :: after /\
    (forall m', In m' before -> exists c, channel_of_match m' = Ok c) /\
    channel_of_match m = Raise e.
Proof.
  revert s. induction ms as [|m0 ms IH]; intros s; cbn [add_matches].
  - split; [discriminate|].
    intros (before & m & after & Heq & _). now destruct before.
  - destruct (channel_of_match m0) as [c0|e0] eqn:Hm0; cbn [bind].
    + rewrite IH. split.
      * intros (before & m & after & -> & Hbefore & Hm).
        exists (m0 :: before), m, after. split; [reflexivity|].
        split; [|exact Hm].
        intros m' [<- | Hin]; [now exists c0 | now apply Hbefore].
      * intros ([|m1 before] & m & after & Heq & Hbefore & Hm).
        -- injection Heq as <- _. congruence.
        -- injection Heq as <- ->. exists before, m, after.
           split; [reflexivity|]. split; [|exact Hm].
           intros m' Hin. apply Hbefore. now right.
    + split.
      * intros Heq. injection Heq as <-. exists [], m0, ms.
        split; [reflexivity|]. split; [intros m' []|exact Hm0].
      * intros ([|m1 before] & m & after & Heq & Hbefore & Hm).
        -- injection Heq as <- _. congruence.
        -- injection Heq as <- _.
           destruct (Hbefore m0 (or_introl eq_refl)) as [c Hc]. congruence.
Qed.

(** Every match of [findall] is a placeholder that occurs in the text, with
    fields in their classes. *)
Lemma findall_from_occurs `{Env} (fuel : nat) (s task n type : string) :
  In (task, n, type) (findall_from fuel s) ->
  exists before after,
    s = (before ++ placeholder task n type ++ after)%string /\
    all_chars field_char task = true /\
    all_chars field_char n = true /\ n <> "" /\
    all_chars type_char type = true.
Proof.
  revert s. induction fuel as [|fuel IH]; intros s; simpl; [intros []|].
  destruct (match_placeholder s) as [[[[t0 n0] ty0] rest]|] eqn:Hm.
  - apply match_placeholder_sound in Hm as (-> & Hrest).
    intros [Heq | Hin].
    + injection Heq as <- <- <-. exists "", rest. split; [reflexivity|].
      exact Hrest.
    + destruct (IH _ Hin) as (before & after & -> & Hcls).
      exists (placeholder t0 n0 ty0 ++ before)%string, after.
      split; [now rewrite append_assoc | exact Hcls].
  - destruct s as [|c s]; [intros []|]. intros Hin.
    destruct (IH _ Hin) as (before & after & -> & Hcls).
    exists (String c before), after. split; [reflexivity | exact Hcls].
Qed.

(** X5.  Extraction from a string fails exactly when the channel of some
    matched placeholder cannot be built, and as the first such match
    fails: with what [json.loads] raises on its type field (other than a
    [JSONDecodeError]), with what the classifier raises on the type read
    back, or, when both return, with [InvalidName] for a name field
    outside the naming grammar.  Such a placeholder stands in the text,
    with its fields in their classes. *)
Theorem extraction_failure_origin (E : Env) (s : string) (e : ErrorKind) :
  (extract_pipeline_channels_from_string s = Raise e <->
   exists before m after,
     findall s = before ++ m :: after /\
     (forall m', In m' before -> exists c, channel_of_match m' = Ok c) /\
     channel_of_match m = Raise e)
  /\
  (extract_pipeline_channels_from_string s = Raise e ->
   exists before task n type after,
     s = (before ++ placeholder task n type ++ after)%string /\
     all_chars field_char task = true /\
     all_chars field_char n = true /\ n <> "" /\
     all_chars type_char type = true /\
     ((exists x, json_loads type = Raised x /\ e = Propagated x) \/
      (exists read,
         loaded_type type = Ok read /\
         ((exists x, is_parameter_type read = Raised x /\ e = Propagated x) \/
          (exists parameter,
             is_parameter_type read = Returned parameter /\
             valid_name n = false /\ e = InvalidName))))).
Proof.
  unfold extract_pipeline_channels_from_string.
  split; [apply add_matches_fails|].
  intros Hr.
  apply add_matches_fails in Hr
    as (ms1 & [[task n] type] & ms2 & Hf & _ & Hm).
  assert (Hin : In (task, n, type) (findall s)).
  { rewrite Hf. apply in_or_app. right. apply in_eq. }
  destruct (findall_from_occurs _ _ _ _ _ Hin)
    as (before & after & Hs & Htask & Hn & Hne & Htype).
  exists before, task, n, type, after.
  repeat (split; [assumption|]).
  exact (proj1 (channel_of_match_Raise task n type e) Hm).
Qed.

(** X6.  What comes out of a string was written in it: every extracted channel
    is the channel of a placeholder that occurs in the text, with a name
    of the grammar, the type that [json.loads] read back from the type
    field, the variant that the classifier returned for it, the task name
    normalised and no value. *)
Theorem extracted_channel_occurs (E : Env) (s : string)
    (l : list PipelineChannel) (c : PipelineChannel) :
  extract_pipeline_channels_from_string s = Ok l -> In c l ->
  exists before task n type after read parameter,
    s = (before ++ placeholder task n type ++ after)%string /\
    valid_name n = true /\
    all_chars field_char task = true /\
    all_chars type_char type = true /\
    loaded_type type = Ok read /\
    is_parameter_type read = Returned parameter /\
    c = matched_channel task n read parameter.
Proof.
  unfold extract_pipeline_channels_from_string. intros Hl Hc.
  destruct (add_matches_origin _ _ _ Hl c Hc) as [[] | ([[task n] type] & Hm & Hc')].
  apply channel_of_match_Ok in Hc' as (read & parameter & Hr & Hp & Hv & ->).
  destruct (findall_from_occurs _ _ _ _ _ Hm)
    as (before & after & Hs & Htask & _ & _ & Htype).
  exists before, task, n, type, after, read, parameter.
  repeat split; assumption.
Qed.

Lemma extracted_channel_occurs_witness :
  exists before task n type after read parameter,
    "run {{channel:task=;name=x;type=Integer;}} now"
      = (before ++ placeholder task n type ++ after)%string /\
    @valid_name sample_env n = true /\
    all_chars (@field_char sample_env) task = true /\
    all_chars (@type_char sample_env) type = true /\
    @loaded_type sample_env type = Ok read /\
    @is_parameter_type sample_env read = Returned parameter /\
    ParameterChannel "x" (PStr "Integer") None PNone
      = matched_channel task n read parameter.
Proof.
  apply (extracted_channel_occurs sample_env
           "run {{channel:task=;name=x;type=Integer;}} now"
           [ParameterChannel "x" (PStr "Integer") None PNone]).
  - vm_compute. reflexivity.
  - apply in_eq.
Defined.

(** A text without an opening brace holds no match, and such a text in
    front of another changes none of its matches. *)
Lemma findall_skip `{Env} (junk s : string) :
  all_chars no_brace junk = true -> findall (junk ++ s) = findall s.
Proof.
  induction junk as [|c junk IH]; simpl; [reflexivity|].
  rewrite andb_true_iff. intros [Hc Hjunk].
  rewrite findall_no_match; [now apply IH|].
  unfold match_placeholder. cbn [strip_prefix].
  unfold no_brace in Hc. apply negb_true_iff in Hc.
  rewrite Ascii.eqb_sym, Hc. reflexivity.
Qed.

(** X7.  Text without an opening brace is transparent to extraction: in front
    of a text it changes nothing of the result, and alone it holds no
    channel. *)
Theorem text_without_brace_is_ignored (E : Env) (junk s : string) :
  all_chars no_brace junk = true ->
  extract_pipeline_channels_from_string (junk ++ s)
    = extract_pipeline_channels_from_string s /\
  extract_pipeline_channels_from_string junk = Ok [].
Proof.
  intros Hj. unfold extract_pipeline_channels_from_string. split.
  - now rewrite findall_skip.
  - rewrite <- (append_empty_r junk), findall_skip by exact Hj. reflexivity.
Qed.

Lemma text_without_brace_is_ignored_witness :
  @extract_pipeline_channels_from_string sample_env
    ("echo " ++ "{{channel:task=t;name=x;type=String;}}")
    = @extract_pipeline_channels_from_string sample_env
        "{{channel:task=t;name=x;type=String;}}" /\
  @extract_pipeline_channels_from_string sample_env "echo " = Ok [].
Proof.
  apply (text_without_brace_is_ignored sample_env "echo "
           "{{channel:task=t;name=x;type=String;}}").
  reflexivity.
Defined.

(** X8.  A placeholder at the start of a text, with fields in their classes, is
    the first match.  When its name is outside the grammar, extraction
    fails whatever follows: with what [json.loads] or the classifier
    raises on its type, which come first, and with [InvalidName] when both
    return.  Otherwise its channel is among those extracted whenever
    extraction succeeds. *)
Theorem leading_placeholder_is_extracted (E : Env)
    (task n type rest : string) :
  all_chars field_char task = true ->
  all_chars field_char n = true -> n <> "" ->
  all_chars type_char type = true ->
  findall (placeholder task n type ++ rest) = (task, n, type) :: findall rest /\
  (valid_name n = false ->
   extract_pipeline_channels_from_string (placeholder task n type ++ rest)
   = (read <- loaded_type type ;;
      call (is_parameter_type read) ;;;
      Raise InvalidName)) /\
  (forall l,
     extract_pipeline_channels_from_string (placeholder task n type ++ rest)
       = Ok l ->
     valid_name n = true /\
     exists read parameter,
       loaded_type type = Ok read /\
       is_parameter_type read = Returned parameter /\
       In (matched_channel task n read parameter) l).
Proof.
  intros Htask Hn Hne Htype.
  assert (Hf : findall (placeholder task n type ++ rest)
               = (task, n, type) :: findall rest).
  { apply findall_match. now apply match_placeholder_placeholder. }
  unfold extract_pipeline_channels_from_string. rewrite Hf.
  cbn [add_matches]. rewrite channel_of_match_cases.
  split; [reflexivity|]. split.
  - intros ->. destruct (loaded_type type) as [read|e]; cbn [bind];
      [|reflexivity].
    destruct (is_parameter_type read) as [p|x]; reflexivity.
  - intros l. destruct (loaded_type type) as [read|e]; cbn [bind];
      [|discriminate].
    destruct (is_parameter_type read) as [p|x] eqn:Hp; cbn [call bind];
      [|discriminate].
    destruct (valid_name n); cbn [bind]; [|discriminate].
    intros Hl. split; [reflexivity|]. exists read, p.
    split; [reflexivity|]. split; [exact Hp|].
    apply (add_matches_incl _ _ _ Hl). apply in_eq.
Qed.

Lemma leading_placeholder_is_extracted_witness :
  @findall sample_env (placeholder "t" "1x" "String" ++ " tail")
    = ("t", "1x", "String") :: @findall sample_env " tail" /\
  (@valid_name sample_env "1x" = false ->
   @extract_pipeline_channels_from_string sample_env
     (placeholder "t" "1x" "String" ++ " tail")
   = (read <- @loaded_type sample_env "String" ;;
      call (@is_parameter_type sample_env read) ;;;
      Raise InvalidName)) /\
  (forall l,
     @extract_pipeline_channels_from_string sample_env
       (placeholder "t" "1x" "String" ++ " tail") = Ok l ->
     @valid_name sample_env "1x" = true /\
     exists read parameter,
       @loaded_type sample_env "String" = Ok read /\
       @is_parameter_type sample_env read = Returned parameter /\
       In (matched_channel "t" "1x" read parameter) l).
Proof.
  apply (leading_placeholder_is_extracted sample_env "t" "1x" "String" " tail").
  - reflexivity.
  - reflexivity.
  - discriminate.
  - reflexivity.
Defined.

(** ** Sets, once more *)

Lemma set_add_incl `{Env} (s : list PipelineChannel) (c : PipelineChannel) :
  incl s (set_add s c).
Proof.
  unfold set_add. destruct (existsb (same_element c) s);
    [apply incl_refl | apply incl_appl, incl_refl].
Qed.

Lemma set_add_origin `{Env} (s : list PipelineChannel) (c d : PipelineChannel) :
  In d (set_add s c) -> In d s \/ d = c.
Proof.
  unfold set_add. destruct (existsb (same_element c) s); [now left|].
  intros Hin. apply in_app_or in Hin as [Hin | [<- | []]]; [now left | now right].
Qed.

(** A set holds, for everything added to it, an element of the same
    hash. *)
Lemma set_add_holds `{Env} (s : list PipelineChannel) (c : PipelineChannel) :
  exists c', In c' (set_add s c) /\ hash c' = hash c.
Proof.
  unfold set_add. destruct (existsb (same_element c) s) eqn:Hex.
  - apply existsb_exists in Hex as (d & Hd & Hse). exists d.
    split; [exact Hd|]. unfold same_element in Hse.
    apply andb_true_iff in Hse as [Hh _]. now apply Z.eqb_eq in Hh.
  - exists c. split; [apply in_or_app; right; apply in_eq | reflexivity].
Qed.

Lemma fold_set_add_origin `{Env} (l s : list PipelineChannel)
    (d : PipelineChannel) :
  In d (fold_left set_add l s) -> In d s \/ In d l.
Proof.
  revert s. induction l as [|c l IH]; intros s; simpl; [now left|].
  intros Hin. destruct (IH _ Hin) as [Hs | Hl]; [|right; now right].
  apply set_add_origin in Hs as [Hs | ->]; [now left | right; now left].
Qed.

Lemma fold_set_add_holds `{Env} (l s : list PipelineChannel)
    (c : PipelineChannel) :
  In c s \/ In c l ->
  exists c', In c' (fold_left set_add l s) /\ hash c' = hash c.
Proof.
  revert s c. induction l as [|x l IH]; intros s c; simpl.
  - intros [Hs | []]. now exists c.
  - intros [Hs | [<- | Hl]].
    + apply IH. left. now apply set_add_incl.
    + destruct (set_add_holds s x) as (c' & Hc' & Hh).
      destruct (IH (set_add s x) c' (or_introl Hc')) as (c'' & Hc'' & Hh').
      exists c''. split; [exact Hc'' | congruence].
    + apply IH. now right.
Qed.

(** A list with pairwise different hashes is the list of its own set. *)
Lemma fold_set_add_distinct_id `{Env} (l s : list PipelineChannel) :
  distinct_hashes (s ++ l) -> fold_left set_add l s = s ++ l.
Proof.
  revert s. induction l as [|c l IH]; intros s Hd; simpl.
  - now rewrite app_nil_r.
  - assert (Hnew : existsb (same_element c) s = false).
    { destruct (existsb (same_element c) s) eqn:Hex; [|reflexivity].
      apply existsb_exists in Hex as (d & Hd' & Hse).
      unfold same_element in Hse. apply andb_true_iff in Hse as [Hh _].
      apply Z.eqb_eq in Hh. unfold distinct_hashes in Hd.
      rewrite map_app in Hd. simpl in Hd.
      apply NoDup_remove_2 in Hd. exfalso. apply Hd.
      apply in_or_app. left. rewrite <- Hh. now apply in_map. }
    unfold set_add at 2. rewrite Hnew.
    rewrite IH; rewrite <- app_assoc; [reflexivity | exact Hd].
Qed.

Lemma list_set_distinct_id `{Env} (l : list PipelineChannel) :
  distinct_hashes l -> list_set l = l.
Proof. intros Hd. unfold list_set. now rewrite fold_set_add_distinct_id. Qed.

(** ** Extraction from any payload *)

(** The branches of [extract_pipeline_channels_from_any] with their loops
    by name. *)
Lemma extract_from_any_seq `{Env} (items : list payload) :
  extract_pipeline_channels_from_any (PaySeq items)
  = match items with
    | [] => Ok []
    | _ => pipeline_channels <- extract_from_items items [] ;;
           Ok (list_set pipeline_channels)
    end.
Proof.
  destruct items; [reflexivity|].
  cbn [extract_pipeline_channels_from_any payload_falsy]. reflexivity.
Qed.

Lemma extract_from_any_dict `{Env} (items : list (payload * payload)) :
  extract_pipeline_channels_from_any (PayDict items)
  = match items with
    | [] => Ok []
    | _ => pipeline_channels <- extract_from_dict_items items [] ;;
           Ok (list_set pipeline_channels)
    end.
Proof.
  destruct items as [|[key value] items]; [reflexivity|].
  cbn [extract_pipeline_channels_from_any payload_falsy]. reflexivity.
Qed.

Lemma extract_from_items_cons `{Env} (item : payload) (items : list payload)
    (acc : list PipelineChannel) :
  extract_from_items (item :: items) acc
  = l <- extract_pipeline_channels_from_any item ;;
    extract_from_items items (acc ++ l).
Proof. reflexivity. Qed.

(** The loop over a sequence succeeds exactly when every element does, and
    then it holds the results of the elements, one after the other. *)
Lemma extract_from_items_Ok `{Env} (items : list payload)
    (acc l : list PipelineChannel) :
  extract_from_items items acc = Ok l <->
  exists ls,
    Forall2 (fun item li => extract_pipeline_channels_from_any item = Ok li)
      items ls /\
    l = acc ++ concat ls.
Proof.
  revert acc. induction items as [|item items IH]; intros acc.
  - simpl. split.
    + intros Heq. injection Heq as <-. exists []. split; [constructor|].
      simpl. now rewrite app_nil_r.
    + intros (ls & Hall & ->). inversion Hall; subst. simpl.
      now rewrite app_nil_r.
  - rewrite extract_from_items_cons.
    destruct (extract_pipeline_channels_from_any item) as [li|e] eqn:Hi;
      cbn [bind].
    + rewrite IH. split.
      * intros (ls & Hall & ->). exists (li :: ls).
        split; [now constructor|]. simpl. now rewrite app_assoc.
      * intros (ls & Hall & ->). inversion Hall as [|? li' ? ls' Hi' Hall'];
          subst. rewrite Hi in Hi'. injection Hi' as <-. exists ls'.
        split; [exact Hall'|]. simpl. now rewrite app_assoc.
    + split; [discriminate|]. intros (ls & Hall & _).
      inversion Hall as [|? li' ? ls' Hi' Hall']; subst. congruence.
Qed.

(** The loop over a sequence fails with the error of its first failing
    element. *)
Lemma extract_from_items_Raise `{Env} (items : list payload)
    (acc : list PipelineChannel) (e : ErrorKind) :
  extract_from_items items acc = Raise e <->
  exists before item after,
    items = before ++ item :: after /\
    Forall (fun x => exists lx, extract_pipeline_channels_from_any x = Ok lx)
      before /\
    extract_pipeline_channels_from_any item = Raise e.
Proof.
  revert acc. induction items as [|item items IH]; intros acc.
  - simpl. split; [discriminate|]. intros (before & x & after & Heq & _).
    now destruct before.
  - rewrite extract_from_items_cons.
    destruct (extract_pipeline_channels_from_any item) as [li|e'] eqn:Hi;
      cbn [bind].
    + rewrite IH. split.
      * intros (before & x & after & -> & Hall & Hx).
        exists (item :: before), x, after. repeat split; [|exact Hx].
        constructor; [now exists li | exact Hall].
      * intros (before & x & after & Heq & Hall & Hx).
        destruct before as [|b before]; simpl in Heq; injection Heq as <- ->.
        -- congruence.
        -- inversion Hall; subst. now exists before, x, after.
    + split.
      * intros Heq. injection Heq as <-. exists [], item, items.
        repeat split; [constructor | exact Hi].
      * intros (before & x & after & Heq & Hall & Hx).
        destruct before as [|b before]; simpl in Heq; injection Heq as <- ->.
        -- congruence.
        -- inversion Hall as [|? ? [lx Hlx] ?]; subst. congruence.
Qed.

Lemma extract_from_dict_items_flat `{Env} (items : list (payload * payload))
    (acc : list PipelineChannel) :
  extract_from_dict_items items acc
  = extract_from_items (keys_and_values items) acc.
Proof.
  revert acc. induction items as [|[key value] items IH]; intros acc;
    [reflexivity|].
  change (extract_from_dict_items ((key, value) :: items) acc)
    with (lk <- extract_pipeline_channels_from_any key ;;
          lv <- extract_pipeline_channels_from_any value ;;
          extract_from_dict_items items ((acc ++ lk) ++ lv)).
  change (keys_and_values ((key, value) :: items))
    with (key :: value :: keys_and_values items).
  rewrite !extract_from_items_cons.
  destruct (extract_pipeline_channels_from_any key) as [lk|e]; cbn [bind];
    [|reflexivity].
  rewrite extract_from_items_cons.
  destruct (extract_pipeline_channels_from_any value) as [lv|e]; cbn [bind];
    [|reflexivity].
  apply IH.
Qed.

(** X9.  A dictionary is extracted as the sequence of its keys and values. *)
Theorem dictionary_is_extracted_as_keys_and_values (E : Env)
    (items : list (payload * payload)) :
  extract_pipeline_channels_from_any (PayDict items)
  = extract_pipeline_channels_from_any (PaySeq (keys_and_values items)).
Proof.
  rewrite extract_from_any_dict, extract_from_any_seq.
  destruct items as [|[key value] items]; [reflexivity|].
  rewrite extract_from_dict_items_flat. reflexivity.
Qed.

(** X10.  What a sequence gives is the union of what its elements give: each
    channel returned comes from an element, and each channel of each
    element is there, or one of the same hash in its place. *)
Theorem sequence_extraction_is_union (E : Env) (items : list payload)
    (l : list PipelineChannel) :
  extract_pipeline_channels_from_any (PaySeq items) = Ok l ->
  (forall c, In c l ->
     exists item li,
       In item items /\
       extract_pipeline_channels_from_any item = Ok li /\ In c li) /\
  (forall item, In item items ->
     exists li,
       extract_pipeline_channels_from_any item = Ok li /\
       forall c, In c li -> exists c', In c' l /\ hash c' = hash c).
Proof.
  rewrite extract_from_any_seq. destruct items as [|item0 items0].
  - intros Heq. injection Heq as <-. split; [intros c [] | intros item []].
  - remember (item0 :: items0) as items eqn:Hitems. clear Hitems.
    destruct (extract_from_items items []) as [pcs|e] eqn:Hl; cbn [bind];
      [|discriminate].
    intros Heq. injection Heq as <-.
    apply extract_from_items_Ok in Hl as (ls & Hall & ->). simpl.
    assert (Hin : forall c, In c (concat ls) <->
              exists item li, In item items /\
                extract_pipeline_channels_from_any item = Ok li /\ In c li).
    { clear -Hall. induction Hall as [|item li items ls Hi Hall IH];
        intros c; simpl.
      - split; [intros [] | intros (? & ? & [] & _)].
      - rewrite in_app_iff, IH. split.
        + intros [Hc | (item' & li' & Hin & Hi' & Hc)].
          * exists item, li. repeat split; [now left | assumption | assumption].
          * exists item', li'. repeat split; [now right | assumption | assumption].
        + intros (item' & li' & [<- | Hin] & Hi' & Hc).
          * left. congruence.
          * right. now exists item', li'. }
    split.
    + intros c Hc. apply Hin. unfold list_set in Hc.
      now apply fold_set_add_origin in Hc as [[] | Hc].
    + intros item Hitem.
      assert (Hli : exists li, extract_pipeline_channels_from_any item = Ok li).
      { clear -Hall Hitem. induction Hall as [|x lx xs lxs Hx Hall IH];
          [contradiction|].
        destruct Hitem as [<- | Hitem]; [now exists lx | now apply IH]. }
      destruct Hli as [li Hli]. exists li. split; [exact Hli|].
      intros c Hc. unfold list_set. apply fold_set_add_holds. right.
      apply Hin. now exists item, li.
Qed.

Lemma sequence_extraction_is_union_witness :
  (forall c,
     In c [ParameterChannel "x" (PStr "String") (Some "t") PNone;
           ArtifactChannel "m" (PStr "Model") (Some "t")] ->
     exists item li,
       In item
         [PayStr "{{channel:task=t;name=x;type=String;}}";
          PaySeq [PayChannel (ArtifactChannel "m" (PStr "Model") (Some "t"))];
          PayStr "a {{channel:task=t;name=x;type=String;}}"] /\
       @extract_pipeline_channels_from_any sample_env item = Ok li /\
       In c li) /\
  (forall item,
     In item
       [PayStr "{{channel:task=t;name=x;type=String;}}";
        PaySeq [PayChannel (ArtifactChannel "m" (PStr "Model") (Some "t"))];
        PayStr "a {{channel:task=t;name=x;type=String;}}"] ->
     exists li,
       @extract_pipeline_channels_from_any sample_env item = Ok li /\
       forall c, In c li ->
         exists c',
           In c' [ParameterChannel "x" (PStr "String") (Some "t") PNone;
                  ArtifactChannel "m" (PStr "Model") (Some "t")] /\
           @hash sample_env c' = @hash sample_env c).
Proof.
  apply (sequence_extraction_is_union sample_env
           [PayStr "{{channel:task=t;name=x;type=String;}}";
            PaySeq [PayChannel (ArtifactChannel "m" (PStr "Model") (Some "t"))];
            PayStr "a {{channel:task=t;name=x;type=String;}}"]
           [ParameterChannel "x" (PStr "String") (Some "t") PNone;
            ArtifactChannel "m" (PStr "Model") (Some "t")]).
  vm_compute. reflexivity.
Defined.

Lemma extract_from_any_seq_Raise `{Env} (items : list payload)
    (e : ErrorKind) :
  extract_pipeline_channels_from_any (PaySeq items) = Raise e ->
  exists item,
    In item items /\ extract_pipeline_channels_from_any item = Raise e.
Proof.
  rewrite extract_from_any_seq. destruct items as [|item0 items0];
    [discriminate|].
  destruct (extract_from_items (item0 :: items0) []) as [l|e'] eqn:Hl;
    cbn [bind]; [discriminate|].
  intros Heq. injection Heq as <-.
  apply extract_from_items_Raise in Hl as (before & item & after & -> & _ & Hi).
  exists item. split; [apply in_or_app; right; apply in_eq | exact Hi].
Qed.

Lemma extract_from_any_dict_Raise `{Env} (items : list (payload * payload))
    (e : ErrorKind) :
  extract_pipeline_channels_from_any (PayDict items) = Raise e ->
  exists kv,
    In kv items /\
    (extract_pipeline_channels_from_any (fst kv) = Raise e \/
     extract_pipeline_channels_from_any (snd kv) = Raise e).
Proof.
  rewrite extract_from_any_dict. destruct items as [|kv0 items0];
    [discriminate|].
  rewrite extract_from_dict_items_flat.
  destruct (extract_from_items (keys_and_values (kv0 :: items0)) [])
    as [l|e'] eqn:Hl; cbn [bind]; [discriminate|].
  intros Heq. injection Heq as <-.
  apply extract_from_items_Raise in Hl as (before & item & after & Hkv & _ & Hi).
  assert (Hin : In item (keys_and_values (kv0 :: items0)))
    by (rewrite Hkv; apply in_or_app; right; apply in_eq).
  unfold keys_and_values in Hin. apply in_flat_map in Hin as (kv & Hkvin & Hin).
  exists kv. split; [exact Hkvin|].
  destruct Hin as [<- | [<- | []]]; [now left | now right].
Qed.

(** X11.  A sequence fails exactly when one of its elements does, with the error
    of the first element that fails. *)
Theorem first_failing_element_fails_sequence (E : Env) (items : list payload)
    (e : ErrorKind) :
  extract_pipeline_channels_from_any (PaySeq items) = Raise e <->
  exists before item after,
    items = before ++ item :: after /\
    Forall (fun x => exists lx, extract_pipeline_channels_from_any x = Ok lx)
      before /\
    extract_pipeline_channels_from_any item = Raise e.
Proof.
  rewrite extract_from_any_seq, <- (extract_from_items_Raise items []).
  destruct items as [|item0 items0]; [split; discriminate|].
  destruct (extract_from_items (item0 :: items0) []); cbn [bind];
    split; intros Heq; try discriminate; exact Heq.
Qed.

(** The errors of extraction from a string: [InvalidName], or what
    [json.loads] or the classifier raised. *)
Lemma extract_from_string_errors `{Env} (s : string) (e : ErrorKind) :
  extract_pipeline_channels_from_string s = Raise e ->
  e = InvalidName \/
  exists x,
    e = Propagated x /\
    ((exists type, json_loads type = Raised x) \/
     (exists read, is_parameter_type read = Raised x)).
Proof.
  unfold extract_pipeline_channels_from_string. intros Hs.
  apply add_matches_fails in Hs as (_ & [[task n] type] & _ & _ & _ & Hm).
  apply channel_of_match_Raise in Hm
    as [(x & Hx & ->) | (read & _ & [(x & Hx & ->) | (q & _ & _ & ->)])].
  - right. exists x. split; [reflexivity|]. left. now exists type.
  - right. exists x. split; [reflexivity|]. right. now exists read.
  - now left.
Qed.

(** X12.  Extraction, from any payload, fails with no other error than
    [InvalidName] and what [json.loads] (other than a [JSONDecodeError]) or
    the classifier raised on some input; no failure of the constructors
    other than on the name comes out of it. *)
Theorem extraction_from_any_errors (E : Env) (p : payload)
    (e : ErrorKind) :
  extract_pipeline_channels_from_any p = Raise e ->
  e = InvalidName \/
  exists x,
    e = Propagated x /\
    ((exists type, json_loads type = Raised x) \/
     (exists read, is_parameter_type read = Raised x)).
Proof.
  revert e. induction p as [c|s|items IH|items IH|v] using payload_nested_ind;
    intros e.
  - discriminate.
  - simpl. destruct (s =? ""); [discriminate|].
    destruct (extract_pipeline_channels_from_string s) as [l|e'] eqn:Hs;
      cbn [bind]; [discriminate|].
    intros Heq. injection Heq as <-.
    exact (extract_from_string_errors s e' Hs).
  - intros Hr. apply extract_from_any_seq_Raise in Hr as (item & Hin & Hitem).
    rewrite Forall_forall in IH. now apply (IH item).
  - intros Hr. apply extract_from_any_dict_Raise in Hr as (kv & Hin & Hkv).
    rewrite Forall_forall in IH. destruct (IH kv Hin) as [Hk Hv].
    destruct Hkv as [Hr | Hr]; [now apply Hk | now apply Hv].
  - simpl. destruct (negb (truthy v)); discriminate.
Qed.

Lemma extraction_from_any_errors_witness :
  exists e,
    @extract_pipeline_channels_from_any sample_env
      (PayDict [(PayStr "cmd",
                 PaySeq [PayStr "{{channel:task=;name=9;type=Integer;}}"])])
      = Raise e /\
    (e = InvalidName \/
     exists x,
       e = Propagated x /\
       ((exists type, @json_loads sample_env type = Raised x) \/
        (exists read, @is_parameter_type sample_env read = Raised x))).
Proof.
  exists InvalidName. split; [vm_compute; reflexivity|].
  apply (extraction_from_any_errors sample_env
           (PayDict [(PayStr "cmd",
                      PaySeq [PayStr "{{channel:task=;name=9;type=Integer;}}"])])
           InvalidName).
  vm_compute. reflexivity.
Defined.

(** X13.  For a string, [extract_pipeline_channels_from_any] gives what
    [extract_pipeline_channels_from_string] gives: the same failure, or
    the same channels. *)
Theorem extraction_from_any_string (E : Env) (s : string) :
  (forall e,
     extract_pipeline_channels_from_any (PayStr s) = Raise e <->
     extract_pipeline_channels_from_string s = Raise e) /\
  (forall l,
     extract_pipeline_channels_from_string s = Ok l ->
     exists l',
       extract_pipeline_channels_from_any (PayStr s) = Ok l' /\
       Permutation l' l).
Proof.
  simpl. destruct (String.eqb_spec s "") as [-> | Hne].
  - split.
    + intros e. split; discriminate.
    + intros l Heq. injection Heq as <-. now exists [].
  - destruct (extract_pipeline_channels_from_string s) as [l0|e0] eqn:Hs;
      cbn [bind]; split.
    + intros e. split; discriminate.
    + intros l Heq. injection Heq as <-. exists (list_set l0).
      split; [reflexivity|]. rewrite list_set_distinct_id; [reflexivity|].
      unfold extract_pipeline_channels_from_string in Hs.
      apply (add_matches_distinct _ [] _ (NoDup_nil _) Hs).
    + intros e. reflexivity.
    + discriminate.
Qed.

Lemma extract_from_items_channels `{Env} (l acc : list PipelineChannel) :
  extract_from_items (map PayChannel l) acc = Ok (acc ++ l).
Proof.
  revert acc. induction l as [|c l IH]; intros acc; simpl.
  - now rewrite app_nil_r.
  - change (extract_pipeline_channels_from_any (PayChannel c)) with (Ok [c]).
    cbn [bind]. rewrite IH, <- app_assoc. reflexivity.
Qed.

(** X14.  Extraction is idempotent: the channels that an extraction returned,
    given back as a sequence, are extracted as the same channels. *)
Theorem extraction_is_idempotent (E : Env) (l : list PipelineChannel) :
  (exists s, extract_pipeline_channels_from_string s = Ok l) \/
  (exists p, extract_pipeline_channels_from_any p = Ok l) ->
  exists l',
    extract_pipeline_channels_from_any (PaySeq (map PayChannel l)) = Ok l' /\
    Permutation l' l.
Proof.
  intros Hl.
  assert (Hd : distinct_hashes l).
  { destruct Hl as [[s Hs] | [p Hp]].
    - apply (add_matches_distinct _ [] _ (NoDup_nil _) Hs).
    - exact (extract_from_any_distinct p l Hp). }
  rewrite extract_from_any_seq. destruct l as [|c l]; [now exists []|].
  change (map PayChannel (c :: l)) with (PayChannel c :: map PayChannel l).
  rewrite <- (map_cons PayChannel c l), extract_from_items_channels.
  cbn [bind app]. exists (list_set (c :: l)). split; [reflexivity|].
  now rewrite list_set_distinct_id.
Qed.

Lemma extraction_is_idempotent_witness :
  exists l',
    @extract_pipeline_channels_from_any sample_env
      (PaySeq (map PayChannel
                 [ParameterChannel "x" (PStr "String") (Some "t") PNone;
                  ArtifactChannel "m" (PStr "Model") (Some "t")])) = Ok l' /\
    Permutation l'
      [ParameterChannel "x" (PStr "String") (Some "t") PNone;
       ArtifactChannel "m" (PStr "Model") (Some "t")].
Proof.
  apply (extraction_is_idempotent sample_env).
  left.
  exists "{{channel:task=t;name=x;type=String;}}{{channel:task=t;name=m;type=Model;}}".
  vm_compute. reflexivity.
Defined.

(** ** What a constructed OneOf is *)

Lemma channels_In (outputs : list operand) (c : PipelineChannel) :
  In (OperandChannel c) outputs <-> In c (channels outputs).
Proof.
  induction outputs as [|[c0|v] outputs IH]; simpl.
  - reflexivity.
  - rewrite <- IH. split; intros [Heq | Hin]; try (now right).
    + injection Heq as ->. now left.
    + subst. now left.
  - rewrite <- IH. split; [intros [Heq | Hin]; [discriminate | exact Hin]|].
    intros Hin. now right.
Qed.

Lemma no_invalid_operand (outputs : list operand) :
  some_invalid_operand outputs = false ->
  (forall v, ~ In (OperandValue v) outputs) /\
  (forall c, In (OperandChannel c) outputs -> task_name c <> None) /\
  List.length (channels outputs) = List.length outputs.
Proof.
  induction outputs as [|[c0|v] outputs IH]; simpl.
  - intros _. repeat split; [intros v [] | intros c []].
  - destruct (task_name c0) eqn:Ht; simpl; [|discriminate].
    intros Hno. destruct (IH Hno) as (Hv & Hc & Hlen). repeat split.
    + intros v [Heq | Hin]; [discriminate | now apply (Hv v)].
    + intros c [Heq | Hin]; [injection Heq as <-; congruence | now apply Hc].
    + now rewrite Hlen.
  - discriminate.
Qed.

(** X15.  A [OneOf] that was constructed has the outputs it was given: at least
    two, all of them channels that some task produces, all with a type
    that does not differ from the type of the first; its branch tasks are
    as many as its outputs and none of them is [None]. *)
Theorem OneOf_init_postcondition (E : Env) (outs : list operand) (self : OneOf) :
  OneOf_init outs = Ok self ->
  outputs self = outs /\
  2 <= List.length outs /\
  (forall v, ~ In (OperandValue v) outs) /\
  (forall c, In (OperandChannel c) outs -> task_name c <> None) /\
  (exists first rest,
     outs = OperandChannel first :: rest /\
     forall c, In (OperandChannel c) outs ->
               py_ne (channel_type c) (channel_type first) = false) /\
  List.length (_branch_tasks self) = List.length outs /\
  Forall (fun t => t <> None) (_branch_tasks self).
Proof.
  unfold OneOf_init. destruct outs as [|o outs]; [discriminate|].
  rewrite validate_tuple_decides by discriminate.
  destruct (some_invalid_operand (o :: outs)) eqn:Hop; [discriminate|].
  destruct (some_type_differs (o :: outs)) eqn:Hty; [discriminate|].
  destruct (too_few (o :: outs)) eqn:Hfew; [discriminate|].
  cbn [bind]. intros Heq. injection Heq as <-.
  destruct (no_invalid_operand _ Hop) as (Hv & Hc & Hlen).
  unfold too_few in Hfew. apply Nat.ltb_ge in Hfew.
  split; [reflexivity|]. split; [exact Hfew|]. split; [exact Hv|].
  split; [exact Hc|]. split; [|split].
  - destruct o as [first|v]; [|exfalso; apply (Hv v); now left].
    exists first, outs. split; [reflexivity|]. intros c Hin.
    unfold some_type_differs in Hty. cbn [channels] in Hty.
    destruct (py_ne (channel_type c) (channel_type first)) eqn:Hne;
      [|reflexivity].
    assert (Hex : existsb
                    (fun c => py_ne (channel_type c) (channel_type first))
                    (first :: channels outs) = true).
    { apply existsb_exists. exists c. split; [|exact Hne].
      now apply (channels_In (OperandChannel first :: outs)). }
    congruence.
  - unfold _branch_tasks. cbn [outputs]. now rewrite length_map.
  - unfold _branch_tasks. cbn [outputs]. apply Forall_forall.
    intros t Ht. apply in_map_iff in Ht as (c & <- & Hin).
    apply Hc. now apply channels_In.
Qed.

Lemma OneOf_init_postcondition_witness :
  exists self,
    @OneOf_init sample_env
      [OperandChannel (ParameterChannel "out" (PStr "String") (Some "t1") PNone);
       OperandChannel (ParameterChannel "out" (PStr "String") (Some "t2") PNone)]
      = Ok self /\
    _branch_tasks self = [Some "t1"; Some "t2"] /\
    Forall (fun t => t <> None) (_branch_tasks self).
Proof.
  exists {| outputs :=
    [OperandChannel (ParameterChannel "out" (PStr "String") (Some "t1") PNone);
     OperandChannel (ParameterChannel "out" (PStr "String") (Some "t2") PNone)] |}.
  split; [reflexivity|]. split; [reflexivity|].
  apply (OneOf_init_postcondition sample_env
           [OperandChannel
              (ParameterChannel "out" (PStr "String") (Some "t1") PNone);
            OperandChannel
              (ParameterChannel "out" (PStr "String") (Some "t2") PNone)]).
  reflexivity.
Defined.

(** ** The topology pass: its failures *)

Lemma for_each_Raise {A : Type} (body : A -> result unit) (l : list A)
    (e : ErrorKind) :
  for_each body l = Raise e -> exists x, In x l /\ body x = Raise e.
Proof.
  induction l as [|x l IH]; simpl; [discriminate|].
  destruct (body x) as [[]|e'] eqn:Hx; cbn [bind].
  - intros Hr. destruct (IH Hr) as (y & Hy & Hby). exists y.
    split; [now right | exact Hby].
  - intros Heq. injection Heq as <-. exists x. split; [now left | exact Hx].
Qed.

Lemma dict_get_Raise {V : Type} (d : dict V) (k : string) (e : ErrorKind) :
  dict_get d k = Raise e -> e = KeyError.
Proof.
  induction d as [|[k' v] d IH]; simpl.
  - intros Heq. now injection Heq as <-.
  - destruct (k' =? k); [discriminate | exact IH].
Qed.

Lemma list_remove_In (x : string) (l : list string) :
  In x l -> exists l', list_remove x l = Ok l'.
Proof.
  induction l as [|y l IH]; simpl; [intros []|].
  destruct (String.eqb_spec y x) as [-> | Hne]; [now exists l|].
  intros [Heq | Hin]; [contradiction|].
  destruct (IH Hin) as [l' ->]. now exists (y :: l').
Qed.

Lemma list_remove_not_In (x : string) (l : list string) :
  ~ In x l -> list_remove x l = Raise RemoveError.
Proof.
  induction l as [|y l IH]; simpl; [reflexivity|]. intros Hnot.
  destruct (String.eqb_spec y x) as [-> | Hne].
  - exfalso. apply Hnot. now left.
  - rewrite IH; [reflexivity|]. intros Hin. apply Hnot. now right.
Qed.

(** [l.remove(x)] fails exactly when [x] is not in [l]. *)
Lemma list_remove_Raise (x : string) (l : list string) (e : ErrorKind) :
  list_remove x l = Raise e <-> e = RemoveError /\ ~ In x l.
Proof.
  split.
  - intros Hr. destruct (in_dec string_dec x l) as [Hin | Hnot].
    + destruct (list_remove_In x l Hin) as [l' Hl']. congruence.
    + rewrite (list_remove_not_In x l Hnot) in Hr. injection Hr as <-.
      now split.
  - intros [-> Hnot]. now apply list_remove_not_In.
Qed.

(** The loop that strips the tasks' own names fails exactly when some
    task, of the OneOf or not, is missing from its own chain. *)
Lemma parents_no_self_Raise (self : OneOf) (chains acc : dict (list string))
    (e : ErrorKind) :
  parents_no_self self chains acc = Raise e <->
  e = RemoveError /\
  exists task chain, In (task, chain) chains /\ ~ In task chain.
Proof.
  revert acc. induction chains as [|[t chain] chains IH]; intros acc;
    cbn [parents_no_self].
  - split; [discriminate | intros (_ & ? & ? & [] & _)].
  - destruct (list_remove t chain) as [chain'|e'] eqn:Hr; cbn [bind].
    + rewrite IH. split.
      * intros (-> & task & c & Hin & Hnot). split; [reflexivity|].
        exists task, c. split; [now right | exact Hnot].
      * intros (-> & task & c & [Heq | Hin] & Hnot).
        -- injection Heq as <- <-.
           destruct (list_remove_In t chain) as [l' Hl'].
           ++ destruct (in_dec string_dec t chain) as [Hin | Hno];
                [exact Hin|].
              rewrite (list_remove_not_In _ _ Hno) in Hr. discriminate.
           ++ contradiction Hnot.
              destruct (in_dec string_dec t chain) as [Hin | Hno];
                [exact Hin|].
              rewrite (list_remove_not_In _ _ Hno) in Hr. discriminate.
        -- split; [reflexivity|]. now exists task, c.
    + apply list_remove_Raise in Hr as [-> Hnot]. split.
      * intros Heq. injection Heq as <-. split; [reflexivity|].
        exists t, chain. split; [now left | exact Hnot].
      * now intros [-> _].
Qed.

Lemma lookup_all_Raise (G : dict TasksGroup) (parents : list string)
    (e : ErrorKind) :
  lookup_all G parents = Raise e -> e = KeyError.
Proof.
  induction parents as [|p parents IH]; simpl; [discriminate|].
  destruct (dict_get G p) as [g|e'] eqn:Hg; cbn [bind].
  - destruct (lookup_all G parents); cbn [bind]; [discriminate|].
    intros Heq. injection Heq as <-. now apply IH.
  - intros Heq. injection Heq as <-. now apply dict_get_Raise in Hg.
Qed.

Lemma condition_parents_Raise (G : dict TasksGroup)
    (parents outer : list string) (e : ErrorKind) :
  condition_parents G parents outer = Raise e -> e = KeyError.
Proof.
  induction outer as [|p outer IH]; simpl; [discriminate|].
  destruct (dict_get G p) as [g|e'] eqn:Hg; cbn [bind].
  - destruct (TasksGroupType_eqb (group_type g) CONDITION).
    + destruct (lookup_all G parents) as [gs|e'] eqn:Hl; cbn [bind].
      * destruct (condition_parents G parents outer); cbn [bind];
          [discriminate|].
        intros Heq. injection Heq as <-. now apply IH.
      * intros Heq. injection Heq as <-. now apply lookup_all_Raise in Hl.
    + cbn [bind].
      destruct (condition_parents G parents outer); cbn [bind];
        [discriminate|].
      intros Heq. injection Heq as <-. now apply IH.
  - intros Heq. injection Heq as <-. now apply dict_get_Raise in Hg.
Qed.

Lemma collect_conditions_Raise (G : dict TasksGroup) (task : string)
    (parents : list string) (d : dict (list string)) (e : ErrorKind) :
  collect_conditions G task parents d = Raise e -> e = KeyError.
Proof.
  revert d. induction parents as [|p parents IH]; intros d; simpl;
    [discriminate|].
  destruct (dict_get G p) as [g|e'] eqn:Hg; cbn [bind]; [apply IH|].
  intros Heq. injection Heq as <-. now apply dict_get_Raise in Hg.
Qed.

Lemma collect_all_conditions_Raise (G : dict TasksGroup)
    (tasks d : dict (list string)) (e : ErrorKind) :
  collect_all_conditions G tasks d = Raise e -> e = KeyError.
Proof.
  revert d. induction tasks as [|[task parents] tasks IH]; intros d; simpl;
    [discriminate|].
  destruct (collect_conditions G task parents d) as [d'|e'] eqn:Hc;
    cbn [bind]; [apply IH|].
  intros Heq. injection Heq as <-. now apply collect_conditions_Raise in Hc.
Qed.

(** The failures of the three checks: the one of the check, or a
    [KeyError] for a name that is not a group. *)
Lemma topology_checks_Raise (tasks : dict (list string))
    (G : dict TasksGroup) (e : ErrorKind) :
  (_validate_no_parallel_for_parents tasks G = Raise e ->
   e = LoopNotAllowed \/ e = KeyError) /\
  (_validate_no_shared_condition_parents tasks G = Raise e ->
   e = NonExclusiveBranches \/ e = KeyError) /\
  (_validate_all_tasks_have_condition_parents tasks G = Raise e ->
   e = MissingConditionAncestor \/ e = KeyError).
Proof.
  split; [|split].
  - unfold _validate_no_parallel_for_parents. intros Hr.
    apply for_each_Raise in Hr as ([task parents] & _ & Hr).
    apply for_each_Raise in Hr as (p & _ & Hr).
    destruct (dict_get G p) as [g|e'] eqn:Hg; cbn [bind] in Hr.
    + unfold raise_if in Hr.
      destruct (TasksGroupType_eqb (group_type g) FOR_LOOP); [|discriminate].
      injection Hr as <-. now left.
    + injection Hr as <-. right. now apply dict_get_Raise in Hg.
  - unfold _validate_no_shared_condition_parents.
    destruct (collect_all_conditions G tasks []) as [d|e'] eqn:Hc; cbn [bind].
    + intros Hr. apply for_each_Raise in Hr as ([c inner] & _ & Hr).
      unfold raise_if in Hr. destruct (1 <? List.length inner)%nat;
        [|discriminate].
      injection Hr as <-. now left.
    + intros Heq. injection Heq as <-. right.
      now apply collect_all_conditions_Raise in Hc.
  - unfold _validate_all_tasks_have_condition_parents. intros Hr.
    apply for_each_Raise in Hr as ([task parents] & _ & Hr).
    destruct (condition_parents G parents parents) as [found|e'] eqn:Hc;
      cbn [bind] in Hr.
    + unfold raise_if in Hr. destruct (negb (nonempty found)); [|discriminate].
      injection Hr as <-. now left.
    + injection Hr as <-. right. now apply condition_parents_Raise in Hc.
Qed.

(** X16.  Topology validation fails in one of five ways and no other; it fails
    on the removal exactly when some task of the pipeline, of the OneOf or
    not, is not in its own chain, and then whatever the groups are. *)
Theorem topology_validation_failures (self : OneOf)
    (chains : dict (list string)) (all_groups : list TasksGroup) :
  (forall e,
     _validate_topology self chains all_groups = Raise e ->
     e = RemoveError \/ e = KeyError \/ e = LoopNotAllowed \/
     e = NonExclusiveBranches \/ e = MissingConditionAncestor) /\
  (_validate_topology self chains all_groups = Raise RemoveError <->
   exists task chain, In (task, chain) chains /\ ~ In task chain).
Proof.
  unfold _validate_topology.
  destruct (parents_no_self self chains []) as [tasks|e0] eqn:Hp; cbn [bind].
  - assert (Hkinds : forall e,
      (_validate_no_parallel_for_parents tasks (group_index all_groups) ;;;
       _validate_no_shared_condition_parents tasks (group_index all_groups) ;;;
       _validate_all_tasks_have_condition_parents tasks
         (group_index all_groups)) = Raise e ->
      e = KeyError \/ e = LoopNotAllowed \/
      e = NonExclusiveBranches \/ e = MissingConditionAncestor).
    { intros e.
      destruct (topology_checks_Raise tasks (group_index all_groups) e)
        as (H1 & H2 & H3).
      destruct (_validate_no_parallel_for_parents _ _) as [[]|e1]; cbn [bind].
      - destruct (_validate_no_shared_condition_parents _ _) as [[]|e2];
          cbn [bind].
        + intros Hr. destruct (H3 Hr) as [-> | ->]; auto.
        + intros Hr. destruct (H2 Hr) as [-> | ->]; auto.
      - intros Hr. destruct (H1 Hr) as [-> | ->]; auto. }
    split.
    + intros e Hr. right. now apply Hkinds.
    + split.
      * intros Hr. destruct (Hkinds _ Hr) as [H | [H | [H | H]]]; discriminate.
      * intros Hex.
        assert (Hr : parents_no_self self chains [] = Raise RemoveError)
          by (apply parents_no_self_Raise; now split).
        congruence.
  - apply parents_no_self_Raise in Hp as [-> Hex]. split.
    + intros e Heq. injection Heq as <-. now left.
    + split; [intros _; exact Hex | reflexivity].
Qed.

(** ** The index of the groups *)

Lemma group_index_snoc (groups : list TasksGroup) (g : TasksGroup) :
  group_index (groups ++ [g])
  = dict_set (group_index groups) (group_name g) g.
Proof. unfold group_index. now rewrite fold_left_app. Qed.

(** X17.  The index of the groups maps a name to the last group of that name,
    and a name that no group has is a [KeyError]. *)
Theorem group_index_lookup (all_groups : list TasksGroup) (n : string) :
  (dict_get (group_index all_groups) n = Raise KeyError <->
   forall g, In g all_groups -> group_name g <> n) /\
  (forall g,
     dict_get (group_index all_groups) n = Ok g <->
     exists before after,
       all_groups = before ++ g :: after /\
       group_name g = n /\
       forall g', In g' after -> group_name g' <> n).
Proof.
  induction all_groups as [|g0 groups [IHr IHo]] using rev_ind.
  - split.
    + split; [intros _ g [] | reflexivity].
    + intros g. split; [discriminate|].
      intros (before & after & Heq & _). now destruct before.
  - rewrite group_index_snoc.
    destruct (String.eqb_spec (group_name g0) n) as [Hn | Hn].
    + subst n. rewrite dict_get_set_eq. split.
      * split; [discriminate|]. intros Hall. exfalso.
        apply (Hall g0); [apply in_or_app; right; apply in_eq | reflexivity].
      * intros g. split.
        -- intros Heq. injection Heq as <-. exists groups, [].
           repeat split. intros g' [].
        -- intros (before & after & Heq & Hname & Hafter).
           destruct after as [|a after] using rev_ind.
           ++ apply app_inj_tail in Heq as [_ ->]. reflexivity.
           ++ clear IHafter. rewrite app_comm_cons, app_assoc in Heq.
              apply app_inj_tail in Heq as [_ <-]. exfalso.
              apply (Hafter g0); [apply in_or_app; right; apply in_eq|].
              reflexivity.
    + rewrite dict_get_set_neq by (intros Heq; now apply Hn). split.
      * rewrite IHr. split.
        -- intros Hall g Hin. apply in_app_or in Hin as [Hin | [<- | []]];
             [now apply Hall | exact Hn].
        -- intros Hall g Hin. apply Hall. apply in_or_app. now left.
      * intros g. rewrite IHo. split.
        -- intros (before & after & -> & Hname & Hafter).
           exists before, (after ++ [g0]). rewrite <- app_assoc.
           repeat split; [exact Hname|]. intros g' Hin.
           apply in_app_or in Hin as [Hin | [<- | []]];
             [now apply Hafter | exact Hn].
        -- intros (before & after & Heq & Hname & Hafter).
           destruct after as [|a after] using rev_ind.
           ++ apply app_inj_tail in Heq as [_ ->]. contradiction.
           ++ clear IHafter. rewrite app_comm_cons, app_assoc in Heq.
              apply app_inj_tail in Heq as [-> <-].
              exists before, after. repeat split; [exact Hname|].
              intros g' Hin. apply Hafter. apply in_or_app. now left.
Qed.

(** ** The chains and the checks *)

Lemma list_remove_Permutation (x : string) (l l' : list string) :
  list_remove x l = Ok l' -> Permutation l (x :: l').
Proof.
  intros Hr. apply list_remove_spec in Hr as (a & b & -> & _ & ->).
  symmetry. apply Permutation_middle.
Qed.

(** X18.  Each chain that the checks see is the chain of a branch task with one
    entry less, the task's own name: the same names otherwise, as often. *)
Theorem chain_without_self (self : OneOf) (chains tasks : dict (list string))
    (task : string) (parents : list string) :
  parents_no_self self chains [] = Ok tasks ->
  In (task, parents) tasks ->
  in_branch_tasks self task = true /\
  exists chain,
    In (task, chain) chains /\
    Permutation chain (task :: parents) /\
    List.length chain = S (List.length parents).
Proof.
  intros Hp Hin.
  destruct (parents_no_self_sound _ _ _ _ Hp _ _ Hin)
    as [[] | (Hb & chain & Hc & Hr)].
  split; [exact Hb|]. exists chain. split; [exact Hc|].
  apply list_remove_Permutation in Hr. split; [exact Hr|].
  now apply Permutation_length in Hr.
Qed.

Lemma chain_without_self_witness :
  in_branch_tasks
    {| outputs :=
         [OperandChannel
            (ParameterChannel "out" (PStr "String") (Some "t1") PNone)] |}
    "t1" = true /\
  exists chain,
    In ("t1", chain)
      [("t1", ["root"; "t1"; "c1"; "t1"]); ("t2", ["root"; "t2"])] /\
    Permutation chain ("t1" :: ["root"; "c1"; "t1"]) /\
    List.length chain = S (List.length ["root"; "c1"; "t1"]).
Proof.
  apply (chain_without_self
           {| outputs :=
                [OperandChannel
                   (ParameterChannel "out" (PStr "String") (Some "t1") PNone)] |}
           [("t1", ["root"; "t1"; "c1"; "t1"]); ("t2", ["root"; "t2"])]
           [("t1", ["root"; "c1"; "t1"])]).
  - reflexivity.
  - apply in_eq.
Defined.

Lemma times_ancestor_cons (c t : string) (ps : list string)
    (tasks : dict (list string)) :
  times_ancestor c ((t, ps) :: tasks)
  = List.length (filter (String.eqb c) ps) + times_ancestor c tasks.
Proof.
  unfold times_ancestor. simpl. now rewrite filter_app, length_app.
Qed.

Lemma filter_eqb_In (c : string) (ps : list string) :
  0 < List.length (filter (String.eqb c) ps) <-> In c ps.
Proof.
  induction ps as [|p ps IH]; simpl; [split; [lia | intros []]|].
  destruct (String.eqb_spec c p) as [-> | Hne]; simpl.
  - split; [now left | lia].
  - rewrite IH. split; [now right|]. intros [Heq | Hin]; [now subst | exact Hin].
Qed.

Lemma filter_eqb_NoDup (c : string) (ps : list string) :
  NoDup ps -> List.length (filter (String.eqb c) ps) <= 1.
Proof.
  induction 1 as [|p ps Hnot Hnd IH]; simpl; [lia|].
  destruct (String.eqb_spec c p) as [-> | Hne]; simpl; [|exact IH].
  destruct (filter (String.eqb p) ps) as [|x l] eqn:Hf; [simpl; lia|].
  exfalso. apply Hnot.
  assert (Hx : In x (filter (String.eqb p) ps)) by (rewrite Hf; now left).
  apply filter_In in Hx as [Hx Heq]. apply String.eqb_eq in Heq. now subst.
Qed.

Lemma times_ancestor_pos (c : string) (tasks : dict (list string)) :
  0 < times_ancestor c tasks <->
  exists t ps, In (t, ps) tasks /\ In c ps.
Proof.
  induction tasks as [|[t ps] tasks IH].
  - unfold times_ancestor. simpl. split; [lia | intros (? & ? & [] & _)].
  - rewrite times_ancestor_cons. split.
    + intros Hpos.
      destruct (Nat.eq_dec (List.length (filter (String.eqb c) ps)) 0) as [H0|H0].
      * destruct (proj1 IH) as (t' & ps' & Hin & Hc); [lia|].
        exists t', ps'. split; [now right | exact Hc].
      * exists t, ps. split; [now left|]. apply filter_eqb_In. lia.
    + intros (t' & ps' & [Heq | Hin] & Hc).
      * injection Heq as <- <-. apply filter_eqb_In in Hc. lia.
      * assert (0 < times_ancestor c tasks) by (apply IH; now exists t', ps').
        lia.
Qed.

(** A group that is in the chains of two tasks occurs twice. *)
Lemma times_ancestor_two (c t1 t2 : string) (ps1 ps2 : list string)
    (tasks : dict (list string)) :
  t1 <> t2 -> In (t1, ps1) tasks -> In (t2, ps2) tasks ->
  In c ps1 -> In c ps2 -> 1 < times_ancestor c tasks.
Proof.
  intros Hne. induction tasks as [|[t ps] tasks IH]; intros H1 H2 Hc1 Hc2;
    [contradiction|].
  rewrite times_ancestor_cons.
  destruct H1 as [Heq1 | H1], H2 as [Heq2 | H2].
  - congruence.
  - injection Heq1 as -> ->. apply filter_eqb_In in Hc1.
    assert (0 < times_ancestor c tasks)
      by (apply times_ancestor_pos; now exists t2, ps2).
    lia.
  - injection Heq2 as -> ->. apply filter_eqb_In in Hc2.
    assert (0 < times_ancestor c tasks)
      by (apply times_ancestor_pos; now exists t1, ps1).
    lia.
  - specialize (IH H1 H2 Hc1 Hc2). lia.
Qed.

(** With distinct tasks and no name twice in a chain, a group that occurs
    twice is in the chains of two tasks. *)
Lemma times_ancestor_shared (c : string) (tasks : dict (list string)) :
  NoDup (map fst tasks) ->
  (forall t ps, In (t, ps) tasks -> NoDup ps) ->
  1 < times_ancestor c tasks ->
  exists t1 ps1 t2 ps2,
    t1 <> t2 /\ In (t1, ps1) tasks /\ In (t2, ps2) tasks /\
    In c ps1 /\ In c ps2.
Proof.
  induction tasks as [|[t ps] tasks IH]; intros Hkeys Hchains Hmany.
  - unfold times_ancestor in Hmany. simpl in Hmany. lia.
  - rewrite times_ancestor_cons in Hmany.
    inversion Hkeys as [|? ? Hnot Hkeys']; subst.
    pose proof (filter_eqb_NoDup c ps (Hchains t ps (or_introl eq_refl))) as Hle.
    destruct (Nat.lt_ge_cases 1 (times_ancestor c tasks)) as [Hrest | Hrest].
    + destruct (IH Hkeys') as (t1 & ps1 & t2 & ps2 & Hne & H1 & H2 & Hc1 & Hc2);
        [intros t' ps' Hin; apply (Hchains t' ps'); now right | exact Hrest |].
      exists t1, ps1, t2, ps2. repeat split; try assumption; now right.
    + assert (Hc : In c ps) by (apply filter_eqb_In; lia).
      destruct (proj1 (times_ancestor_pos c tasks)) as (t2 & ps2 & H2 & Hc2);
        [lia|].
      exists t, ps, t2, ps2. repeat split; try assumption;
        [|now left | now right].
      intros ->. apply Hnot. apply in_map_iff. now exists (t2, ps2).
Qed.

(** X19.  Among distinct tasks with chains that hold no name twice and only
    names of groups, the check for shared Condition groups fails with
    [NonExclusiveBranches] exactly when two different tasks have a
    Condition group in common, anywhere in their chains, and passes
    otherwise. *)
Theorem shared_condition_means_two_tasks (tasks : dict (list string))
    (G : dict TasksGroup) :
  NoDup (map fst tasks) ->
  (forall t ps, In (t, ps) tasks -> NoDup ps) ->
  resolvable G tasks = true ->
  (_validate_no_shared_condition_parents tasks G = Raise NonExclusiveBranches
   <->
   exists t1 ps1 t2 ps2 c,
     t1 <> t2 /\ In (t1, ps1) tasks /\ In (t2, ps2) tasks /\
     In c ps1 /\ In c ps2 /\ is_condition G c = true) /\
  (_validate_no_shared_condition_parents tasks G = Ok tt \/
   _validate_no_shared_condition_parents tasks G = Raise NonExclusiveBranches).
Proof.
  intros Hkeys Hchains Hr.
  rewrite (validate_no_shared_condition_parents_decides _ _ Hr).
  assert (Hiff : some_shared_condition tasks G = true <->
    exists t1 ps1 t2 ps2 c,
      t1 <> t2 /\ In (t1, ps1) tasks /\ In (t2, ps2) tasks /\
      In c ps1 /\ In c ps2 /\ is_condition G c = true).
  { unfold some_shared_condition. rewrite existsb_exists. split.
    - intros (c & _ & Hc). apply andb_true_iff in Hc as [Hcond Hmany].
      apply Nat.ltb_lt in Hmany.
      destruct (times_ancestor_shared c tasks Hkeys Hchains Hmany)
        as (t1 & ps1 & t2 & ps2 & Hne & H1 & H2 & Hc1 & Hc2).
      exists t1, ps1, t2, ps2, c. repeat split; assumption.
    - intros (t1 & ps1 & t2 & ps2 & c & Hne & H1 & H2 & Hc1 & Hc2 & Hcond).
      exists c. split.
      + apply in_flat_map. exists (t1, ps1). split; [exact H1 | exact Hc1].
      + rewrite Hcond. simpl. apply Nat.ltb_lt.
        now apply (times_ancestor_two c t1 t2 ps1 ps2). }
  destruct (some_shared_condition tasks G); split.
  - rewrite <- Hiff. split; reflexivity.
  - now right.
  - rewrite <- Hiff. split; discriminate.
  - now left.
Qed.

Lemma shared_condition_means_two_tasks_witness :
  _validate_no_shared_condition_parents
    [("t1", ["root"; "c1"; "c11"]); ("t2", ["root"; "c1"; "c12"])]
    (group_index
       [{| group_name := "root"; group_type := PIPELINE |};
        {| group_name := "c1"; group_type := CONDITION |};
        {| group_name := "c11"; group_type := CONDITION |};
        {| group_name := "c12"; group_type := CONDITION |}])
  = Raise NonExclusiveBranches <->
  exists t1 ps1 t2 ps2 c,
    t1 <> t2 /\
    In (t1, ps1) [("t1", ["root"; "c1"; "c11"]); ("t2", ["root"; "c1"; "c12"])] /\
    In (t2, ps2) [("t1", ["root"; "c1"; "c11"]); ("t2", ["root"; "c1"; "c12"])] /\
    In c ps1 /\ In c ps2 /\
    is_condition
      (group_index
         [{| group_name := "root"; group_type := PIPELINE |};
          {| group_name := "c1"; group_type := CONDITION |};
          {| group_name := "c11"; group_type := CONDITION |};
          {| group_name := "c12"; group_type := CONDITION |}]) c = true.
Proof.
  apply (shared_condition_means_two_tasks
           [("t1", ["root"; "c1"; "c11"]); ("t2", ["root"; "c1"; "c12"])]
           (group_index
              [{| group_name := "root"; group_type := PIPELINE |};
               {| group_name := "c1"; group_type := CONDITION |};
               {| group_name := "c11"; group_type := CONDITION |};
               {| group_name := "c12"; group_type := CONDITION |}])).
  - repeat constructor; simpl; intuition discriminate.
  - intros t ps [Heq | [Heq | []]]; injection Heq as <- <-;
      repeat constructor; simpl; intuition discriminate.
  - reflexivity.
Defined.

Lemma existsb_Permutation {A : Type} (f : A -> bool) (l l' : list A) :
  Permutation l l' -> existsb f l = existsb f l'.
Proof.
  induction 1 as [|x l l' _ IH|x y l|l l' l'' _ IH1 _ IH2]; simpl.
  - reflexivity.
  - now rewrite IH.
  - destruct (f x), (f y); reflexivity.
  - now rewrite IH1.
Qed.

Lemma forallb_Permutation {A : Type} (f : A -> bool) (l l' : list A) :
  Permutation l l' -> forallb f l = forallb f l'.
Proof.
  induction 1 as [|x l l' _ IH|x y l|l l' l'' _ IH1 _ IH2]; simpl.
  - reflexivity.
  - now rewrite IH.
  - destruct (f x), (f y); reflexivity.
  - now rewrite IH1.
Qed.

Lemma filter_length_Permutation {A : Type} (f : A -> bool) (l l' : list A) :
  Permutation l l' ->
  List.length (filter f l) = List.length (filter f l').
Proof.
  induction 1 as [|x l l' _ IH|x y l|l l' l'' _ IH1 _ IH2]; simpl.
  - reflexivity.
  - destruct (f x); simpl; now rewrite IH.
  - destruct (f x), (f y); reflexivity.
  - now rewrite IH1.
Qed.

Lemma existsb_pointwise {A : Type} (f g : A -> bool) (l : list A) :
  (forall x, f x = g x) -> existsb f l = existsb g l.
Proof.
  intros Hfg. induction l as [|x l IH]; simpl; [reflexivity|].
  now rewrite Hfg, IH.
Qed.

Lemma chains_alike_flat (tasks tasks' : dict (list string)) :
  chains_alike tasks tasks' ->
  Permutation (flat_map snd tasks) (flat_map snd tasks').
Proof.
  induction 1 as [|x y tasks tasks' [_ Hp] _ IH]; simpl; [constructor|].
  now apply Permutation_app.
Qed.

Lemma chains_alike_existsb (f : list string -> bool)
    (tasks tasks' : dict (list string)) :
  (forall l l', Permutation l l' -> f l = f l') ->
  chains_alike tasks tasks' ->
  existsb (fun '(_, parents) => f parents) tasks
  = existsb (fun '(_, parents) => f parents) tasks'.
Proof.
  intros Hf. induction 1 as [|[t ps] [t' ps'] tasks tasks' [_ Hp] _ IH]; simpl;
    [reflexivity|].
  simpl in Hp. now rewrite (Hf _ _ Hp), IH.
Qed.

Lemma chains_alike_resolvable (G : dict TasksGroup)
    (tasks tasks' : dict (list string)) :
  chains_alike tasks tasks' -> resolvable G tasks = resolvable G tasks'.
Proof.
  unfold resolvable.
  induction 1 as [|[t ps] [t' ps'] tasks tasks' [_ Hp] _ IH]; simpl;
    [reflexivity|].
  simpl in Hp. now rewrite (forallb_Permutation _ _ _ Hp), IH.
Qed.

(** X20.  The order of the names within the chains does not matter to the three
    checks: on chains of groups, each check decides the same for two
    dictionaries of chains that differ by it only.  So it makes no
    difference which occurrence of a task's name was removed from its
    chain. *)
Theorem checks_ignore_order_in_chains (tasks tasks' : dict (list string))
    (G : dict TasksGroup) :
  resolvable G tasks = true ->
  chains_alike tasks tasks' ->
  _validate_no_parallel_for_parents tasks G
    = _validate_no_parallel_for_parents tasks' G /\
  _validate_no_shared_condition_parents tasks G
    = _validate_no_shared_condition_parents tasks' G /\
  _validate_all_tasks_have_condition_parents tasks G
    = _validate_all_tasks_have_condition_parents tasks' G.
Proof.
  intros Hr Halike.
  assert (Hr' : resolvable G tasks' = true)
    by (now rewrite <- (chains_alike_resolvable G _ _ Halike)).
  rewrite !validate_no_parallel_for_parents_decides,
    !validate_no_shared_condition_parents_decides,
    !validate_all_tasks_have_condition_parents_decides by assumption.
  pose proof (chains_alike_flat _ _ Halike) as Hflat.
  split; [|split].
  - unfold some_loop_ancestor.
    rewrite (chains_alike_existsb (existsb (is_for_loop G)) tasks tasks');
      [reflexivity | apply existsb_Permutation | exact Halike].
  - unfold some_shared_condition.
    rewrite (existsb_Permutation _ _ _ Hflat).
    replace (existsb
               (fun group => is_condition G group
                             && (1 <? times_ancestor group tasks)%nat)
               (flat_map snd tasks'))
      with (existsb
              (fun group => is_condition G group
                            && (1 <? times_ancestor group tasks')%nat)
              (flat_map snd tasks')); [reflexivity|].
    apply existsb_pointwise. intros group. unfold times_ancestor.
    now rewrite (filter_length_Permutation _ _ _ Hflat).
  - unfold some_task_without_condition.
    rewrite (chains_alike_existsb
               (fun ps => negb (existsb (is_condition G) ps)) tasks tasks');
      [reflexivity | | exact Halike].
    intros l l' Hp. now rewrite (existsb_Permutation _ _ _ Hp).
Qed.

Lemma checks_ignore_order_in_chains_witness :
  _validate_no_parallel_for_parents [("t1", ["loop"; "root"; "c1"])]
    (group_index
       [{| group_name := "root"; group_type := PIPELINE |};
        {| group_name := "c1"; group_type := CONDITION |};
        {| group_name := "loop"; group_type := FOR_LOOP |}])
  = _validate_no_parallel_for_parents [("t1", ["root"; "loop"; "c1"])]
      (group_index
         [{| group_name := "root"; group_type := PIPELINE |};
          {| group_name := "c1"; group_type := CONDITION |};
          {| group_name := "loop"; group_type := FOR_LOOP |}]) /\
  _validate_no_shared_condition_parents [("t1", ["loop"; "root"; "c1"])]
    (group_index
       [{| group_name := "root"; group_type := PIPELINE |};
        {| group_name := "c1"; group_type := CONDITION |};
        {| group_name := "loop"; group_type := FOR_LOOP |}])
  = _validate_no_shared_condition_parents [("t1", ["root"; "loop"; "c1"])]
      (group_index
         [{| group_name := "root"; group_type := PIPELINE |};
          {| group_name := "c1"; group_type := CONDITION |};
          {| group_name := "loop"; group_type := FOR_LOOP |}]) /\
  _validate_all_tasks_have_condition_parents [("t1", ["loop"; "root"; "c1"])]
    (group_index
       [{| group_name := "root"; group_type := PIPELINE |};
        {| group_name := "c1"; group_type := CONDITION |};
        {| group_name := "loop"; group_type := FOR_LOOP |}])
  = _validate_all_tasks_have_condition_parents [("t1", ["root"; "loop"; "c1"])]
      (group_index
         [{| group_name := "root"; group_type := PIPELINE |};
          {| group_name := "c1"; group_type := CONDITION |};
          {| group_name := "loop"; group_type := FOR_LOOP |}]).
Proof.
  apply (checks_ignore_order_in_chains
           [("t1", ["loop"; "root"; "c1"])] [("t1", ["root"; "loop"; "c1"])]).
  - reflexivity.
  - constructor; [|constructor]. split; [reflexivity|]. simpl.
    apply perm_swap.
Defined.

(** ** The sample's IR file name *)

Lemma replace_from_fuel (old new : string) (f1 f2 : nat) (s : string) :
  old <> "" ->
  String.length s < f1 -> String.length s < f2 ->
  replace_from f1 old new s = replace_from f2 old new s.
Proof.
  intros Hold. revert f2 s. induction f1 as [|f1 IH]; intros f2 s H1 H2; [lia|].
  destruct f2 as [|f2]; [lia|]. simpl.
  destruct (strip_prefix old s) as [rest|] eqn:Hp.
  - apply strip_prefix_sound in Hp. subst s. f_equal. apply IH.
    + rewrite length_append in H1. destruct old; [contradiction|].
      simpl in H1. lia.
    + rewrite length_append in H2. destruct old; [contradiction|].
      simpl in H2. lia.
  - destruct s as [|c s]; [reflexivity|]. simpl in H1, H2. f_equal.
    apply IH; lia.
Qed.

Lemma ir_file_empty : ir_file "" = "".
Proof. reflexivity. Qed.

Lemma ir_file_py (rest : string) :
  ir_file (".py" ++ rest) = (".yaml" ++ ir_file rest)%string.
Proof.
  unfold ir_file, str_replace.
  change (replace_from (S (String.length (".py" ++ rest))) ".py" ".yaml"
            (".py" ++ rest))
    with (".yaml" ++ replace_from (String.length (".py" ++ rest)) ".py" ".yaml"
                       rest)%string.
  f_equal. apply replace_from_fuel; [discriminate | simpl; lia | lia].
Qed.

Lemma ir_file_other (c : ascii) (s : string) :
  no_dot c = true -> ir_file (String c s) = String c (ir_file s).
Proof.
  intros Hc. unfold ir_file, str_replace.
  unfold no_dot in Hc. apply negb_true_iff in Hc.
  cbn [replace_from strip_prefix]. rewrite Ascii.eqb_sym, Hc. reflexivity.
Qed.

(** X21.  The IR file name of the sample: every [.py] of the path gives way to
    [.yaml], in a directory name as in the extension.  After a stretch
    without a dot, a [.py] is replaced and the rest of the path is treated
    in the same way; a path without a dot is left as it is. *)
Theorem ir_file_replaces_every_py (a b : string) :
  all_chars no_dot a = true ->
  ir_file (a ++ ".py" ++ b) = (a ++ ".yaml" ++ ir_file b)%string /\
  ir_file a = a.
Proof.
  intros Ha. induction a as [|c a IH]; simpl in *.
  - split; [apply ir_file_py | reflexivity].
  - apply andb_true_iff in Ha as [Hc Ha]. destruct (IH Ha) as [IH1 IH2].
    rewrite !ir_file_other by exact Hc. now rewrite IH1, IH2.
Qed.

Lemma ir_file_replaces_every_py_witness :
  ir_file ("pkg" ++ ".py" ++ "/exit_handler.py")
    = ("pkg" ++ ".yaml" ++ ir_file "/exit_handler.py")%string /\
  ir_file "pkg" = "pkg".
Proof.
  apply (ir_file_replaces_every_py "pkg" "/exit_handler.py"). reflexivity.
Defined.

Example ir_file_of_a_package_path :
  ir_file "pkg.py/exit_handler.py" = "pkg.yaml/exit_handler.yaml".
Proof. reflexivity. Qed.
